(** * CataTetris: the falling-tile engine, the tile queue and the number
    assigner, embedded from [GameBoard.tsx] (second revision, the one with
    [useIsMobile]) and from the [useTileQueue] hook.

    Conventions of the embedding.
    - JavaScript integers are [Z] (coordinates, speeds) or [nat] (counts,
      indices).
    - [Math.floor(Math.random() * n)] is an index below [n]; the source of
      randomness is a stream [rnd : nat -> nat] read at a cursor that is part
      of the state, the index drawn for the bound [n] being [rnd c mod n].
    - A [Map<string, V>] keyed by the string [q,r] is an insertion-ordered
      association list keyed by the pair [(q, r)]: the key string determines
      the pair and conversely.
    - Every handler runs atomically on the state it reads, and the effects
      of the render that follows run with it. The timeouts that [placeTile]
      sets stay in the state until they fire, each with what its closure
      holds; a timeout fires as an event of its own, the oldest of its kind
      first, at any point after the handler that set it: the delays of 200
      and 500 ms are not measured.
    - A session is the life of the mounted component, from its first start;
      the reset button of the parent, which begins another one, is not an
      event of a session. *)

From Stdlib Require Import ZArith List Lia Bool Permutation Sorted.
From stdpp Require Import base decidable list numbers.

Open Scope Z_scope.

(** ** Terrain kinds and tile counts *)

Module Terrain.
Inductive TerrainType : Type :=
  forest | field | mountain | pasture | hill | desert | water | gold.
End Terrain.
Export Terrain.

#[global] Instance TerrainType_eq_dec : EqDecision TerrainType.
Proof. solve_decision. Defined.

(** [TileCount] and [Record<TerrainType, number>] have the same eight fields;
    the module keeps the field names of the source apart from the
    constructors of [TerrainType]. *)
Module TileCount.
Record t : Type := mk {
  field : nat; forest : nat; pasture : nat; hill : nat;
  mountain : nat; desert : nat; water : nat; gold : nat }.

Definition get (c : t) (k : TerrainType) : nat :=
  match k with
  | Terrain.field => field c | Terrain.forest => forest c
  | Terrain.pasture => pasture c | Terrain.hill => hill c
  | Terrain.mountain => mountain c | Terrain.desert => desert c
  | Terrain.water => water c | Terrain.gold => gold c
  end.

Definition set (c : t) (k : TerrainType) (n : nat) : t :=
  match k with
  | Terrain.field => mk n (forest c) (pasture c) (hill c) (mountain c) (desert c) (water c) (gold c)
  | Terrain.forest => mk (field c) n (pasture c) (hill c) (mountain c) (desert c) (water c) (gold c)
  | Terrain.pasture => mk (field c) (forest c) n (hill c) (mountain c) (desert c) (water c) (gold c)
  | Terrain.hill => mk (field c) (forest c) (pasture c) n (mountain c) (desert c) (water c) (gold c)
  | Terrain.mountain => mk (field c) (forest c) (pasture c) (hill c) n (desert c) (water c) (gold c)
  | Terrain.desert => mk (field c) (forest c) (pasture c) (hill c) (mountain c) n (water c) (gold c)
  | Terrain.water => mk (field c) (forest c) (pasture c) (hill c) (mountain c) (desert c) n (gold c)
  | Terrain.gold => mk (field c) (forest c) (pasture c) (hill c) (mountain c) (desert c) (water c) n
  end.

Definition zero : t := mk 0 0 0 0 0 0 0 0.

Definition total (c : t) : nat :=
  (field c + forest c + pasture c + hill c + mountain c + desert c + water c + gold c)%nat.
End TileCount.


(** ** The source of randomness *)

(** [Math.floor(Math.random() * n)] for the draw [x]: an index below [n] when
    [n] is positive, and [0] when [n] is [0]. *)
Definition randomIndex (x n : nat) : nat :=
  if (n =? 0)%nat then 0%nat else (x mod n)%nat.

(** ** The tile queue ([useTileQueue]) *)

(** [[bag[i], bag[j]] = [bag[j], bag[i]]]: both reads happen before both
    writes. The shuffle only swaps indices inside the array. *)
Definition swap {A : Type} (bag : list A) (i j : nat) : list A :=
  match bag !! i, bag !! j with
  | Some a, Some b => <[j:=a]> (<[i:=b]> bag)
  | _, _ => bag
  end.

(** The eight [for] loops of [generateTileBag], before the shuffle. *)
Definition orderedBag (counts : TileCount.t) : list TerrainType :=
  repeat field (TileCount.field counts) ++
  repeat forest (TileCount.forest counts) ++
  repeat pasture (TileCount.pasture counts) ++
  repeat hill (TileCount.hill counts) ++
  repeat mountain (TileCount.mountain counts) ++
  repeat desert (TileCount.desert counts) ++
  repeat water (TileCount.water counts) ++
  repeat gold (TileCount.gold counts).

Record QueueState : Type := mkQueue {
  tileQueue : list TerrainType;
  currentTile : option TerrainType;
  nextTile : option TerrainType;
  remainingTiles : TileCount.t }.

(** The state of the hook before the game starts, and after [resetQueue]. *)
Definition resetQueue : QueueState :=
  mkQueue [] None None TileCount.zero.

Definition hasMoreTiles (s : QueueState) : bool :=
  (1 <? length (tileQueue s))%nat.

(** [getNextTile]: the returned tile and the state after the setters.
    [Math.max(0, prev[currentTile] - 1)] is the predecessor on [nat]. *)
Definition getNextTile (s : QueueState) : option TerrainType * QueueState :=
  if (length (tileQueue s) <=? 1)%nat then (None, s)
  else
    let newQueue := drop 1 (tileQueue s) in
    let newCurrent := tileQueue s !! 1%nat in
    let newNext := if (1 <? length newQueue)%nat then newQueue !! 1%nat else None in
    let remaining :=
      match currentTile s with
      | Some t => TileCount.set (remainingTiles s) t
                    (Nat.pred (TileCount.get (remainingTiles s) t))
      | None => remainingTiles s
      end in
    (newCurrent, mkQueue newQueue newCurrent newNext remaining).

(** [getUpcomingTiles]: [tileQueue.slice(2, 5)]. *)
Definition getUpcomingTiles (s : QueueState) : list TerrainType :=
  take 3 (drop 2 (tileQueue s)).

Section Randomised.

(** The draws of [Math.random], in the order of the calls. *)
Variable rnd : nat -> nat.

(** The shuffle loop of [generateTileBag], from index [i] down to 1, reading
    the stream at cursor [c]; returns the bag and the next cursor. *)
Fixpoint shuffleFrom (i : nat) (bag : list TerrainType) (c : nat)
  : list TerrainType * nat :=
  match i with
  | O => (bag, c)
  | S i' =>
      let j := randomIndex (rnd c) (i + 1) in
      shuffleFrom i' (swap bag i j) (S c)
  end.

Definition generateTileBag (counts : TileCount.t) (c : nat)
  : list TerrainType * nat :=
  let bag := orderedBag counts in
  shuffleFrom (length bag - 1) bag c.

(** The effect of [useTileQueue] that runs when [isPlaying] turns true;
    [prev] is the state of the hook before it: with an empty bag the
    current and the next tile are not set. *)
Definition initQueue (counts : TileCount.t) (prev : QueueState) (c : nat)
  : QueueState * nat :=
  let '(newBag, c') := generateTileBag counts c in
  (mkQueue newBag
     (if (0 <? length newBag)%nat then newBag !! 0%nat else currentTile prev)
     (if (0 <? length newBag)%nat
      then (if (1 <? length newBag)%nat then newBag !! 1%nat else None)
      else nextTile prev)
     counts, c').

End Randomised.

(** ** JavaScript [Map] keyed by a cell *)

(** The key string of a cell [(q, r)]. *)
Definition Cell : Type := (Z * Z)%type.

(** Entries in insertion order; [jset] on a present key replaces the value
    in place, on an absent key appends, as [Map.prototype.set] does. *)
Definition JMap (V : Type) : Type := list (Cell * V).

Fixpoint jget {V : Type} (m : JMap V) (k : Cell) : option V :=
  match m with
  | [] => None
  | (k', v) :: m' => if decide (k' = k) then Some v else jget m' k
  end.

Definition jhas {V : Type} (m : JMap V) (k : Cell) : bool :=
  match jget m k with Some _ => true | None => false end.

Fixpoint jset {V : Type} (m : JMap V) (k : Cell) (v : V) : JMap V :=
  match m with
  | [] => [(k, v)]
  | (k', v') :: m' =>
      if decide (k' = k) then (k, v) :: m' else (k', v') :: jset m' k v
  end.

Definition jsize {V : Type} (m : JMap V) : nat := length m.

Definition jkeys {V : Type} (m : JMap V) : list Cell := map fst m.

Definition jvalues {V : Type} (m : JMap V) : list V := map snd m.

(** ** Hexes and the board layout *)

Module Hex.
Record t : Type := mk {
  q : Z;
  r : Z;
  terrain : option TerrainType;
  isWater : bool }.
End Hex.

(** [{ q, r, terrain: undefined }]: a land cell of the layout. *)
Definition landHex (q r : Z) : Hex.t := Hex.mk q r None false.

(** [for (let x = lo; x <= hi; x++)]. *)
Definition forZ (lo hi : Z) : list Z := seqZ lo (hi - lo + 1).

(** The two nested loops shared by the branches for sizes 3, 4 and the
    fallback; [keep] is the test of the innermost [if]. *)
Definition hexagonLoop (n : Z) (keep : Z -> Z -> bool) : list Hex.t :=
  flat_map (fun q =>
    flat_map (fun r => if keep q r then [landHex q r] else [])
      (forZ (Z.max (- n) (- q - n)) (Z.min n (- q + n))))
    (forZ (- n) n).

Definition generateCatanBoard (size : Z) : list Hex.t :=
  if size =? 2 then
    [ landHex 0 0;
      landHex 1 0; landHex 1 (-1); landHex 0 (-1);
      landHex (-1) 0; landHex (-1) 1; landHex 0 1;
      landHex 2 0; landHex 2 (-1); landHex 2 (-2);
      landHex 1 (-2); landHex 0 (-2); landHex (-1) (-1);
      landHex (-2) 0; landHex (-2) 1; landHex (-2) 2;
      landHex (-1) 2; landHex 0 2; landHex 1 1 ]
  else if size =? 3 then
    hexagonLoop 3 (fun q r =>
      (Z.abs q <=? 3) && (Z.abs r <=? 3) && (Z.abs (- q - r) <=? 3))
  else if size =? 4 then
    hexagonLoop 4 (fun q r =>
      (Z.abs q <=? 4) && (Z.abs r <=? 4) && (Z.abs (- q - r) <=? 4))
  else
    hexagonLoop size (fun q r =>
      Z.max (Z.max (Z.abs q) (Z.abs r)) (Z.abs (- q - r)) <=? size).

Definition cellOf (h : Hex.t) : Cell := (Hex.q h, Hex.r h).

(** [hexes.filter(h => !h.isWater)]. *)
Definition landHexes (hexes : list Hex.t) : list Hex.t :=
  List.filter (fun h => negb (Hex.isWater h)) hexes.

Definition isValidPosition (hexes : list Hex.t) (q r : Z) : bool :=
  match List.find (fun h => (Hex.q h =? q) && (Hex.r h =? r)) hexes with
  | Some hex => negb (Hex.isWater hex)
  | None => false
  end.

(** [Math.min(...rows)]; [None] stands for the [Infinity] of an empty list. *)
Definition minOf (rows : list Z) : option Z :=
  match rows with
  | [] => None
  | x :: xs => Some (fold_left Z.min xs x)
  end.

Definition topRow (hexes : list Hex.t) : option Z :=
  minOf (map Hex.r (landHexes hexes)).

(** The iteration order of [new Set(xs)]: first occurrences, in order. *)
Fixpoint setOrder (seen xs : list Z) : list Z :=
  match xs with
  | [] => []
  | x :: xs' =>
      if bool_decide (x ∈ seen) then setOrder seen xs'
      else x :: setOrder (x :: seen) xs'
  end.

Definition getValidSpawnPositions (hexes : list Hex.t) : list Cell :=
  match topRow hexes with
  | None => []
  | Some top =>
      map (fun q => (q, top - 2))
        (setOrder [] (map Hex.q (landHexes hexes)))
  end.

(** [sort((a, b) => a.r - b.r)]: a stable sort by row, ascending. *)
Fixpoint insertByRow (h : Hex.t) (l : list Hex.t) : list Hex.t :=
  match l with
  | [] => [h]
  | x :: l' =>
      if Hex.r h <=? Hex.r x then h :: l else x :: insertByRow h l'
  end.

Definition sortByRow (l : list Hex.t) : list Hex.t :=
  fold_right insertByRow [] l.

Definition columnHexes (hexes : list Hex.t) (q : Z) : list Hex.t :=
  sortByRow (List.filter (fun h => Hex.q h =? q) (landHexes hexes)).

(** [board.has(key) && board.get(key)?.terrain]. *)
Definition occupied (board : JMap Hex.t) (k : Cell) : bool :=
  match jget board k with
  | Some hex => match Hex.terrain hex with Some _ => true | None => false end
  | None => false
  end.

(** The scan of [autoDropTile] and [hardDrop] (the same text in both): the
    row above the first occupied cell of the column, read from the top;
    [prev] is [columnHexes[i - 1]], absent when [i] is 0. *)
Fixpoint scanColumn (board : JMap Hex.t) (prev : option Hex.t)
  (column : list Hex.t) (targetR : Z) : Z :=
  match column with
  | [] => targetR
  | hex :: rest =>
      if occupied board (cellOf hex) then
        match prev with
        | None => Hex.r hex - 1
        | Some above => Hex.r above
        end
      else scanColumn board (Some hex) rest targetR
  end.

(** The target row of a drop in a non-empty column. *)
Definition targetRow (board : JMap Hex.t) (column : list Hex.t) : option Z :=
  match column !! (length column - 1)%nat with
  | None => None
  | Some bottom => Some (scanColumn board None column (Hex.r bottom))
  end.

(** ** Number assignment (the 500 ms timeout of [placeTile]) *)

Module NumberTile.
Record t : Type := mk { key : Cell; q : Z; r : Z }.
End NumberTile.

(** [newBoard.forEach]: the cells that take a number, in insertion order. *)
Definition numberTilesOf (newBoard : JMap Hex.t) : list NumberTile.t :=
  flat_map (fun entry : Cell * Hex.t =>
    let '(hexKey, hex) := entry in
    match Hex.terrain hex with
    | Some t =>
        if bool_decide (t ≠ desert) && bool_decide (t ≠ water)
        then [NumberTile.mk hexKey (Hex.q hex) (Hex.r hex)]
        else []
    | None => []
    end) newBoard.

Definition classicNumbers : list Z :=
  [2; 3; 3; 4; 4; 5; 5; 6; 6; 8; 8; 9; 9; 10; 10; 11; 11; 12].

Definition baseNumbers : list Z :=
  [2; 3; 3; 4; 4; 4; 5; 5; 5; 6; 6; 8; 8; 9; 9; 9; 10; 10; 10; 11; 11; 11; 12].

Definition additionalNumbers : list Z := [3; 4; 5; 6; 8; 9; 10; 11].

Definition fallbackNumbers : list Z := [3; 4; 5; 9; 10; 11].

(** The [for ... of additionalNumbers] loop: push while still short. *)
Definition pushWhileShort (numbersNeeded : nat) (dist nums : list Z) : list Z :=
  fold_left (fun d num =>
    if (length d <? numbersNeeded)%nat then d ++ [num] else d) nums dist.

(** The [while] loop, with one unit of fuel for each round. *)
Fixpoint extendDistribution (fuel numbersNeeded : nat) (dist : list Z) : list Z :=
  match fuel with
  | O => dist
  | S fuel' =>
      if (length dist <? numbersNeeded)%nat
      then extendDistribution fuel' numbersNeeded
             (pushWhileShort numbersNeeded dist additionalNumbers)
      else dist
  end.

(** The distribution after [slice(0, numbersNeeded)]; every round of the
    [while] loop adds a number, so [numbersNeeded] rounds are enough. *)
Definition numberDistributionFor (mapSize : Z) (numbersNeeded : nat) : list Z :=
  take numbersNeeded
    (if mapSize =? 2 then classicNumbers
     else extendDistribution numbersNeeded numbersNeeded baseNumbers).

Definition getAdjacentHexes (q r : Z) : list Cell :=
  [ (q + 1, r); (q - 1, r); (q, r + 1); (q, r - 1);
    (q + 1, r - 1); (q - 1, r + 1) ].

Definition isHot (n : Z) : bool := (n =? 6) || (n =? 8).

Definition isValidPlacement (numberTiles : list NumberTile.t)
  (tileKey : Cell) (number : Z) (placedNumbers : JMap Z) : bool :=
  if negb (isHot number) then true
  else
    match List.find (fun t => bool_decide (NumberTile.key t = tileKey)) numberTiles with
    | None => false
    | Some tile =>
        forallb (fun adj =>
          match jget placedNumbers adj with
          | Some adjNumber => negb (isHot adjNumber)
          | None => true
          end) (getAdjacentHexes (NumberTile.q tile) (NumberTile.r tile))
    end.

(** How many times [num] occurs in [l]: [l.filter(n => n === num).length]. *)
Definition countOf (num : Z) (l : list Z) : nat :=
  length (List.filter (fun n => n =? num) l).

Section Assign.

Variable rnd : nat -> nat.

(** [[...otherNumbers].sort(() => Math.random() - 0.5)]: the order that a sort
    with a random comparator leaves is the engine's own; the array it
    returns and the cursor after it are taken from [sortRandom]. *)
Variable sortRandom : nat -> list Z -> list Z * nat.

(** The state of the placement loops: the map of placed numbers, the tiles
    still available and the cursor. *)
Definition Placing : Type := (JMap Z * list NumberTile.t * nat)%type.

(** The random trials for one hot number, [attempts] of them left. [None]
    is the [TypeError] of reading [tile.key] on an absent tile. *)
Fixpoint tryPlace (numberTiles : list NumberTile.t) (attempts : nat)
  (number : Z) (p : Placing) : option (bool * Placing) :=
  match attempts with
  | O => Some (false, p)
  | S attempts' =>
      let '(newNumbers, availableTiles, c) := p in
      let idx := randomIndex (rnd c) (length availableTiles) in
      match availableTiles !! idx with
      | None => None
      | Some tile =>
          if isValidPlacement numberTiles (NumberTile.key tile) number newNumbers
          then Some (true, (jset newNumbers (NumberTile.key tile) number,
                            delete idx availableTiles, S c))
          else tryPlace numberTiles attempts' number (newNumbers, availableTiles, S c)
      end
  end.

(** One round of the loop over [highProbNumbers]. *)
Definition placeHot (numberTiles : list NumberTile.t) (number : Z)
  (p : Placing) : option Placing :=
  match tryPlace numberTiles 100 number p with
  | None => None
  | Some (placed, (newNumbers, availableTiles, c)) =>
      if negb placed && (0 <? length availableTiles)%nat then
        match availableTiles with
        | tile :: rest => Some (jset newNumbers (NumberTile.key tile) number, rest, c)
        | [] => Some (newNumbers, availableTiles, c)
        end
      else Some (newNumbers, availableTiles, c)
  end.

Fixpoint placeHots (numberTiles : list NumberTile.t) (numbers : list Z)
  (p : Placing) : option Placing :=
  match numbers with
  | [] => Some p
  | number :: rest =>
      match placeHot numberTiles number p with
      | None => None
      | Some p' => placeHots numberTiles rest p'
      end
  end.

(** The loop over [i < availableTiles.length && i < shuffledOthers.length]. *)
Fixpoint placeOthers (availableTiles : list NumberTile.t)
  (shuffledOthers : list Z) (newNumbers : JMap Z) : JMap Z :=
  match availableTiles, shuffledOthers with
  | tile :: tiles, number :: numbers =>
      placeOthers tiles numbers (jset newNumbers (NumberTile.key tile) number)
  | _, _ => newNumbers
  end.

(** The body of the safety pass for one tile. *)
Definition safetyStep (numberDistribution : list Z)
  (acc : JMap Z * nat) (tile : NumberTile.t) : JMap Z * nat :=
  let '(newNumbers, c) := acc in
  if jhas newNumbers (NumberTile.key tile) then acc
  else
    let usedNumbers := jvalues newNumbers in
    let remainingNumbers :=
      List.filter (fun num =>
        (countOf num usedNumbers <? countOf num numberDistribution)%nat)
        numberDistribution in
    if (0 <? length remainingNumbers)%nat then
      match remainingNumbers !! randomIndex (rnd c) (length remainingNumbers) with
      | Some randomNumber => (jset newNumbers (NumberTile.key tile) randomNumber, S c)
      | None => (newNumbers, S c)
      end
    else
      match fallbackNumbers !! randomIndex (rnd c) (length fallbackNumbers) with
      | Some randomFallback => (jset newNumbers (NumberTile.key tile) randomFallback, S c)
      | None => (newNumbers, S c)
      end.

(** The whole assignment on [newBoard]: the map given to [setBoardNumbers]
    and the cursor after it, or [None] when the callback throws. *)
Definition assignNumbers (mapSize : Z) (newBoard : JMap Hex.t) (c : nat)
  : option (JMap Z * nat) :=
  let numberTiles := numberTilesOf newBoard in
  let numbersNeeded := length numberTiles in
  let numberDistribution := numberDistributionFor mapSize numbersNeeded in
  let highProbNumbers := List.filter isHot numberDistribution in
  let otherNumbers := List.filter (fun n => negb (isHot n)) numberDistribution in
  match placeHots numberTiles highProbNumbers ([], numberTiles, c) with
  | None => None
  | Some (newNumbers, availableTiles, c1) =>
      let '(shuffledOthers, c2) := sortRandom c1 otherNumbers in
      let newNumbers' := placeOthers availableTiles shuffledOthers newNumbers in
      Some (fold_left (safetyStep numberDistribution) numberTiles (newNumbers', c2))
  end.

End Assign.

(** ** The game board component *)

(** The state of [GameBoard] and of its [useTileQueue], the props
    [isPlaying] and [tileCount] that the parent passes, the cursor of the
    random stream, and the timeouts of [placeTile] that have not fired
    yet, oldest first: a pending [setTimeout(spawnNewTile, 200)] is the
    [isPlaying] and the [hasMoreTiles] that its closure holds, a pending
    500 ms timeout is the [newBoard] that its closure holds. *)
Record GameState : Type := mkGame {
  board : JMap Hex.t;
  tilePosition : Cell;
  tileRotation : Z;
  dropSpeed : Z;
  showFinalBoard : bool;
  boardNumbers : JMap Z;
  queue : QueueState;
  isPlaying : bool;
  cursor : nat;
  tileCount : TileCount.t;
  spawnTimeouts : list (bool * bool);
  finalTimeouts : list (JMap Hex.t) }.

Definition setBoard (b : JMap Hex.t) (st : GameState) : GameState :=
  mkGame b (tilePosition st) (tileRotation st) (dropSpeed st)
    (showFinalBoard st) (boardNumbers st) (queue st) (isPlaying st) (cursor st)
    (tileCount st) (spawnTimeouts st) (finalTimeouts st).

Definition setTilePosition (p : Cell) (st : GameState) : GameState :=
  mkGame (board st) p (tileRotation st) (dropSpeed st)
    (showFinalBoard st) (boardNumbers st) (queue st) (isPlaying st) (cursor st)
    (tileCount st) (spawnTimeouts st) (finalTimeouts st).

Definition setTileRotation (a : Z) (st : GameState) : GameState :=
  mkGame (board st) (tilePosition st) a (dropSpeed st)
    (showFinalBoard st) (boardNumbers st) (queue st) (isPlaying st) (cursor st)
    (tileCount st) (spawnTimeouts st) (finalTimeouts st).

Definition setDropSpeed (s : Z) (st : GameState) : GameState :=
  mkGame (board st) (tilePosition st) (tileRotation st) s
    (showFinalBoard st) (boardNumbers st) (queue st) (isPlaying st) (cursor st)
    (tileCount st) (spawnTimeouts st) (finalTimeouts st).

Definition setShowFinalBoard (b : bool) (st : GameState) : GameState :=
  mkGame (board st) (tilePosition st) (tileRotation st) (dropSpeed st)
    b (boardNumbers st) (queue st) (isPlaying st) (cursor st)
    (tileCount st) (spawnTimeouts st) (finalTimeouts st).

Definition setBoardNumbers (n : JMap Z) (st : GameState) : GameState :=
  mkGame (board st) (tilePosition st) (tileRotation st) (dropSpeed st)
    (showFinalBoard st) n (queue st) (isPlaying st) (cursor st)
    (tileCount st) (spawnTimeouts st) (finalTimeouts st).

Definition setQueue (s : QueueState) (st : GameState) : GameState :=
  mkGame (board st) (tilePosition st) (tileRotation st) (dropSpeed st)
    (showFinalBoard st) (boardNumbers st) s (isPlaying st) (cursor st)
    (tileCount st) (spawnTimeouts st) (finalTimeouts st).

Definition setIsPlaying (b : bool) (st : GameState) : GameState :=
  mkGame (board st) (tilePosition st) (tileRotation st) (dropSpeed st)
    (showFinalBoard st) (boardNumbers st) (queue st) b (cursor st)
    (tileCount st) (spawnTimeouts st) (finalTimeouts st).

Definition setCursor (c : nat) (st : GameState) : GameState :=
  mkGame (board st) (tilePosition st) (tileRotation st) (dropSpeed st)
    (showFinalBoard st) (boardNumbers st) (queue st) (isPlaying st) c
    (tileCount st) (spawnTimeouts st) (finalTimeouts st).

Definition setSpawnTimeouts (l : list (bool * bool)) (st : GameState)
  : GameState :=
  mkGame (board st) (tilePosition st) (tileRotation st) (dropSpeed st)
    (showFinalBoard st) (boardNumbers st) (queue st) (isPlaying st) (cursor st)
    (tileCount st) l (finalTimeouts st).

Definition setFinalTimeouts (l : list (JMap Hex.t)) (st : GameState)
  : GameState :=
  mkGame (board st) (tilePosition st) (tileRotation st) (dropSpeed st)
    (showFinalBoard st) (boardNumbers st) (queue st) (isPlaying st) (cursor st)
    (tileCount st) (spawnTimeouts st) l.

Inductive KeyName : Type :=
  ArrowLeft | ArrowRight | ArrowDown | Space | ArrowUp | OtherKey.

(** What can happen to the mounted component: a key, a tick of the drop
    timer or of the speed timer, a click on a cell, the oldest pending
    timeout of either kind firing, the View Board button, and the parent
    turning the prop [isPlaying] off (pause) or on (start, resume). *)
Inductive Event : Type :=
  | KeyDown (key : KeyName)
  | KeyUp (key : KeyName)
  | DropTimer
  | SpeedTimer
  | BoardClick (q r : Z)
  | SpawnTimeout
  | FinalTimeout
  | ViewBoard
  | Pause
  | Play.

Section Game.

Variable rnd : nat -> nat.
Variable sortRandom : nat -> list Z -> list Z * nat.

(** The prop [mapSize], fixed while the component is mounted; [hexes] is
    [generateCatanBoard(mapSize)] in the component. Every handler is a
    closure of the component and takes the whole of this environment. *)
Variable mapSize : Z.
Variable hexes : list Hex.t.

(** [spawnNewTile] as the closure of some render: [playing] and [more] are
    the [isPlaying] and the [hasMoreTiles] that it holds. *)
Definition spawnClosure (playing more : bool) (st : GameState) : GameState :=
  if negb playing || negb more then st
  else
    let validSpawnPositions := getValidSpawnPositions hexes in
    if (0 <? length validSpawnPositions)%nat then
      match validSpawnPositions !!
              randomIndex (rnd (cursor st)) (length validSpawnPositions) with
      | Some randomPos =>
          setCursor (S (cursor st))
            (setTileRotation 0 (setTilePosition randomPos st))
      | None => setCursor (S (cursor st)) st
      end
    else st.

(** [spawnNewTile] called in the render of [st]; [more] is the
    [hasMoreTiles] that the closure holds. *)
Definition spawnNewTile (more : bool) (st : GameState) : GameState :=
  spawnClosure (isPlaying st) more st.

(** The callback of the 500 ms timeout of [placeTile], on the board of its
    closure: the numbers, the final board, and [onGameEnd], with which the
    parent turns [isPlaying] off. When the assignment throws no setter is
    reached. *)
Definition finishBoard (newBoard : JMap Hex.t) (st : GameState) : GameState :=
  match assignNumbers rnd sortRandom mapSize newBoard (cursor st) with
  | Some (newNumbers, c) =>
      setIsPlaying false
        (setCursor c (setShowFinalBoard true (setBoardNumbers newNumbers st)))
  | None => st
  end.

(** [placeTile]. With a tile drawn, the timeout for [spawnNewTile] is set
    with the closure of this render, and in the next render the effect on
    [isPlaying, currentTile] runs if the current tile has changed, with the
    new [hasMoreTiles]. With no tile drawn the timeout for the final board
    is set, holding [newBoard]. *)
#[using="rnd sortRandom mapSize hexes"] Definition placeTile (q r : Z) (st : GameState) : GameState :=
  match currentTile (queue st) with
  | None => st
  | Some tile =>
      if negb (isValidPosition hexes q r) then st
      else if occupied (board st) (q, r) then
        spawnNewTile (hasMoreTiles (queue st)) st
      else
        let newBoard := jset (board st) (q, r) (Hex.mk q r (Some tile) false) in
        let '(nextTileFromQueue, queue') := getNextTile (queue st) in
        let st1 := setQueue queue' (setBoard newBoard st) in
        match nextTileFromQueue with
        | Some _ =>
            let st2 :=
              setSpawnTimeouts
                (spawnTimeouts st ++ [(isPlaying st, hasMoreTiles (queue st))])
                st1 in
            if bool_decide (currentTile queue' = currentTile (queue st))
            then st2
            else spawnNewTile (hasMoreTiles queue') st2
        | None => setFinalTimeouts (finalTimeouts st ++ [newBoard]) st1
        end
  end.

Definition hasTile (st : GameState) : bool :=
  match currentTile (queue st) with Some _ => true | None => false end.

(** [autoDropTile]. *)
Definition autoDropTile (st : GameState) : GameState :=
  if negb (hasTile st) || negb (isPlaying st) || showFinalBoard st then st
  else
    let prev := tilePosition st in
    let newR := snd prev + 1 in
    match targetRow (board st) (columnHexes hexes (fst prev)) with
    | None => st
    | Some targetR =>
        if newR >=? targetR then placeTile (fst prev) targetR st
        else setTilePosition (fst prev, newR) st
    end.

(** [hardDrop]. *)
Definition hardDrop (st : GameState) : GameState :=
  if negb (hasTile st) || negb (isPlaying st) then st
  else
    match targetRow (board st) (columnHexes hexes (fst (tilePosition st))) with
    | None => st
    | Some targetR => placeTile (fst (tilePosition st)) targetR st
    end.

(** [handleBoardClick]. *)
Definition handleBoardClick (q r : Z) (st : GameState) : GameState :=
  if negb (hasTile st) || negb (isPlaying st) || showFinalBoard st then st
  else if negb (isValidPosition hexes q r) then st
  else if occupied (board st) (q, r) then
    spawnNewTile (hasMoreTiles (queue st)) st
  else setTilePosition (q, r) st.

(** The test of the two arrow cases of [handleKeyDown], for the destination
    column [newQ]; [prev.r < topRow] holds when [topRow] is [Infinity]. *)
Definition canMoveTo (st : GameState) (newQ : Z) : bool :=
  let prev := tilePosition st in
  let aboveBoard :=
    match topRow hexes with
    | None => true
    | Some top => snd prev <? top
    end in
  if aboveBoard then
    existsb (fun h => Hex.q h =? newQ) (landHexes hexes)
  else
    isValidPosition hexes newQ (snd prev) && negb (occupied (board st) (newQ, snd prev)).

Definition moveTile (newQ : Z) (st : GameState) : GameState :=
  if canMoveTo st newQ then setTilePosition (newQ, snd (tilePosition st)) st
  else st.

(** [handleKeyDown]. *)
Definition handleKeyDown (key : KeyName) (st : GameState) : GameState :=
  if negb (hasTile st) || negb (isPlaying st) || showFinalBoard st then st
  else
    match key with
    | ArrowLeft => moveTile (fst (tilePosition st) - 1) st
    | ArrowRight => moveTile (fst (tilePosition st) + 1) st
    | ArrowDown => setDropSpeed 100 st
    | Space => hardDrop st
    | ArrowUp => setTileRotation ((tileRotation st + 60) mod 360) st
    | OtherKey => st
    end.

(** [handleKeyUp]. *)
Definition handleKeyUp (key : KeyName) (st : GameState) : GameState :=
  match key with
  | ArrowDown => setDropSpeed 1000 st
  | _ => st
  end.

(** The callback of [speedUpInterval], every 20000 ms while playing. *)
Definition speedUp (st : GameState) : GameState :=
  if negb (isPlaying st) then st
  else setDropSpeed (Z.max 300 (dropSpeed st - 20)) st.

(** The oldest pending [setTimeout(spawnNewTile, 200)] fires. *)
Definition fireSpawnTimeout (st : GameState) : GameState :=
  match spawnTimeouts st with
  | [] => st
  | (playing, more) :: rest =>
      spawnClosure playing more (setSpawnTimeouts rest st)
  end.

(** The oldest pending timeout for the final board fires. *)
Definition fireFinalTimeout (st : GameState) : GameState :=
  match finalTimeouts st with
  | [] => st
  | newBoard :: rest => finishBoard newBoard (setFinalTimeouts rest st)
  end.

(** The View Board button, which is there while the final board is
    shown. *)
Definition viewBoard (st : GameState) : GameState :=
  if showFinalBoard st then setShowFinalBoard false st else st.

(** The parent turns [isPlaying] off. *)
Definition pause (st : GameState) : GameState :=
  if isPlaying st then setIsPlaying false st else st.

(** The parent turns [isPlaying] on. In that render the effect of
    [useTileQueue] fills the queue, and the effect on
    [isPlaying, currentTile] spawns with the closure of that render, which
    holds the queue as it was; in the next render the same effect runs
    again if the current tile has changed. *)
Definition resume (st : GameState) : GameState :=
  if isPlaying st then st
  else
    let '(queue', c') := initQueue rnd (tileCount st) (queue st) (cursor st) in
    let stA := setCursor c' (setIsPlaying true st) in
    let stA' :=
      if hasTile stA then spawnNewTile (hasMoreTiles (queue st)) stA else stA in
    let stB := setQueue queue' stA' in
    if bool_decide (currentTile queue' = currentTile (queue st)) then stB
    else if hasTile stB then spawnNewTile (hasMoreTiles queue') stB else stB.

(** One event. *)
Definition step (e : Event) (st : GameState) : GameState :=
  match e with
  | KeyDown key => handleKeyDown key st
  | KeyUp key => handleKeyUp key st
  | DropTimer => autoDropTile st
  | SpeedTimer => speedUp st
  | BoardClick q r => handleBoardClick q r st
  | SpawnTimeout => fireSpawnTimeout st
  | FinalTimeout => fireFinalTimeout st
  | ViewBoard => viewBoard st
  | Pause => pause st
  | Play => resume st
  end.

Definition run (events : list Event) (st : GameState) : GameState :=
  fold_left (fun s e => step e s) events st.

(** The component when it is mounted: not playing, no timeout pending. *)
Definition mountState (tileCount : TileCount.t) (c : nat) : GameState :=
  mkGame [] (0, 0) 0 1000 false [] resetQueue false c tileCount [] [].

(** Start of a game: the parent turns [isPlaying] on for the first time. *)
Definition startGame (tileCount : TileCount.t) (c : nat) : GameState :=
  resume (mountState tileCount c).

End Game.

(** ** Predicates used by the statements *)

(** The guard at the head of [handleKeyDown], [autoDropTile] and
    [handleBoardClick]. *)
Definition active (st : GameState) : bool :=
  hasTile st && isPlaying st && negb (showFinalBoard st).

(** [h] is a land cell of the layout. *)
Definition isLand (hexes : list Hex.t) (h : Hex.t) : Prop :=
  In h hexes /\ Hex.isWater h = false.

(** The falling tile is above the top row of the board: above every land
    cell. *)
Definition aboveBoard (hexes : list Hex.t) (st : GameState) : Prop :=
  forall h, isLand hexes h -> snd (tilePosition st) < Hex.r h.

(** When a move to the column [newQ] is allowed. *)
Definition moveAllowed (hexes : list Hex.t) (st : GameState) (newQ : Z) : Prop :=
  (aboveBoard hexes st /\ exists h, isLand hexes h /\ Hex.q h = newQ) \/
  (~ aboveBoard hexes st /\
   isValidPosition hexes newQ (snd (tilePosition st)) = true /\
   occupied (board st) (newQ, snd (tilePosition st)) = false).

Definition arrowKey (left : bool) : KeyName :=
  if left then ArrowLeft else ArrowRight.

Definition arrowColumn (left : bool) (st : GameState) : Z :=
  if left then fst (tilePosition st) - 1 else fst (tilePosition st) + 1.

(** The layout has a land cell at [(q, r)]. *)
Definition landCell (hexes : list Hex.t) (q r : Z) : Prop :=
  exists h, isLand hexes h /\ cellOf h = (q, r).

(** Every column of the board is a stack: tiles lie on land cells only, and
    below a tile (on a greater row of the same column) every land cell
    holds a tile. *)
Definition stacked (hexes : list Hex.t) (b : JMap Hex.t) : Prop :=
  (forall q r, occupied b (q, r) = true -> landCell hexes q r) /\
  (forall q r r', landCell hexes q r -> landCell hexes q r' -> r < r' ->
     occupied b (q, r) = true -> occupied b (q, r') = true).

(** Rows in ascending order. *)
Definition rowLe (a b : Hex.t) : Prop := Hex.r a <= Hex.r b.

(** Draws that are all 0, a random sort that keeps the order, and the tile
    count of the base game, for the examples. *)
Definition zeroDraws : nat -> nat := fun _ => 0%nat.

Definition keepOrder : nat -> list Z -> list Z * nat := fun c l => (l, c).

Definition baseGameCount : TileCount.t := TileCount.mk 4 4 4 3 3 1 0 0.

(** The base game on the size 2 board, with draws that are all 0. *)
Definition baseGame : GameState :=
  startGame zeroDraws (generateCatanBoard 2) baseGameCount 0.

Definition baseRun (events : list Event) (st : GameState) : GameState :=
  run zeroDraws keepOrder 2 (generateCatanBoard 2) events st.

(** The state without the rotation angle. *)
Definition eraseRotation (st : GameState) : GameState := setTileRotation 0 st.

Definition isRotate (e : Event) : bool :=
  match e with KeyDown ArrowUp => true | _ => false end.

(** The events without the rotate commands. *)
Definition dropRotations (events : list Event) : list Event :=
  List.filter (fun e => negb (isRotate e)) events.

(** A cell takes a number when the board holds a tile there whose terrain
    is neither desert nor water. *)
Definition eligible (b : JMap Hex.t) (k : Cell) : Prop :=
  exists hex t,
    jget b k = Some hex /\ Hex.terrain hex = Some t /\ t <> desert /\ t <> water.

Definition keysOf (tiles : list NumberTile.t) : list Cell :=
  map NumberTile.key tiles.

(** Tiles in the queue plus tiles on the board. *)
Definition tilesInPlay (st : GameState) : nat :=
  (length (tileQueue (queue st)) + jsize (board st))%nat.

(** A bag of one tile. *)
Definition oneTileCount : TileCount.t := TileCount.mk 1 0 0 0 0 0 0 0.

(** [f] gives states equal up to rotation on states equal up to rotation. *)
Definition blind (f : GameState -> GameState) : Prop :=
  forall s1 s2, eraseRotation s1 = eraseRotation s2 ->
    eraseRotation (f s1) = eraseRotation (f s2).

(** The map of placed numbers has one entry for a key, and only keys of
    [tiles]. *)
Definition wellKeyed (tiles : list NumberTile.t) (nums : JMap Z) : Prop :=
  List.NoDup (jkeys nums) /\ forall k, In k (jkeys nums) -> In k (keysOf tiles).

(** A state of the placement loops whose map is well keyed and whose
    available tiles are among [tiles]. *)
Definition good (tiles : list NumberTile.t) (p : Placing) : Prop :=
  wellKeyed tiles (fst (fst p)) /\ incl (snd (fst p)) tiles.

(** ** The state changes of the handlers, one at a time *)

(** The board with [tile] written at [(q, r)], as [placeTile] builds it. *)
Definition boardWith (st : GameState) (q r : Z) (tile : TerrainType) : JMap Hex.t :=
  jset (board st) (q, r) (Hex.mk q r (Some tile) false).

(** The state after the effect of [useTileQueue] has filled the queue: the
    prop [isPlaying] is on, the draws of the shuffle are taken. *)
Definition refilled (rnd : nat -> nat) (st : GameState) : GameState :=
  setQueue (fst (initQueue rnd (tileCount st) (queue st) (cursor st)))
    (setCursor (snd (initQueue rnd (tileCount st) (queue st) (cursor st)))
       (setIsPlaying true st)).

Section MicroSteps.

Variable rnd : nat -> nat.
Variable sortRandom : nat -> list Z -> list Z * nat.
Variable mapSize : Z.
Variable hexes : list Hex.t.

(** Every event but [Play] is a sequence of the following changes: a
    spawn, a move to an adjacent column, a fall by one row, a jump to a
    clicked cell, a turn, a change of the drop interval, the commit of the
    current tile with a draw from the queue, which sets a timeout for a
    spawn, the commit of the last tile, which sets a timeout for the final
    board, a timeout for a spawn leaving the list, a timeout for the final
    board firing (or throwing), the View Board button and a pause. *)
Inductive micro : GameState -> GameState -> Prop :=
  | micro_spawn st p :
      In p (getValidSpawnPositions hexes) ->
      micro st (setCursor (S (cursor st))
                  (setTileRotation 0 (setTilePosition p st)))
  | micro_move st newQ :
      active st = true ->
      canMoveTo hexes st newQ = true ->
      micro st (setTilePosition (newQ, snd (tilePosition st)) st)
  | micro_fall st targetR :
      active st = true ->
      targetRow (board st) (columnHexes hexes (fst (tilePosition st))) = Some targetR ->
      snd (tilePosition st) + 1 < targetR ->
      micro st (setTilePosition (fst (tilePosition st), snd (tilePosition st) + 1) st)
  | micro_click st q r :
      active st = true ->
      isValidPosition hexes q r = true ->
      occupied (board st) (q, r) = false ->
      micro st (setTilePosition (q, r) st)
  | micro_turn st :
      active st = true ->
      micro st (setTileRotation ((tileRotation st + 60) mod 360) st)
  | micro_softDrop st :
      active st = true ->
      micro st (setDropSpeed 100 st)
  | micro_release st :
      micro st (setDropSpeed 1000 st)
  | micro_ramp st :
      isPlaying st = true ->
      micro st (setDropSpeed (Z.max 300 (dropSpeed st - 20)) st)
  | micro_commit st tile targetR :
      isPlaying st = true ->
      showFinalBoard st = false ->
      currentTile (queue st) = Some tile ->
      targetRow (board st) (columnHexes hexes (fst (tilePosition st))) = Some targetR ->
      isValidPosition hexes (fst (tilePosition st)) targetR = true ->
      occupied (board st) (fst (tilePosition st), targetR) = false ->
      hasMoreTiles (queue st) = true ->
      micro st
        (setSpawnTimeouts
           (spawnTimeouts st ++ [(isPlaying st, hasMoreTiles (queue st))])
           (setQueue (snd (getNextTile (queue st)))
              (setBoard (boardWith st (fst (tilePosition st)) targetR tile) st)))
  | micro_lastCommit st tile targetR :
      isPlaying st = true ->
      showFinalBoard st = false ->
      currentTile (queue st) = Some tile ->
      targetRow (board st) (columnHexes hexes (fst (tilePosition st))) = Some targetR ->
      isValidPosition hexes (fst (tilePosition st)) targetR = true ->
      occupied (board st) (fst (tilePosition st), targetR) = false ->
      hasMoreTiles (queue st) = false ->
      micro st
        (setFinalTimeouts
           (finalTimeouts st ++ [boardWith st (fst (tilePosition st)) targetR tile])
           (setBoard (boardWith st (fst (tilePosition st)) targetR tile) st))
  | micro_spawnTimeout st x rest :
      spawnTimeouts st = x :: rest ->
      micro st (setSpawnTimeouts rest st)
  | micro_finalTimeout st newBoard rest newNumbers c :
      finalTimeouts st = newBoard :: rest ->
      assignNumbers rnd sortRandom mapSize newBoard (cursor st)
        = Some (newNumbers, c) ->
      micro st
        (setIsPlaying false
           (setCursor c (setShowFinalBoard true (setBoardNumbers newNumbers
              (setFinalTimeouts rest st)))))
  | micro_finalThrows st newBoard rest :
      finalTimeouts st = newBoard :: rest ->
      assignNumbers rnd sortRandom mapSize newBoard (cursor st) = None ->
      micro st (setFinalTimeouts rest st)
  | micro_view st :
      showFinalBoard st = true ->
      micro st (setShowFinalBoard false st)
  | micro_pause st :
      isPlaying st = true ->
      micro st (setIsPlaying false st).

(** The changes of all events: those of [micro], and the queue filled
    again when [isPlaying] turns on. *)
Inductive change : GameState -> GameState -> Prop :=
  | change_micro st st' : micro st st' -> change st st'
  | change_refill st :
      isPlaying st = false -> change st (refilled rnd st).

End MicroSteps.

(** The states a sequence of changes of [R] leads to. *)
Inductive reaches (R : GameState -> GameState -> Prop)
  : GameState -> GameState -> Prop :=
  | reaches_refl st : reaches R st st
  | reaches_step st1 st2 st3 :
      reaches R st1 st2 -> R st2 st3 -> reaches R st1 st3.

(** ** Predicates of the session invariants *)

(** The terrains on the board, in the order of placement. *)
Definition boardTerrains (b : JMap Hex.t) : list TerrainType :=
  flat_map (fun e : Cell * Hex.t =>
    match Hex.terrain (snd e) with Some t => [t] | None => [] end) b.

(** A board entry as [placeTile] writes it: under the key of its own
    coordinates, with a terrain, not water, on a land cell of the layout. *)
Definition entryOk (hexes : list Hex.t) (e : Cell * Hex.t) : Prop :=
  fst e = cellOf (snd e) /\
  Hex.terrain (snd e) <> None /\
  Hex.isWater (snd e) = false /\
  isValidPosition hexes (fst (fst e)) (snd (fst e)) = true.

Definition boardWf (hexes : list Hex.t) (b : JMap Hex.t) : Prop :=
  List.NoDup (jkeys b) /\ List.Forall (entryOk hexes) b.

(** The queue in step with itself: current and next tile are the first two
    of the queue, the remaining counts count the queue, and the queue is
    no longer than the bag. *)
Definition queueInStep (st : GameState) : Prop :=
  currentTile (queue st) = tileQueue (queue st) !! 0%nat /\
  nextTile (queue st) = tileQueue (queue st) !! 1%nat /\
  (forall t, TileCount.get (remainingTiles (queue st)) t =
             count_occ TerrainType_eq_dec (tileQueue (queue st)) t) /\
  (length (tileQueue (queue st)) <= TileCount.total (tileCount st))%nat.

(** The board [b] is the board of [st] as it was at some commit: the
    first entries of it, and at least as many as the bag has tiles. *)
Definition boardOfLastCommit (st : GameState) (b : JMap Hex.t) : Prop :=
  (exists rest, board st = b ++ rest) /\
  (TileCount.total (tileCount st) <= jsize b)%nat.

(** The number tokens of the game. *)
Definition isToken (n : Z) : bool :=
  existsb (fun t => n =? t) [2; 3; 4; 5; 6; 8; 9; 10; 11; 12].

(** No number is assigned and the final board is not shown, or the numbers
    are those the assignment gave on the board of a commit of the last
    tile. *)
Definition numbersInStep (rnd : nat -> nat)
  (sortRandom : nat -> list Z -> list Z * nat) (mapSize : Z)
  (st : GameState) : Prop :=
  (boardNumbers st = [] /\ showFinalBoard st = false) \/
  (exists b c0 c1,
     boardOfLastCommit st b /\
     assignNumbers rnd sortRandom mapSize b c0 = Some (boardNumbers st, c1)).

(** The column [q] has a land cell. *)
Definition landColumn (hexes : list Hex.t) (q : Z) : Prop :=
  exists h, isLand hexes h /\ Hex.q h = q.

(** The distance of the cell [(q, r)] from the centre, in cells. *)
Definition hexDistance (q r : Z) : Z :=
  Z.max (Z.max (Z.abs q) (Z.abs r)) (Z.abs (- q - r)).

(** The state when [isPlaying] has turned on for the first time and the
    queue is filled, before the effect that spawns the first tile. *)
Definition freshGame (rnd : nat -> nat) (tileCount : TileCount.t) (c : nat)
  : GameState :=
  refilled rnd (mountState tileCount c).

(** What holds of board, queue, timeouts and numbers all along a
    session. *)
Definition sessionWf (rnd : nat -> nat)
  (sortRandom : nat -> list Z -> list Z * nat) (mapSize : Z)
  (hexes : list Hex.t) (st : GameState) : Prop :=
  boardWf hexes (board st) /\
  queueInStep st /\
  (TileCount.total (tileCount st)
     <= jsize (board st) + length (tileQueue (queue st)))%nat /\
  List.Forall (boardOfLastCommit st) (finalTimeouts st) /\
  numbersInStep rnd sortRandom mapSize st.

(** As many copies of the last tile of [bag] as the last tile was
    committed. *)
Definition lastCopies (bag : list TerrainType) (k : nat) : list TerrainType :=
  match list.last bag with
  | Some t => repeat t k
  | None => []
  end.

(** The tiles leave the bag in order: board and queue together are the
    bag, followed by a copy of its last tile for each commit of it. *)
Definition bagInOrder (bag : list TerrainType) (st : GameState) : Prop :=
  exists k,
    boardTerrains (board st) ++ tileQueue (queue st) = bag ++ lastCopies bag k /\
    ((1 < length (tileQueue (queue st)))%nat -> k = 0%nat).

(** The events of the player and of the two interval timers. *)
Definition isInput (e : Event) : bool :=
  match e with
  | KeyDown _ | KeyUp _ | DropTimer | SpeedTimer | BoardClick _ _ => true
  | _ => false
  end.

Definition isPlay (e : Event) : bool :=
  match e with Play => true | _ => false end.

(** ** The expected number of hexes ([GameModeSelector.tsx]) *)

(** [calculateHexCount]: three constants, and for the other sizes the
    counting loops. *)
Definition calculateHexCount (mapSize : Z) : Z :=
  if mapSize =? 2 then 19
  else if mapSize =? 3 then 37
  else if mapSize =? 4 then 61
  else
    fold_left (fun count q =>
      fold_left (fun count r =>
        if (Z.abs q <=? mapSize) && (Z.abs r <=? mapSize)
           && (Z.abs (- q - r) <=? mapSize)
        then count + 1 else count)
        (forZ (Z.max (- mapSize) (- q - mapSize)) (Z.min mapSize (- q + mapSize)))
        count)
      (forZ (- mapSize) mapSize) 0.

(** What holds between the hot numbers placed so far ([placed]), the map
    of numbers and the tiles still available, during the placement loops
    over the tiles [tiles]. *)
Definition placingInv (tiles : list NumberTile.t) (placed : list Z)
  (nums : JMap Z) (avail : list NumberTile.t) : Prop :=
  jvalues nums ≡ₚ placed /\
  List.NoDup (keysOf avail) /\
  (forall k, In k (jkeys nums) -> ~ In k (keysOf avail)) /\
  (forall t, In t tiles -> In (NumberTile.key t) (jkeys nums) \/ In t avail) /\
  (length avail + length placed = length tiles)%nat.

(** The terrains that take a number, and how many tiles of a tile count
    take one. *)
Definition takesNumber (t : TerrainType) : bool :=
  bool_decide (t ≠ desert) && bool_decide (t ≠ water).

Definition numberedTiles (counts : TileCount.t) : nat :=
  (TileCount.field counts + TileCount.forest counts + TileCount.pasture counts +
   TileCount.hill counts + TileCount.mountain counts + TileCount.gold counts)%nat.

(** ** Validation of a game mode ([GameModeSelector.tsx]) *)

(** A game mode, with the fields the game computes with; its texts (id,
    name, description, features) and [maxPlayers] are display only. *)
Module GameMode.
Record t : Type := mk {
  mapSize : Z;
  tileCount : TileCount.t
}.
End GameMode.


(** With an empty bag nothing is ever in the queue, on the board or
    pending. *)
Definition nothingInPlay (st : GameState) : Prop :=
  board st = [] /\ boardNumbers st = [] /\ showFinalBoard st = false /\
  currentTile (queue st) = None /\ tileQueue (queue st) = [] /\
  nextTile (queue st) = None /\ finalTimeouts st = [].

(** * Properties *)

(** ** The tile bag *)

Lemma randomIndex_lt (x n : nat) : (0 < n)%nat -> (randomIndex x n < n)%nat.
Proof.
  intros Hn. unfold randomIndex.
  destruct (Nat.eqb_spec n 0) as [->|Hne]; [lia|].
  apply Nat.mod_upper_bound. exact Hne.
Qed.

Lemma swap_length {A : Type} (l : list A) (i j : nat) :
  length (swap l i j) = length l.
Proof.
  unfold swap. destruct (l !! i), (l !! j); try reflexivity.
  now rewrite !length_insert.
Qed.

Lemma swap_Permutation {A : Type} (l : list A) (i j : nat) :
  swap l i j ≡ₚ l.
Proof.
  unfold swap.
  destruct (l !! i) as [a|] eqn:Hi; [|reflexivity].
  destruct (l !! j) as [b|] eqn:Hj; [|reflexivity].
  apply Permutation_inj. split; [now rewrite !length_insert|].
  exists (fun n => if decide (n = j) then i else if decide (n = i) then j else n).
  split.
  - intros n m. repeat case_decide; intros; subst; congruence.
  - intros n. rewrite !list_lookup_insert, !length_insert.
    apply lookup_lt_Some in Hi as Hli. apply lookup_lt_Some in Hj as Hlj.
    repeat case_decide; subst; try congruence; try lia;
      destruct_and?; subst; try congruence; try (exfalso; tauto).
Qed.

Lemma shuffleFrom_Permutation (rnd : nat -> nat) (i : nat)
  (bag : list TerrainType) (c : nat) :
  fst (shuffleFrom rnd i bag c) ≡ₚ bag.
Proof.
  revert bag c. induction i as [|i IH]; intros bag c; simpl; [reflexivity|].
  rewrite IH. apply swap_Permutation.
Qed.

Lemma count_occ_repeat (x t : TerrainType) (n : nat) :
  count_occ TerrainType_eq_dec (repeat x n) t = if decide (x = t) then n else 0%nat.
Proof.
  case_decide as Hx.
  - subst. apply count_occ_repeat_eq. reflexivity.
  - apply count_occ_repeat_neq. congruence.
Qed.

Lemma orderedBag_count (counts : TileCount.t) (t : TerrainType) :
  count_occ TerrainType_eq_dec (orderedBag counts) t = TileCount.get counts t.
Proof.
  unfold orderedBag. rewrite !count_occ_app, !count_occ_repeat.
  destruct t; simpl; lia.
Qed.

Lemma orderedBag_length (counts : TileCount.t) :
  length (orderedBag counts) = TileCount.total counts.
Proof.
  unfold orderedBag, TileCount.total.
  rewrite !length_app, !repeat_length. lia.
Qed.

(** C3. For every tile count, the bag that [generateTileBag] returns is a
    permutation of the tiles the counts ask for: its length is the sum of
    the counts and every terrain kind occurs in it as often as its count
    says, whatever the random draws are. *)
Theorem generateTileBag_is_permutation_of_counts
  (rnd : nat -> nat) (counts : TileCount.t) (c : nat) :
  let bag := fst (generateTileBag rnd counts c) in
  length bag = TileCount.total counts /\
  (forall t : TerrainType,
     count_occ TerrainType_eq_dec bag t = TileCount.get counts t) /\
  bag ≡ₚ orderedBag counts.
Proof.
  intros bag.
  assert (Hperm : bag ≡ₚ orderedBag counts)
    by apply shuffleFrom_Permutation.
  split; [|split].
  - rewrite (Permutation_length Hperm). apply orderedBag_length.
  - intros t.
    rewrite (proj1 (Permutation_count_occ TerrainType_eq_dec _ _) Hperm t).
    apply orderedBag_count.
  - exact Hperm.
Qed.

(** ** The tile queue *)

(** C10. With one tile or none in the queue, [getNextTile] returns null and
    changes nothing: queue, current tile, next tile and remaining counts
    are those before the call. *)
Theorem getNextTile_short_queue_unchanged (s : QueueState) :
  (length (tileQueue s) <= 1)%nat ->
  getNextTile s = (None, s).
Proof.
  intros Hlen. unfold getNextTile.
  destruct (Nat.leb_spec (length (tileQueue s)) 1) as [_|Hgt]; [reflexivity|lia].
Qed.

Lemma getNextTile_short_queue_unchanged_witness :
  let s := mkQueue [desert] (Some desert) None
             (TileCount.mk 0 0 0 0 0 1 0 0) in
  (length (tileQueue s) <= 1)%nat /\
  getNextTile s = (None, s) /\
  TileCount.desert (remainingTiles (snd (getNextTile s))) = 1%nat.
Proof.
  split; [simpl; lia|].
  split.
  - apply getNextTile_short_queue_unchanged. simpl. lia.
  - rewrite getNextTile_short_queue_unchanged by (simpl; lia). reflexivity.
Defined.

(** ** The board layout *)

(** C7. [generateCatanBoard] is a function of the size alone; for the sizes
    2, 3 and 4 it returns 19, 37 and 61 land cells, pairwise distinct, and
    two calls with the same size return the same cells. *)
Theorem generateCatanBoard_canonical_sizes :
  (length (landHexes (generateCatanBoard 2)) = 19%nat /\
   length (landHexes (generateCatanBoard 3)) = 37%nat /\
   length (landHexes (generateCatanBoard 4)) = 61%nat) /\
  (NoDup (map cellOf (generateCatanBoard 2)) /\
   NoDup (map cellOf (generateCatanBoard 3)) /\
   NoDup (map cellOf (generateCatanBoard 4))) /\
  (forall size : Z,
     map cellOf (generateCatanBoard size) = map cellOf (generateCatanBoard size)).
Proof.
  split; [|split].
  - repeat split; vm_compute; reflexivity.
  - repeat split;
      match goal with |- NoDup ?l => apply (bool_decide_unpack (NoDup l)) end;
      vm_compute; exact I.
  - reflexivity.
Qed.

(** ** Horizontal moves *)

Lemma minOf_spec (rows : list Z) (m : Z) :
  minOf rows = Some m -> In m rows /\ forall x, In x rows -> m <= x.
Proof.
  destruct rows as [|x xs]; simpl; [discriminate|].
  intros [= <-]. revert x.
  induction xs as [|y ys IH]; intros x; simpl.
  - split; [now left|]. intros z [<-|[]]. lia.
  - destruct (IH (Z.min x y)) as [Hin Hle]. split.
    + destruct Hin as [Heq|Hin]; [|now right; right].
      rewrite <- Heq. destruct (Z.min_spec x y) as [[_ ->]|[_ ->]]; auto.
    + intros z [<-|[<-|Hz]].
      * specialize (Hle (Z.min x y) (or_introl eq_refl)). lia.
      * specialize (Hle (Z.min x y) (or_introl eq_refl)). lia.
      * apply Hle. now right.
Qed.

Lemma in_landHexes (hexes : list Hex.t) (h : Hex.t) :
  In h (landHexes hexes) <-> isLand hexes h.
Proof.
  unfold landHexes, isLand. rewrite filter_In.
  destruct (Hex.isWater h); simpl; intuition congruence.
Qed.

Lemma aboveBoard_topRow (hexes : list Hex.t) (st : GameState) :
  aboveBoard hexes st <->
  match topRow hexes with
  | None => True
  | Some top => snd (tilePosition st) < top
  end.
Proof.
  unfold aboveBoard, topRow.
  destruct (minOf (map Hex.r (landHexes hexes))) as [top|] eqn:Hmin.
  - apply minOf_spec in Hmin as [Hin Hle]. split.
    + intros Habove. apply in_map_iff in Hin as (h & <- & Hh).
      apply Habove, in_landHexes, Hh.
    + intros Hlt h Hh. apply in_landHexes in Hh.
      specialize (Hle (Hex.r h) (in_map Hex.r _ _ Hh)). lia.
  - split; [trivial|]. intros _ h Hh. apply in_landHexes in Hh.
    destruct (landHexes hexes); [destruct Hh | discriminate].
Qed.

Lemma canMoveTo_spec (hexes : list Hex.t) (st : GameState) (newQ : Z) :
  canMoveTo hexes st newQ = true <-> moveAllowed hexes st newQ.
Proof.
  unfold canMoveTo, moveAllowed. rewrite (aboveBoard_topRow hexes st).
  assert (Hex : existsb (fun h => Hex.q h =? newQ) (landHexes hexes) = true <->
                exists h, isLand hexes h /\ Hex.q h = newQ).
  { rewrite existsb_exists. split; intros (h & H1 & H2); exists h.
    - split; [now apply in_landHexes | lia].
    - split; [now apply in_landHexes | lia]. }
  destruct (topRow hexes) as [top|].
  - destruct (Z.ltb_spec (snd (tilePosition st)) top) as [Hlt|Hge].
    + rewrite Hex. split; [intros H; left; auto|].
      intros [[_ H]|[Hn _]]; [exact H | lia].
    + rewrite andb_true_iff, negb_true_iff. split.
      * intros [H1 H2]. right. split; [lia | auto].
      * intros [[Hlt _]|[_ H]]; [lia | exact H].
  - rewrite Hex. split; [intros H; left; auto|].
    intros [[_ H]|[Hn _]]; [exact H | tauto].
Qed.

(** C6. A left or right arrow moves the falling tile to the adjacent column
    exactly when the game accepts keys and the move is allowed: above the
    top row the destination column must hold a land cell; at or below it
    the destination cell on the same row must be a land cell and free. In
    every other case the state is returned unchanged; a move changes the
    position only. *)
Theorem arrow_move_only_when_allowed
  (rnd : nat -> nat) (sortRandom : nat -> list Z -> list Z * nat)
  (mapSize : Z) (hexes : list Hex.t) (left : bool) (st : GameState) :
  let newQ := arrowColumn left st in
  (canMoveTo hexes st newQ = true <-> moveAllowed hexes st newQ) /\
  handleKeyDown rnd sortRandom mapSize hexes (arrowKey left) st =
    if active st && canMoveTo hexes st newQ
    then setTilePosition (newQ, snd (tilePosition st)) st
    else st.
Proof.
  intros newQ. split; [apply canMoveTo_spec|].
  unfold handleKeyDown, active, moveTile, newQ, arrowColumn, arrowKey.
  destruct (hasTile st), (isPlaying st), (showFinalBoard st), left; simpl;
    reflexivity.
Qed.

(** ** Maps *)

Lemma jget_jset {V : Type} (m : JMap V) (k k' : Cell) (v : V) :
  jget (jset m k v) k' = if decide (k = k') then Some v else jget m k'.
Proof.
  induction m as [|[k0 v0] m IH]; simpl.
  - reflexivity.
  - destruct (decide (k0 = k)) as [->|Hne]; simpl.
    + destruct (decide (k = k')); reflexivity.
    + rewrite IH. destruct (decide (k0 = k')) as [->|]; [|reflexivity].
      destruct (decide (k = k')); [congruence | reflexivity].
Qed.

Lemma jkeys_jset {V : Type} (m : JMap V) (k : Cell) (v : V) :
  jkeys (jset m k v) =
    match jget m k with Some _ => jkeys m | None => jkeys m ++ [k] end.
Proof.
  unfold jkeys.
  induction m as [|[k0 v0] m IH]; [reflexivity|].
  cbn [jset jget].
  destruct (decide (k0 = k)) as [->|Hne]; [reflexivity|].
  cbn [map fst]. rewrite IH. destruct (jget m k); reflexivity.
Qed.

Lemma jget_None_keys {V : Type} (m : JMap V) (k : Cell) :
  jget m k = None <-> ~ In k (jkeys m).
Proof.
  induction m as [|[k0 v0] m IH]; simpl; [tauto|].
  destruct (decide (k0 = k)) as [->|Hne].
  - split; [discriminate | tauto].
  - rewrite IH. tauto.
Qed.

Lemma jset_NoDup {V : Type} (m : JMap V) (k : Cell) (v : V) :
  List.NoDup (jkeys m) -> List.NoDup (jkeys (jset m k v)).
Proof.
  intros Hnd. rewrite jkeys_jset.
  destruct (jget m k) eqn:Hget; [exact Hnd|].
  apply jget_None_keys in Hget.
  apply NoDup_rev in Hnd. rewrite <- (rev_involutive (jkeys m ++ [k])).
  apply NoDup_rev. rewrite rev_app_distr. simpl.
  constructor; [|exact Hnd]. now rewrite <- in_rev.
Qed.

Lemma jsize_jset_fresh {V : Type} (m : JMap V) (k : Cell) (v : V) :
  jget m k = None -> jsize (jset m k v) = S (jsize m).
Proof.
  intros Hget.
  assert (Hlen : forall m' : JMap V, jsize m' = length (jkeys m'))
    by (intros m'; unfold jsize, jkeys; now rewrite length_map).
  rewrite !Hlen, jkeys_jset, Hget, length_app. simpl. lia.
Qed.

Lemma jget_In {V : Type} (m : JMap V) (k : Cell) (v : V) :
  jget m k = Some v -> In (k, v) m.
Proof.
  induction m as [|[k0 v0] m IH]; simpl; [discriminate|].
  destruct (decide (k0 = k)) as [->|Hne]; [intros [= ->]; now left|].
  intros H. right. auto.
Qed.

Lemma In_jget {V : Type} (m : JMap V) (k : Cell) (v : V) :
  List.NoDup (jkeys m) -> In (k, v) m -> jget m k = Some v.
Proof.
  induction m as [|[k0 v0] m IH]; simpl; [tauto|].
  intros Hnd Hin. apply NoDup_cons_iff in Hnd as [Hk0 Hnd].
  destruct Hin as [[= -> ->]|Hin].
  - destruct (decide (k = k)); [reflexivity | congruence].
  - destruct (decide (k0 = k)) as [->|Hne]; [|auto].
    exfalso. apply Hk0. change (In (fst (k, v)) (map fst m)).
    now apply in_map.
Qed.

Lemma occupied_jset (b : JMap Hex.t) (k k' : Cell) (hex : Hex.t) :
  occupied (jset b k hex) k' =
    if decide (k = k')
    then match Hex.terrain hex with Some _ => true | None => false end
    else occupied b k'.
Proof.
  unfold occupied. rewrite jget_jset. destruct (decide (k = k')); reflexivity.
Qed.

(** ** Columns *)

Lemma lookup_In {A : Type} (l : list A) (i : nat) (x : A) :
  l !! i = Some x -> In x l.
Proof. intros H. apply list_elem_of_In. eapply list_elem_of_lookup_2, H. Qed.

Lemma insertByRow_In (h x : Hex.t) (l : list Hex.t) :
  In x (insertByRow h l) <-> x = h \/ In x l.
Proof.
  induction l as [|y l IH]; simpl; [intuition|].
  destruct (Hex.r h <=? Hex.r y); simpl; [intuition|].
  rewrite IH. intuition.
Qed.

Lemma sortByRow_In (x : Hex.t) (l : list Hex.t) :
  In x (sortByRow l) <-> In x l.
Proof.
  induction l as [|y l IH]; simpl; [tauto|].
  rewrite insertByRow_In, IH. intuition.
Qed.

Lemma insertByRow_sorted (h : Hex.t) (l : list Hex.t) :
  StronglySorted rowLe l -> StronglySorted rowLe (insertByRow h l).
Proof.
  induction l as [|y l IH]; intros Hs; simpl.
  - constructor; [constructor | constructor].
  - apply StronglySorted_inv in Hs as [Hs Hall].
    destruct (Z.leb_spec (Hex.r h) (Hex.r y)) as [Hle|Hgt].
    + constructor; [constructor; assumption|].
      constructor; [exact Hle|].
      rewrite List.Forall_forall in *. intros z Hz.
      specialize (Hall z Hz). unfold rowLe in *. lia.
    + constructor; [auto|].
      rewrite List.Forall_forall in *. intros z Hz.
      apply insertByRow_In in Hz as [->|Hz]; [unfold rowLe; lia | auto].
Qed.

Lemma sortByRow_sorted (l : list Hex.t) : StronglySorted rowLe (sortByRow l).
Proof.
  induction l as [|y l IH]; simpl; [constructor|].
  now apply insertByRow_sorted.
Qed.

Lemma sorted_app_le (l1 l2 : list Hex.t) (x y : Hex.t) :
  StronglySorted rowLe (l1 ++ l2) -> In x l1 -> In y l2 -> rowLe x y.
Proof.
  induction l1 as [|a l1 IH]; simpl; [tauto|].
  intros Hs Hx Hy. apply StronglySorted_inv in Hs as [Hs Hall].
  destruct Hx as [->|Hx]; [|auto].
  rewrite List.Forall_forall in Hall. apply Hall, in_or_app. now right.
Qed.

Lemma columnHexes_In (hexes : list Hex.t) (q : Z) (x : Hex.t) :
  In x (columnHexes hexes q) <-> isLand hexes x /\ Hex.q x = q.
Proof.
  unfold columnHexes. rewrite sortByRow_In, filter_In, in_landHexes.
  rewrite Z.eqb_eq. tauto.
Qed.

Lemma columnHexes_sorted (hexes : list Hex.t) (q : Z) :
  StronglySorted rowLe (columnHexes hexes q).
Proof. apply sortByRow_sorted. Qed.

(** What the scan returns: the start value when no cell of the column is
    occupied, else the row above the first occupied cell. *)
Lemma scanColumn_spec (b : JMap Hex.t) (column : list Hex.t)
  (prev : option Hex.t) (d : Z) :
  ((forall h, In h column -> occupied b (cellOf h) = false) /\
   scanColumn b prev column d = d) \/
  (exists pre h post,
     column = pre ++ h :: post /\
     (forall x, In x pre -> occupied b (cellOf x) = false) /\
     occupied b (cellOf h) = true /\
     scanColumn b prev column d =
       match list.last pre, prev with
       | Some a, _ => Hex.r a
       | None, Some p => Hex.r p
       | None, None => Hex.r h - 1
       end).
Proof.
  revert prev. induction column as [|hex rest IH]; intros prev; simpl.
  - left. split; [tauto | reflexivity].
  - destruct (occupied b (cellOf hex)) eqn:Hocc.
    + right. exists [], hex, rest. simpl. repeat split; try tauto;
        destruct prev; reflexivity.
    + destruct (IH (Some hex)) as [[Hnone Heq]|(pre & h & post & -> & Hpre & Hh & Heq)].
      * left. split; [|exact Heq]. intros h [<-|Hin]; auto.
      * right. exists (hex :: pre), h, post. repeat split; try assumption.
        -- intros x [<-|Hx]; auto.
        -- rewrite Heq, last_cons. destruct (list.last pre); reflexivity.
Qed.

Lemma isValidPosition_landCell (hexes : list Hex.t) (q r : Z) :
  isValidPosition hexes q r = true -> landCell hexes q r.
Proof.
  unfold isValidPosition, landCell, isLand, cellOf.
  destruct (List.find _ hexes) as [hex|] eqn:Hfind; [|discriminate].
  apply find_some in Hfind as [Hin Heq].
  apply andb_true_iff in Heq as [Hq Hr].
  apply Z.eqb_eq in Hq, Hr. intros Hw. apply negb_true_iff in Hw.
  exists hex. subst. auto.
Qed.

Lemma sorted_last_le (column : list Hex.t) (bottom x : Hex.t) :
  StronglySorted rowLe column ->
  column !! (length column - 1)%nat = Some bottom ->
  In x column -> rowLe x bottom.
Proof.
  intros Hs Hlast Hx.
  pose proof (take_drop_middle _ _ _ Hlast) as Hsplit.
  rewrite <- Hsplit in Hs, Hx.
  apply in_app_or in Hx as [Hx|[<-|Hx]].
  - eapply sorted_app_le; [exact Hs | exact Hx | now left].
  - unfold rowLe. lia.
  - apply lookup_lt_Some in Hlast.
    rewrite drop_ge in Hx by lia. destruct Hx.
Qed.

(** Below the target row of a stacked column every land cell is occupied. *)
Lemma targetRow_below_occupied (hexes : list Hex.t) (b : JMap Hex.t) (q t : Z) :
  stacked hexes b ->
  targetRow b (columnHexes hexes q) = Some t ->
  forall r', landCell hexes q r' -> t < r' -> occupied b (q, r') = true.
Proof.
  intros [_ Hclosed] Htarget r' (x & Hland & Hcell) Hlt.
  assert (Hx : In x (columnHexes hexes q)).
  { apply columnHexes_In. split; [exact Hland|]. now inversion Hcell. }
  assert (Hxr : Hex.r x = r') by now inversion Hcell.
  pose proof (columnHexes_sorted hexes q) as Hs.
  unfold targetRow in Htarget.
  destruct (columnHexes hexes q !! _) as [bottom|] eqn:Hlast; [|discriminate].
  injection Htarget as Ht.
  destruct (scanColumn_spec b (columnHexes hexes q) None (Hex.r bottom))
    as [[_ Heq]|(pre & h & post & Hsplit & Hpre & Hh & Heq)].
  - pose proof (sorted_last_le _ _ _ Hs Hlast Hx) as Hle.
    unfold rowLe in Hle. lia.
  - rewrite Heq in Ht. clear Heq.
    assert (Hhq : In h (columnHexes hexes q))
      by (rewrite Hsplit; apply in_or_app; right; now left).
    apply columnHexes_In in Hhq as [Hhland Hhq].
    assert (Hhcell : cellOf h = (q, Hex.r h)) by (unfold cellOf; now rewrite Hhq).
    assert (Hfrom : Hex.r h <= r' -> occupied b (q, r') = true).
    { intros Hle. destruct (Z.eq_dec (Hex.r h) r') as [<-|Hne].
      - now rewrite <- Hhcell.
      - apply (Hclosed q (Hex.r h) r').
        + exists h. auto.
        + exists x. auto.
        + lia.
        + now rewrite <- Hhcell. }
    rewrite Hsplit in Hs, Hx.
    apply in_app_or in Hx as [Hx|[<-|Hx]].
    + exfalso. destruct (list.last pre) as [a|] eqn:Hla.
      * apply last_Some in Hla as [pre0 ->].
        apply in_app_or in Hx as [Hx|[<-|[]]]; [|lia].
        rewrite <- app_assoc in Hs.
        assert (rowLe x a)
          by (eapply sorted_app_le; [exact Hs | exact Hx | now left]).
        unfold rowLe in *. lia.
      * apply last_None in Hla. subst pre. destruct Hx.
    + apply Hfrom. lia.
    + apply Hfrom.
      assert (rowLe h x).
      { change (h :: post) with ([h] ++ post) in Hs.
        rewrite app_assoc in Hs.
        eapply sorted_app_le; [exact Hs | | exact Hx].
        apply in_or_app. right. now left. }
      unfold rowLe in *. lia.
Qed.

(** In a stacked column, the cells on or below an occupied cell are
    occupied. *)
Lemma stacked_below (hexes : list Hex.t) (b : JMap Hex.t) (q : Z)
  (h0 h : Hex.t) :
  stacked hexes b ->
  In h0 (columnHexes hexes q) -> In h (columnHexes hexes q) ->
  occupied b (cellOf h0) = true -> rowLe h0 h ->
  occupied b (cellOf h) = true.
Proof.
  intros [_ Hclosed] H0 H Hocc Hle.
  apply columnHexes_In in H0 as [Hland0 Hq0], H as [Hland Hq].
  assert (Hc0 : cellOf h0 = (q, Hex.r h0)) by (unfold cellOf; now rewrite Hq0).
  assert (Hc : cellOf h = (q, Hex.r h)) by (unfold cellOf; now rewrite Hq).
  unfold rowLe in Hle. rewrite Hc.
  destruct (Z.eq_dec (Hex.r h0) (Hex.r h)) as [<-|Hne]; [now rewrite <- Hc0|].
  apply (Hclosed q (Hex.r h0) (Hex.r h)).
  - exists h0. auto.
  - exists h. auto.
  - lia.
  - now rewrite <- Hc0.
Qed.

(** The occupied cells of a stacked column are its last cells, in the order
    of the rows. *)
Lemma stacked_suffix (hexes : list Hex.t) (b : JMap Hex.t) (q : Z) :
  stacked hexes b ->
  exists n, forall i h, columnHexes hexes q !! i = Some h ->
    (occupied b (cellOf h) = true <-> (n <= i)%nat).
Proof.
  intros Hst.
  pose proof (columnHexes_sorted hexes q) as Hs.
  destruct (scanColumn_spec b (columnHexes hexes q) None 0)
    as [[Hnone _]|(pre & h0 & post & Hsplit & Hpre & Hh0 & _)].
  - exists (length (columnHexes hexes q)). intros i h Hi. split.
    + intros Hocc. rewrite (Hnone h (lookup_In _ _ _ Hi)) in Hocc. discriminate.
    + intros Hle. apply lookup_lt_Some in Hi. lia.
  - exists (length pre). intros i h Hi. split.
    + intros Hocc. destruct (le_lt_dec (length pre) i) as [Hle|Hlt]; [exact Hle|].
      exfalso. rewrite Hsplit, lookup_app_l in Hi by exact Hlt.
      rewrite (Hpre h (lookup_In _ _ _ Hi)) in Hocc. discriminate.
    + intros Hle.
      assert (Hin0 : In h0 (columnHexes hexes q))
        by (rewrite Hsplit; apply in_or_app; right; now left).
      apply (stacked_below hexes b q h0 h Hst Hin0 (lookup_In _ _ _ Hi) Hh0).
      rewrite Hsplit in Hi, Hs. rewrite lookup_app_r in Hi by exact Hle.
      apply lookup_In in Hi as [<-|Hi]; [unfold rowLe; lia|].
      change (h0 :: post) with ([h0] ++ post) in Hs. rewrite app_assoc in Hs.
      eapply sorted_app_le; [exact Hs | | exact Hi].
      apply in_or_app. right. now left.
Qed.

(** ** What the handlers leave alone *)

Section Frames.

Variable rnd : nat -> nat.
Variable sortRandom : nat -> list Z -> list Z * nat.
Variable mapSize : Z.
Variable hexes : list Hex.t.

Lemma spawnClosure_frame (playing more : bool) (st : GameState) :
  let st' := spawnClosure rnd hexes playing more st in
  board st' = board st /\ queue st' = queue st /\
  dropSpeed st' = dropSpeed st /\ showFinalBoard st' = showFinalBoard st /\
  boardNumbers st' = boardNumbers st /\ isPlaying st' = isPlaying st.
Proof.
  unfold spawnClosure.
  destruct (negb playing || negb more); [simpl; auto 10|].
  destruct (0 <? length (getValidSpawnPositions hexes))%nat; [|simpl; auto 10].
  destruct (getValidSpawnPositions hexes !! _); simpl; auto 10.
Qed.

Lemma spawnNewTile_frame (more : bool) (st : GameState) :
  let st' := spawnNewTile rnd hexes more st in
  board st' = board st /\ queue st' = queue st /\
  dropSpeed st' = dropSpeed st /\ showFinalBoard st' = showFinalBoard st /\
  boardNumbers st' = boardNumbers st /\ isPlaying st' = isPlaying st.
Proof. apply spawnClosure_frame. Qed.

Lemma finishBoard_frame (newBoard : JMap Hex.t) (st : GameState) :
  let st' := finishBoard rnd sortRandom mapSize newBoard st in
  board st' = board st /\ queue st' = queue st /\
  dropSpeed st' = dropSpeed st /\ tilePosition st' = tilePosition st.
Proof.
  unfold finishBoard.
  destruct (assignNumbers _ _ _ _ _) as [[newNumbers c]|]; simpl; auto 10.
Qed.

(** [placeTile] either leaves the board as it is or writes the current tile
    to a free land cell. *)
Lemma placeTile_board (q r : Z) (st : GameState) :
  board (placeTile rnd sortRandom mapSize hexes q r st) = board st \/
  (exists tile,
     currentTile (queue st) = Some tile /\
     isValidPosition hexes q r = true /\
     occupied (board st) (q, r) = false /\
     board (placeTile rnd sortRandom mapSize hexes q r st) =
       jset (board st) (q, r) (Hex.mk q r (Some tile) false)).
Proof.
  unfold placeTile.
  destruct (currentTile (queue st)) as [tile|] eqn:Hcur; [|now left].
  destruct (isValidPosition hexes q r) eqn:Hvalid; simpl; [|now left].
  destruct (occupied (board st) (q, r)) eqn:Hocc.
  { left. apply spawnNewTile_frame. }
  right. exists tile. repeat split; try reflexivity.
  destruct (getNextTile (queue st)) as [[next|] queue']; [|reflexivity].
  destruct (bool_decide _); [reflexivity|].
  now rewrite (proj1 (spawnNewTile_frame _ _)).
Qed.

Lemma stacked_place (b : JMap Hex.t) (q t : Z) (tile : TerrainType) :
  stacked hexes b ->
  isValidPosition hexes q t = true ->
  (forall r', landCell hexes q r' -> t < r' -> occupied b (q, r') = true) ->
  stacked hexes (jset b (q, t) (Hex.mk q t (Some tile) false)).
Proof.
  intros [Hland Hclosed] Hvalid Hbelow. split.
  - intros q0 r0. rewrite occupied_jset.
    destruct (decide (@eq Cell (q, t) (q0, r0))) as [[= <- <-]|_]; [|apply Hland].
    intros _. now apply isValidPosition_landCell.
  - intros q0 r0 r' H0 H' Hlt. rewrite !occupied_jset. simpl.
    destruct (decide (@eq Cell (q, t) (q0, r'))) as [|Hne']; [reflexivity|].
    destruct (decide (@eq Cell (q, t) (q0, r0))) as [[= <- <-]|_].
    + intros _. now apply Hbelow.
    + now apply Hclosed.
Qed.

Lemma drop_stacked (q t : Z) (st : GameState) :
  stacked hexes (board st) ->
  targetRow (board st) (columnHexes hexes q) = Some t ->
  stacked hexes (board (placeTile rnd sortRandom mapSize hexes q t st)).
Proof.
  intros Hst Htarget.
  destruct (placeTile_board q t st) as [->|(tile & _ & Hvalid & _ & ->)];
    [exact Hst|].
  apply stacked_place; [exact Hst | exact Hvalid |].
  now apply targetRow_below_occupied.
Qed.

Lemma resume_board (st : GameState) :
  board (resume rnd hexes st) = board st.
Proof.
  unfold resume. destruct (isPlaying st); [reflexivity|].
  destruct (initQueue rnd (tileCount st) (queue st) (cursor st)) as [queue' c'].
  cbv zeta.
  repeat match goal with
         | |- context [if ?c then _ else _] => destruct c
         end;
    repeat (cbn [board setQueue setCursor setIsPlaying];
            rewrite ?(proj1 (spawnNewTile_frame _ _)));
    reflexivity.
Qed.

Lemma resume_speed (st : GameState) :
  dropSpeed (resume rnd hexes st) = dropSpeed st.
Proof.
  unfold resume. destruct (isPlaying st); [reflexivity|].
  destruct (initQueue rnd (tileCount st) (queue st) (cursor st)) as [queue' c'].
  cbv zeta.
  repeat match goal with
         | |- context [if ?c then _ else _] => destruct c
         end;
    repeat (cbn [dropSpeed setQueue setCursor setIsPlaying];
            rewrite ?(proj1 (proj2 (proj2 (spawnNewTile_frame _ _)))));
    reflexivity.
Qed.

Lemma resume_playing (st : GameState) :
  isPlaying (resume rnd hexes st) = true.
Proof.
  unfold resume. destruct (isPlaying st) eqn:Hplay; [exact Hplay|].
  destruct (initQueue rnd (tileCount st) (queue st) (cursor st)) as [queue' c'].
  cbv zeta.
  repeat match goal with
         | |- context [if ?c then _ else _] => destruct c
         end;
    repeat (cbn [isPlaying setQueue setCursor setIsPlaying];
            rewrite ?(proj2 (proj2 (proj2 (proj2 (proj2
                       (spawnNewTile_frame _ _)))))));
    reflexivity.
Qed.

Lemma step_stacked (e : Event) (st : GameState) :
  stacked hexes (board st) ->
  stacked hexes (board (step rnd sortRandom mapSize hexes e st)).
Proof.
  intros Hst.
  assert (Hhard : stacked hexes (board (hardDrop rnd sortRandom mapSize hexes st))).
  { unfold hardDrop. destruct (negb (hasTile st) || negb (isPlaying st)); [exact Hst|].
    destruct (targetRow _ _) as [t|] eqn:Htarget; [|exact Hst].
    now apply drop_stacked. }
  destruct e as [key|key| | |q r| | | | |]; cbn [step].
  - unfold handleKeyDown, moveTile.
    destruct (negb (hasTile st) || negb (isPlaying st) || showFinalBoard st);
      [exact Hst|].
    destruct key; try exact Hst; try exact Hhard;
      destruct (canMoveTo _ _ _); exact Hst.
  - destruct key; exact Hst.
  - unfold autoDropTile.
    destruct (negb (hasTile st) || negb (isPlaying st) || showFinalBoard st);
      [exact Hst|].
    destruct (targetRow _ _) as [t|] eqn:Htarget; [|exact Hst].
    destruct (_ >=? _); [now apply drop_stacked | exact Hst].
  - unfold speedUp. destruct (negb (isPlaying st)); exact Hst.
  - unfold handleBoardClick.
    destruct (negb (hasTile st) || negb (isPlaying st) || showFinalBoard st);
      [exact Hst|].
    destruct (negb (isValidPosition hexes q r)); [exact Hst|].
    destruct (occupied _ _); [|exact Hst].
    now rewrite (proj1 (spawnNewTile_frame _ _)).
  - unfold fireSpawnTimeout. destruct (spawnTimeouts st) as [|[playing more] rest];
      [exact Hst|].
    now rewrite (proj1 (spawnClosure_frame _ _ _)).
  - unfold fireFinalTimeout. destruct (finalTimeouts st) as [|newBoard rest];
      [exact Hst|].
    now rewrite (proj1 (finishBoard_frame _ _)).
  - unfold viewBoard. destruct (showFinalBoard st); exact Hst.
  - unfold pause. destruct (isPlaying st); exact Hst.
  - now rewrite resume_board.
Qed.

Lemma run_stacked (events : list Event) (st : GameState) :
  stacked hexes (board st) ->
  stacked hexes (board (run rnd sortRandom mapSize hexes events st)).
Proof.
  revert st. induction events as [|e events IH]; intros st Hst; simpl.
  - exact Hst.
  - apply IH, step_stacked, Hst.
Qed.

Lemma startGame_board (tileCount : TileCount.t) (c : nat) :
  board (startGame rnd hexes tileCount c) = [].
Proof.
  unfold startGame. now rewrite resume_board.
Qed.

End Frames.

(** C4. In a game started on the empty board, after any sequence of drop
    timer ticks, hard drops and other inputs, every column is a stack:
    tiles lie on land cells, and under a tile every land cell of the same
    column down to the bottom-most one holds a tile; so the occupied cells
    of a column, in the order of the rows, are its last ones: one block
    that starts at the bottom-most land row, with no gap. *)
Theorem drops_leave_no_gap
  (rnd : nat -> nat) (sortRandom : nat -> list Z -> list Z * nat)
  (mapSize : Z) (hexes : list Hex.t)
  (tileCount : TileCount.t) (c : nat) (events : list Event) :
  let b := board (run rnd sortRandom mapSize hexes events
                    (startGame rnd hexes tileCount c)) in
  stacked hexes b /\
  forall q, exists n, forall i h,
    columnHexes hexes q !! i = Some h ->
    (occupied b (cellOf h) = true <-> (n <= i)%nat).
Proof.
  intros b.
  assert (Hst : stacked hexes b).
  { apply run_stacked. rewrite startGame_board.
    split; intros; discriminate. }
  split; [exact Hst|]. intros q. now apply stacked_suffix.
Qed.

(** ** A drop on a full column *)

Section FullColumn.

Variable rnd : nat -> nat.
Variable sortRandom : nat -> list Z -> list Z * nat.
Variable mapSize : Z.
Variable hexes : list Hex.t.

(** When the top cell of a column is occupied, the target row is the row
    above it, which is no land cell. *)
Lemma full_column_target (b : JMap Hex.t) (q : Z) (top : Hex.t)
  (rest : list Hex.t) :
  columnHexes hexes q = top :: rest ->
  occupied b (cellOf top) = true ->
  targetRow b (columnHexes hexes q) = Some (Hex.r top - 1) /\
  isValidPosition hexes q (Hex.r top - 1) = false.
Proof.
  intros Hcol Hocc. split.
  - unfold targetRow. rewrite Hcol.
    destruct ((top :: rest) !! _) as [bottom|] eqn:Hlast.
    + simpl. now rewrite Hocc.
    + apply lookup_ge_None in Hlast. simpl in Hlast. lia.
  - destruct (isValidPosition hexes q (Hex.r top - 1)) eqn:Hvalid; [|reflexivity].
    exfalso. apply isValidPosition_landCell in Hvalid as (x & Hland & Hcell).
    assert (Hx : In x (columnHexes hexes q)).
    { apply columnHexes_In. split; [exact Hland | now inversion Hcell]. }
    pose proof (columnHexes_sorted hexes q) as Hs.
    rewrite Hcol in Hs, Hx.
    apply StronglySorted_inv in Hs as [_ Hall].
    rewrite List.Forall_forall in Hall.
    assert (Hex.r x = Hex.r top - 1) by now inversion Hcell.
    destruct Hx as [<-|Hx]; [lia|].
    specialize (Hall x Hx). unfold rowLe in Hall. lia.
Qed.

(** A hard drop on a column whose top cell is occupied returns the state
    unchanged: [placeTile] leaves at its first test. *)
Lemma hardDrop_full_column (st : GameState) (top : Hex.t) (rest : list Hex.t) :
  columnHexes hexes (fst (tilePosition st)) = top :: rest ->
  occupied (board st) (cellOf top) = true ->
  hardDrop rnd sortRandom mapSize hexes st = st.
Proof.
  intros Hcol Hocc.
  destruct (full_column_target _ _ _ _ Hcol Hocc) as [Htarget Hinvalid].
  unfold hardDrop. destruct (negb (hasTile st) || negb (isPlaying st)); [reflexivity|].
  rewrite Htarget. unfold placeTile.
  destruct (currentTile (queue st)); [|reflexivity].
  now rewrite Hinvalid.
Qed.

End FullColumn.

(** C1, evaluated. Five hard drops fill column 0 of the size 2 board; the
    tile is then turned once. A further hard drop in the full column
    returns the state as it is (board, queue, position, rotation and
    cursor), whereas a re-spawn would reset the rotation and draw a
    column. *)
Theorem hardDrop_on_full_column_does_not_respawn :
  let st := baseRun [KeyDown Space; KeyDown Space; KeyDown Space;
                     KeyDown Space; KeyDown Space; KeyDown ArrowUp] baseGame in
  tilePosition st = (0, -4) /\
  forallb (fun h => occupied (board st) (cellOf h))
    (columnHexes (generateCatanBoard 2) 0) = true /\
  jsize (board st) = 5%nat /\
  length (tileQueue (queue st)) = 14%nat /\
  baseRun [KeyDown Space] st = st /\
  spawnNewTile zeroDraws (generateCatanBoard 2) (hasMoreTiles (queue st)) st <> st.
Proof.
  intros st.
  do 5 (split; [vm_compute; reflexivity|]).
  intros Heq. apply (f_equal tileRotation) in Heq.
  vm_compute in Heq. discriminate.
Qed.

(** ** Drop speed *)

(** C8, evaluated. The interval starts at 1000 and a speed tick takes 20
    off, down to 300; a held soft drop sets it to 100. Releasing the soft
    drop sets it to 1000 whatever the ramp had reached (980 here), and a
    speed tick during a soft drop raises the interval from 100 to 300. *)
Theorem softDrop_release_sets_1000 :
  (forall key st, dropSpeed (handleKeyUp key st) =
     match key with ArrowDown => 1000 | _ => dropSpeed st end) /\
  (forall st, dropSpeed (speedUp st) =
     if isPlaying st then Z.max 300 (dropSpeed st - 20) else dropSpeed st) /\
  dropSpeed baseGame = 1000 /\
  dropSpeed (baseRun [SpeedTimer] baseGame) = 980 /\
  dropSpeed (baseRun [SpeedTimer; KeyDown ArrowDown] baseGame) = 100 /\
  dropSpeed (baseRun [SpeedTimer; KeyDown ArrowDown; KeyUp ArrowDown] baseGame)
    = 1000 /\
  dropSpeed (baseRun [KeyDown ArrowDown; SpeedTimer] baseGame) = 300.
Proof.
  split; [intros key st; destruct key; reflexivity|].
  split; [intros st; unfold speedUp; destruct (isPlaying st); reflexivity|].
  do 4 (split; [vm_compute; reflexivity|]).
  vm_compute; reflexivity.
Qed.

(** ** Rotation *)

Section Rotation.

Variable rnd : nat -> nat.
Variable sortRandom : nat -> list Z -> list Z * nat.
Variable mapSize : Z.
Variable hexes : list Hex.t.

Ltac same_but_rotation s1 s2 H :=
  destruct s1 as [b1 p1 a1 d1 f1 n1 q1 i1 c1 t1 w1 z1];
  destruct s2 as [b2 p2 a2 d2 f2 n2 q2 i2 c2 t2 w2 z2];
  injection H as -> -> -> -> -> -> -> -> -> -> ->.

Lemma spawnClosure_blind (playing more : bool) :
  blind (spawnClosure rnd hexes playing more).
Proof.
  intros s1 s2 H. same_but_rotation s1 s2 H.
  unfold spawnClosure. cbn [cursor].
  destruct (negb playing || negb more); [reflexivity|].
  destruct (0 <? _)%nat; [|reflexivity].
  destruct (_ !! _); reflexivity.
Qed.

Lemma spawnNewTile_blind (more : bool) : blind (spawnNewTile rnd hexes more).
Proof.
  intros s1 s2 H. unfold spawnNewTile.
  replace (isPlaying s1) with (isPlaying s2)
    by (same_but_rotation s1 s2 H; reflexivity).
  now apply spawnClosure_blind.
Qed.

Lemma finishBoard_blind (newBoard : JMap Hex.t) :
  blind (finishBoard rnd sortRandom mapSize newBoard).
Proof.
  intros s1 s2 H. same_but_rotation s1 s2 H.
  unfold finishBoard. cbn [cursor].
  destruct (assignNumbers _ _ _ _ _) as [[newNumbers c]|]; reflexivity.
Qed.

Lemma placeTile_blind (q r : Z) : blind (placeTile rnd sortRandom mapSize hexes q r).
Proof.
  intros s1 s2 H.
  assert (Hsp := fun more => spawnNewTile_blind more).
  same_but_rotation s1 s2 H.
  unfold placeTile. cbn [queue board isPlaying spawnTimeouts finalTimeouts].
  destruct (currentTile q2) as [tile|]; [|reflexivity].
  destruct (negb (isValidPosition hexes q r)); [reflexivity|].
  destruct (occupied b2 (q, r)); [now apply Hsp|].
  destruct (getNextTile q2) as [[next|] queue']; [|reflexivity].
  destruct (bool_decide _); [reflexivity|].
  now apply Hsp.
Qed.

Lemma hardDrop_blind : blind (hardDrop rnd sortRandom mapSize hexes).
Proof.
  intros s1 s2 H. unfold hardDrop.
  assert (Hpl := fun q r => placeTile_blind q r s1 s2 H).
  same_but_rotation s1 s2 H.
  unfold hasTile in *. cbn [queue isPlaying board tilePosition] in *.
  destruct (negb _ || negb i2); [reflexivity|].
  destruct (targetRow _ _); [apply Hpl | reflexivity].
Qed.

Lemma resume_blind : blind (resume rnd hexes).
Proof.
  intros s1 s2 H.
  assert (Hsp := fun more => spawnNewTile_blind more).
  same_but_rotation s1 s2 H.
  unfold resume, hasTile. cbn [isPlaying tileCount queue cursor].
  destruct i2; [reflexivity|].
  destruct (initQueue rnd t2 q2 c2) as [queue' c']. cbv zeta.
  cbn [queue setQueue setCursor setIsPlaying].
  assert (HA : forall x1 x2, eraseRotation x1 = eraseRotation x2 ->
            eraseRotation (setQueue queue' x1) = eraseRotation (setQueue queue' x2)).
  { intros x1 x2 Hx. destruct x1, x2. injection Hx as -> -> -> -> -> -> -> -> -> -> ->.
    reflexivity. }
  destruct (currentTile q2) as [old|].
  - destruct (bool_decide _).
    + apply HA. now apply Hsp.
    + destruct (currentTile queue'); [apply Hsp|]; apply HA; now apply Hsp.
  - destruct (bool_decide _); [reflexivity|].
    destruct (currentTile queue'); [now apply Hsp | reflexivity].
Qed.

Lemma step_blind (e : Event) : blind (step rnd sortRandom mapSize hexes e).
Proof.
  intros s1 s2 H.
  assert (Hpl := fun q r => placeTile_blind q r s1 s2 H).
  assert (Hhd := hardDrop_blind s1 s2 H).
  assert (Hsp := fun more => spawnNewTile_blind more s1 s2 H).
  assert (Hre := resume_blind s1 s2 H).
  assert (Hcl := fun playing more => spawnClosure_blind playing more).
  assert (Hfi := fun newBoard => finishBoard_blind newBoard).
  same_but_rotation s1 s2 H.
  destruct e as [key|key| | |q r| | | | |]; cbn [step].
  - unfold handleKeyDown, hasTile, moveTile, canMoveTo in *.
    cbn [queue isPlaying showFinalBoard board tilePosition tileRotation] in *.
    destruct (negb _ || negb i2 || f2); [reflexivity|].
    destruct key; try reflexivity; try exact Hhd;
      match goal with |- context [if ?c then _ else _] => destruct c end;
      reflexivity.
  - destruct key; reflexivity.
  - unfold autoDropTile, hasTile in *.
    cbn [queue isPlaying showFinalBoard board tilePosition] in *.
    destruct (negb _ || negb i2 || f2); [reflexivity|].
    destruct (targetRow _ _); [|reflexivity].
    destruct (_ >=? _); [apply Hpl | reflexivity].
  - unfold speedUp. cbn [isPlaying]. destruct (negb i2); reflexivity.
  - unfold handleBoardClick, hasTile in *.
    cbn [queue isPlaying showFinalBoard board] in *.
    destruct (negb _ || negb i2 || f2); [reflexivity|].
    destruct (negb (isValidPosition hexes q r)); [reflexivity|].
    destruct (occupied _ _); [apply Hsp | reflexivity].
  - unfold fireSpawnTimeout. cbn [spawnTimeouts].
    destruct w2 as [|[playing more] rest]; [reflexivity|].
    now apply Hcl.
  - unfold fireFinalTimeout. cbn [finalTimeouts].
    destruct z2 as [|newBoard rest]; [reflexivity|].
    now apply Hfi.
  - unfold viewBoard. cbn [showFinalBoard]. destruct f2; reflexivity.
  - unfold pause. cbn [isPlaying]. destruct i2; reflexivity.
  - exact Hre.
Qed.

(** A rotate command changes the angle only. *)
Lemma rotate_only_rotation (st : GameState) :
  eraseRotation (handleKeyDown rnd sortRandom mapSize hexes ArrowUp st) =
  eraseRotation st.
Proof.
  unfold handleKeyDown.
  destruct (negb (hasTile st) || negb (isPlaying st) || showFinalBoard st);
    reflexivity.
Qed.

Lemma run_blind (events : list Event) (s1 s2 : GameState) :
  eraseRotation s1 = eraseRotation s2 ->
  eraseRotation (run rnd sortRandom mapSize hexes events s1) =
  eraseRotation (run rnd sortRandom mapSize hexes (dropRotations events) s2).
Proof.
  revert s1 s2. induction events as [|e events IH]; intros s1 s2 H.
  - exact H.
  - cbn [run fold_left dropRotations List.filter].
    fold (dropRotations events). fold (run rnd sortRandom mapSize hexes events).
    destruct (isRotate e) eqn:Hrot; cbn [negb].
    + apply IH. destruct e as [[]| | | | | | | | |]; try discriminate.
      cbn [step]. now rewrite rotate_only_rotation.
    + cbn [run fold_left].
      fold (run rnd sortRandom mapSize hexes (dropRotations events)).
      apply IH. now apply step_blind.
Qed.

End Rotation.

(** C9. The rotation angle has no effect on the game: a run from a state
    with any angle, with rotate commands anywhere among its events, ends in
    the same board, position, queue, numbers, speed and cursor as the run
    without the rotate commands from the state with another angle. *)
Theorem rotation_is_cosmetic
  (rnd : nat -> nat) (sortRandom : nat -> list Z -> list Z * nat)
  (mapSize : Z) (hexes : list Hex.t)
  (events : list Event) (st : GameState) (a : Z) :
  eraseRotation (run rnd sortRandom mapSize hexes events (setTileRotation a st)) =
  eraseRotation (run rnd sortRandom mapSize hexes (dropRotations events) st).
Proof. apply run_blind. reflexivity. Qed.

(** ** Number assignment *)

Lemma jget_Some_keys {V : Type} (m : JMap V) (k : Cell) :
  (exists v, jget m k = Some v) <-> In k (jkeys m).
Proof.
  pose proof (jget_None_keys m k) as Hnone.
  destruct (jget m k) as [v|] eqn:Hget.
  - split; [intros _ | eauto].
    destruct (in_dec (fun x y => decide (x = y)) k (jkeys m)) as [Hin|Hnin];
      [exact Hin|].
    apply Hnone in Hnin. discriminate.
  - split; [intros [v Hv]; discriminate|].
    intros Hin. exfalso. now apply (proj1 Hnone).
Qed.

Lemma jkeys_jset_same {V : Type} (m : JMap V) (k : Cell) (v : V) :
  In k (jkeys (jset m k v)).
Proof.
  apply jget_Some_keys. exists v. rewrite jget_jset.
  destruct (decide (k = k)); [reflexivity | congruence].
Qed.

Lemma jkeys_jset_mono {V : Type} (m : JMap V) (k k' : Cell) (v : V) :
  In k' (jkeys m) -> In k' (jkeys (jset m k v)).
Proof.
  intros Hin. rewrite jkeys_jset. destruct (jget m k); [exact Hin|].
  apply in_or_app. now left.
Qed.

Lemma jkeys_jset_inv {V : Type} (m : JMap V) (k k' : Cell) (v : V) :
  In k' (jkeys (jset m k v)) -> k' = k \/ In k' (jkeys m).
Proof.
  rewrite jkeys_jset. destruct (jget m k); [now right|].
  intros Hin. apply in_app_or in Hin as [Hin|[<-|[]]]; auto.
Qed.

Lemma filter_length_bound {A : Type} (f : A -> bool) (l : list A) :
  (length (List.filter f l) <= length l)%nat.
Proof.
  induction l as [|x l IH]; simpl; [lia|].
  destruct (f x); simpl; lia.
Qed.

Section AssignFacts.

Variable rnd : nat -> nat.
Variable sortRandom : nat -> list Z -> list Z * nat.

(** The tiles that take a number. *)
Variable tiles : list NumberTile.t.

Lemma wellKeyed_jset (nums : JMap Z) (tile : NumberTile.t) (v : Z) :
  wellKeyed tiles nums -> In tile tiles ->
  wellKeyed tiles (jset nums (NumberTile.key tile) v).
Proof.
  intros [Hnd Hkeys] Htile. split; [now apply jset_NoDup|].
  intros k Hk. apply jkeys_jset_inv in Hk as [->|Hk]; [|auto].
  unfold keysOf. now apply in_map.
Qed.

Lemma tryPlace_ok (attempts : nat) (number : Z)
  (nums : JMap Z) (avail : list NumberTile.t) (c : nat) :
  good tiles (nums, avail, c) -> avail <> [] ->
  exists placed nums' avail' c',
    tryPlace rnd tiles attempts number (nums, avail, c) =
      Some (placed, (nums', avail', c')) /\
    good tiles (nums', avail', c') /\
    length avail' =
      if placed : bool then (length avail - 1)%nat else length avail.
Proof.
  intros [Hwk Hincl] Hne. simpl in Hwk, Hincl.
  revert c. induction attempts as [|attempts IH]; intros c.
  - exists false, nums, avail, c.
    split; [reflexivity|]. split; [split; assumption | reflexivity].
  - cbn [tryPlace].
    assert (Hlt : (randomIndex (rnd c) (length avail) < length avail)%nat).
    { apply randomIndex_lt. destruct avail; [congruence | simpl; lia]. }
    destruct (lookup_lt_is_Some_2 _ _ Hlt) as [tile Htile].
    rewrite Htile.
    destruct (isValidPlacement _ _ _ _).
    + exists true, (jset nums (NumberTile.key tile) number),
        (delete (randomIndex (rnd c) (length avail)) avail), (S c).
      split; [reflexivity|]. split; [split|].
      * apply wellKeyed_jset; [exact Hwk|]. apply Hincl. eapply lookup_In, Htile.
      * intros x Hx. apply Hincl. apply list_elem_of_In.
        eapply list_elem_of_delete_inv. apply list_elem_of_In, Hx.
      * apply length_delete. eauto.
    + apply IH.
Qed.

Lemma placeHot_ok (number : Z)
  (nums : JMap Z) (avail : list NumberTile.t) (c : nat) :
  good tiles (nums, avail, c) -> avail <> [] ->
  exists nums' avail' c',
    placeHot rnd tiles number (nums, avail, c) = Some (nums', avail', c') /\
    good tiles (nums', avail', c') /\
    length avail' = (length avail - 1)%nat.
Proof.
  intros Hgood Hne.
  destruct (tryPlace_ok 100 number nums avail c Hgood Hne)
    as (placed & nums' & avail' & c' & Htry & [Hwk Hincl] & Hlen).
  unfold placeHot. rewrite Htry. simpl in Hwk, Hincl.
  destruct placed; cbn [negb andb].
  - exists nums', avail', c'.
    split; [reflexivity|]. split; [split; assumption | exact Hlen].
  - destruct avail' as [|tile rest].
    + exfalso. destruct avail; [congruence | discriminate].
    + cbn [length Nat.ltb Nat.leb].
      exists (jset nums' (NumberTile.key tile) number), rest, c'.
      split; [reflexivity|]. split; [split|].
      * apply wellKeyed_jset; [exact Hwk|]. apply Hincl. now left.
      * intros x Hx. apply Hincl. now right.
      * simpl in Hlen. lia.
Qed.

Lemma placeHots_ok (numbers : list Z) (p : Placing) :
  good tiles p -> (length numbers <= length (snd (fst p)))%nat ->
  exists p', placeHots rnd tiles numbers p = Some p' /\ good tiles p'.
Proof.
  revert p. induction numbers as [|number numbers IH];
    intros [[nums avail] c] Hgood Hlen.
  - exists (nums, avail, c). now split.
  - cbn [placeHots]. simpl in Hlen.
    assert (Hne : avail <> []) by (destruct avail; [simpl in Hlen; lia | congruence]).
    destruct (placeHot_ok number nums avail c Hgood Hne)
      as (nums' & avail' & c' & -> & Hgood' & Hlen').
    apply IH; [exact Hgood'|]. simpl. lia.
Qed.

Lemma placeOthers_ok (avail : list NumberTile.t) (shuffled : list Z)
  (nums : JMap Z) :
  wellKeyed tiles nums -> incl avail tiles ->
  wellKeyed tiles (placeOthers avail shuffled nums).
Proof.
  revert shuffled nums.
  induction avail as [|tile avail IH]; intros shuffled nums Hwk Hincl.
  - exact Hwk.
  - destruct shuffled as [|number numbers]; [exact Hwk|].
    cbn [placeOthers]. apply IH.
    + apply wellKeyed_jset; [exact Hwk|]. apply Hincl. now left.
    + intros x Hx. apply Hincl. now right.
Qed.

Lemma safetyStep_ok (dist : list Z) (acc : JMap Z * nat) (tile : NumberTile.t) :
  wellKeyed tiles (fst acc) -> In tile tiles ->
  wellKeyed tiles (fst (safetyStep rnd dist acc tile)) /\
  In (NumberTile.key tile) (jkeys (fst (safetyStep rnd dist acc tile))) /\
  (forall k, In k (jkeys (fst acc)) ->
     In k (jkeys (fst (safetyStep rnd dist acc tile)))).
Proof.
  destruct acc as [nums c]. cbn [fst]. intros Hwk Htile.
  unfold safetyStep, jhas.
  destruct (jget nums (NumberTile.key tile)) as [v|] eqn:Hget.
  { cbn [fst]. repeat split; try apply Hwk; [|auto].
    apply jget_Some_keys. eauto. }
  set (remaining := List.filter _ dist).
  destruct (Nat.ltb_spec 0 (length remaining)) as [Hpos|_].
  - destruct (lookup_lt_is_Some_2 remaining _
                (randomIndex_lt (rnd c) _ Hpos)) as [n ->].
    cbn [fst]. split; [now apply wellKeyed_jset|].
    split; [apply jkeys_jset_same | intros k; apply jkeys_jset_mono].
  - assert (Hpos : (0 < length fallbackNumbers)%nat) by (simpl; lia).
    destruct (lookup_lt_is_Some_2 fallbackNumbers _
                (randomIndex_lt (rnd c) _ Hpos)) as [n ->].
    cbn [fst]. split; [now apply wellKeyed_jset|].
    split; [apply jkeys_jset_same | intros k; apply jkeys_jset_mono].
Qed.

Lemma safetyPass_ok (dist : list Z) (l : list NumberTile.t) (acc : JMap Z * nat) :
  wellKeyed tiles (fst acc) -> incl l tiles ->
  wellKeyed tiles (fst (fold_left (safetyStep rnd dist) l acc)) /\
  (forall t, In t l ->
     In (NumberTile.key t) (jkeys (fst (fold_left (safetyStep rnd dist) l acc)))) /\
  (forall k, In k (jkeys (fst acc)) ->
     In k (jkeys (fst (fold_left (safetyStep rnd dist) l acc)))).
Proof.
  revert acc. induction l as [|tile l IH]; intros acc Hwk Hincl; cbn [fold_left].
  - repeat split; [apply Hwk | apply Hwk | intros t [] | auto].
  - destruct (safetyStep_ok dist acc tile Hwk (Hincl tile (or_introl eq_refl)))
      as (Hwk' & Hkey & Hmono).
    destruct (IH (safetyStep rnd dist acc tile) Hwk')
      as (Hwk'' & Hkeys & Hmono').
    { intros x Hx. apply Hincl. now right. }
    split; [exact Hwk''|]. split; [|auto].
    intros t [<-|Ht]; auto.
Qed.

End AssignFacts.

(** The assignment never throws; its keys are those of the number tiles,
    each once. *)
Lemma assignNumbers_keys (rnd : nat -> nat)
  (sortRandom : nat -> list Z -> list Z * nat)
  (mapSize : Z) (newBoard : JMap Hex.t) (c : nat) :
  exists nums c',
    assignNumbers rnd sortRandom mapSize newBoard c = Some (nums, c') /\
    List.NoDup (jkeys nums) /\
    forall k, In k (jkeys nums) <-> In k (keysOf (numberTilesOf newBoard)).
Proof.
  unfold assignNumbers.
  set (tiles := numberTilesOf newBoard).
  set (dist := numberDistributionFor mapSize (length tiles)).
  assert (Hgood : good tiles ([], tiles, c)).
  { split; [split|]; simpl; [constructor | tauto | apply incl_refl]. }
  assert (Hlen : (length (List.filter isHot dist) <= length tiles)%nat).
  { etransitivity; [apply filter_length_bound|].
    unfold dist, numberDistributionFor. rewrite length_take. lia. }
  destruct (placeHots_ok rnd tiles _ _ Hgood Hlen)
    as ([[nums avail] c1] & -> & [Hwk Hincl]).
  simpl in Hwk, Hincl.
  destruct (sortRandom c1 _) as [shuffled c2].
  pose proof (placeOthers_ok tiles avail shuffled nums Hwk Hincl) as Hwk'.
  destruct (safetyPass_ok rnd tiles dist tiles
              (placeOthers avail shuffled nums, c2) Hwk' (incl_refl _))
    as ([Hnd Hkeys] & Hall & _).
  destruct (fold_left _ _ _) as [final c3] eqn:Hfold.
  exists final, c3. split; [reflexivity|]. split; [exact Hnd|].
  intros k. split; [apply Hkeys|].
  intros Hk. apply in_map_iff in Hk as (t & <- & Ht). now apply Hall.
Qed.

Lemma numberTilesOf_keys (b : JMap Hex.t) (k : Cell) :
  List.NoDup (jkeys b) ->
  In k (keysOf (numberTilesOf b)) <-> eligible b k.
Proof.
  intros Hnd. unfold keysOf, numberTilesOf, eligible.
  rewrite in_map_iff. split.
  - intros (nt & <- & Hnt). apply in_flat_map in Hnt as ([hexKey hex] & Hin & Hnt).
    destruct (Hex.terrain hex) as [t|] eqn:Hterrain; [|destruct Hnt].
    destruct (bool_decide (t ≠ desert)) eqn:Hd; [|destruct Hnt].
    destruct (bool_decide (t ≠ water)) eqn:Hw; [|destruct Hnt].
    destruct Hnt as [<-|[]]. simpl.
    exists hex, t. apply bool_decide_eq_true in Hd, Hw.
    split; [now apply In_jget | auto].
  - intros (hex & t & Hget & Hterrain & Hd & Hw).
    exists (NumberTile.mk k (Hex.q hex) (Hex.r hex)). split; [reflexivity|].
    apply in_flat_map. exists (k, hex). split; [now apply jget_In|].
    rewrite Hterrain.
    rewrite (bool_decide_eq_true_2 _ Hd), (bool_decide_eq_true_2 _ Hw).
    now left.
Qed.

(** Each round of the [while] loop that starts short adds a number, so the
    fuel [numbersNeeded] is never used up before the loop ends. *)
Lemma pushWhileShort_length (numbersNeeded : nat) (nums dist : list Z) :
  length (pushWhileShort numbersNeeded dist nums) =
    if (length dist <? numbersNeeded)%nat
    then Nat.min numbersNeeded (length dist + length nums)
    else length dist.
Proof.
  unfold pushWhileShort. revert dist.
  induction nums as [|num nums IH]; intros dist; cbn [fold_left].
  - destruct (Nat.ltb_spec (length dist) numbersNeeded); simpl; lia.
  - rewrite IH.
    destruct (Nat.ltb_spec (length dist) numbersNeeded) as [Hlt|Hge].
    + rewrite length_app. simpl.
      destruct (Nat.ltb_spec (length dist + 1) numbersNeeded); lia.
    + destruct (Nat.ltb_spec (length dist) numbersNeeded); [lia | reflexivity].
Qed.

Lemma extendDistribution_enough (fuel numbersNeeded : nat) (dist : list Z) :
  (numbersNeeded <= length dist + fuel)%nat ->
  (numbersNeeded <= length (extendDistribution fuel numbersNeeded dist))%nat.
Proof.
  revert dist. induction fuel as [|fuel IH]; intros dist Hle; cbn [extendDistribution].
  - lia.
  - destruct (Nat.ltb_spec (length dist) numbersNeeded) as [Hlt|Hge]; [|lia].
    apply IH. rewrite pushWhileShort_length.
    destruct (Nat.ltb_spec (length dist) numbersNeeded); simpl; lia.
Qed.

(** C2. On a board with one entry for a cell, the number assignment ends
    without an exception, and the map it produces has exactly one entry for
    each cell whose tile is neither desert nor water (gold included) and no
    entry for any other cell, whatever the random draws are. *)
Theorem assignNumbers_total_on_eligible
  (rnd : nat -> nat) (sortRandom : nat -> list Z -> list Z * nat)
  (mapSize : Z) (newBoard : JMap Hex.t) (c : nat) :
  List.NoDup (jkeys newBoard) ->
  exists nums c',
    assignNumbers rnd sortRandom mapSize newBoard c = Some (nums, c') /\
    List.NoDup (jkeys nums) /\
    forall k, (exists n, jget nums k = Some n) <-> eligible newBoard k.
Proof.
  intros Hnd.
  destruct (assignNumbers_keys rnd sortRandom mapSize newBoard c)
    as (nums & c' & Heq & Hnd' & Hkeys).
  exists nums, c'. split; [exact Heq|]. split; [exact Hnd'|].
  intros k. rewrite jget_Some_keys, Hkeys. now apply numberTilesOf_keys.
Qed.

Lemma extendDistribution_fuel (numbersNeeded : nat) :
  (numbersNeeded <=
   length (extendDistribution numbersNeeded numbersNeeded baseNumbers))%nat.
Proof. apply extendDistribution_enough. lia. Qed.

Lemma assignNumbers_total_on_eligible_witness :
  let b : JMap Hex.t :=
    [ ((0, 0), Hex.mk 0 0 (Some gold) false);
      ((0, 1), Hex.mk 0 1 (Some desert) false);
      ((1, 0), Hex.mk 1 0 (Some forest) false);
      ((1, 1), Hex.mk 1 1 (Some water) false) ] in
  List.NoDup (jkeys b) /\
  exists nums c',
    assignNumbers zeroDraws keepOrder 2 b 0 = Some (nums, c') /\
    List.NoDup (jkeys nums) /\
    forall k, (exists n, jget nums k = Some n) <-> eligible b k.
Proof.
  intros b.
  assert (Hnd : List.NoDup (jkeys b)).
  { apply NoDup_ListNoDup, (bool_decide_unpack (NoDup (jkeys b))).
    vm_compute. exact I. }
  split; [exact Hnd|].
  exact (assignNumbers_total_on_eligible zeroDraws keepOrder 2 b 0 Hnd).
Defined.

(** ** Tiles in the queue and on the board *)

Lemma jset_In {V : Type} (m : JMap V) (k : Cell) (v : V) (e : Cell * V) :
  In e (jset m k v) -> e = (k, v) \/ In e m.
Proof.
  induction m as [|[k0 v0] m IH]; simpl.
  - intros [<-|[]]. now left.
  - destruct (decide (k0 = k)) as [->|Hne]; simpl.
    + intros [<-|Hin]; auto.
    + intros [<-|Hin]; auto. destruct (IH Hin); auto.
Qed.

Lemma free_cell_absent (b : JMap Hex.t) (k : Cell) :
  List.Forall (fun e : Cell * Hex.t => Hex.terrain (snd e) <> None) b ->
  occupied b k = false -> jget b k = None.
Proof.
  intros Hall Hocc. unfold occupied in Hocc.
  destruct (jget b k) as [hex|] eqn:Hget; [|reflexivity].
  apply jget_In in Hget. rewrite List.Forall_forall in Hall.
  specialize (Hall _ Hget). simpl in Hall.
  destruct (Hex.terrain hex); [discriminate | congruence].
Qed.

(** C5, evaluated. A game with a bag of one tile: queue and board hold 1
    tile at the start. The tile is dropped: the board holds it, and the
    queue, the current tile and the remaining counts still hold it, so
    queue and board together count 2 tiles where 1 was configured. Until
    the timeout for the final board fires the tile can be dropped again:
    moved one column to the right and dropped, it is on the board twice,
    and when both timeouts have fired the final board shows two numbers.
    In the base game, a pause and a resume after the first drop fill the
    queue with all 19 tiles again, beside the tile on the board. *)
Theorem last_tile_is_never_drawn :
  let start := startGame zeroDraws (generateCatanBoard 2) oneTileCount 0 in
  let once := baseRun [KeyDown Space] start in
  let twice := baseRun [KeyDown Space; KeyDown ArrowRight; KeyDown Space] start in
  let ended := baseRun [KeyDown Space; KeyDown ArrowRight; KeyDown Space;
                        FinalTimeout; FinalTimeout] start in
  let resumed := baseRun [KeyDown Space; Pause; Play] baseGame in
  (TileCount.total oneTileCount = 1%nat /\ tilesInPlay start = 1%nat) /\
  (jkeys (board once) = [(0, 2)] /\
   tileQueue (queue once) = [field] /\
   currentTile (queue once) = Some field /\
   TileCount.field (remainingTiles (queue once)) = 1%nat /\
   showFinalBoard once = false /\
   tilesInPlay once = 2%nat) /\
  (jkeys (board twice) = [(0, 2); (1, 1)] /\ tilesInPlay twice = 3%nat) /\
  (showFinalBoard ended = true /\
   boardNumbers ended = [((0, 2), 2); ((1, 1), 3)] /\
   tileQueue (queue ended) = [field]) /\
  (TileCount.total baseGameCount = 19%nat /\
   jsize (board resumed) = 1%nat /\
   length (tileQueue (queue resumed)) = 19%nat /\
   tilesInPlay resumed = 20%nat).
Proof.
  intros start once twice ended resumed.
  repeat split; vm_compute; reflexivity.
Qed.

(** ** The model on small inputs *)

Example columnHexes_centre :
  map cellOf (columnHexes (generateCatanBoard 2) 0) =
    [(0, -2); (0, -1); (0, 0); (0, 1); (0, 2)].
Proof. vm_compute. reflexivity. Qed.

Example spawn_positions_size2 :
  getValidSpawnPositions (generateCatanBoard 2) =
    [(0, -4); (1, -4); (-1, -4); (2, -4); (-2, -4)].
Proof. vm_compute. reflexivity. Qed.

Example targetRow_empty_column :
  targetRow [] (columnHexes (generateCatanBoard 2) 2) = Some 0.
Proof. vm_compute. reflexivity. Qed.

Example five_ticks_fall :
  tilePosition (baseRun [DropTimer; DropTimer; DropTimer; DropTimer; DropTimer]
                  baseGame) = (0, 1) /\
  jkeys (board (baseRun [DropTimer; DropTimer; DropTimer; DropTimer; DropTimer;
                         DropTimer] baseGame)) = [(0, 2)].
Proof. split; vm_compute; reflexivity. Qed.

Example three_hard_drops_stack :
  jkeys (board (baseRun [KeyDown Space; KeyDown Space; KeyDown Space] baseGame))
    = [(0, 2); (0, 1); (0, 0)].
Proof. vm_compute. reflexivity. Qed.

Example move_right_then_drop :
  jkeys (board (baseRun [KeyDown ArrowRight; KeyDown Space] baseGame)) = [(1, 1)].
Proof. vm_compute. reflexivity. Qed.

Example spawn_timeout_spawns :
  let st := baseRun [KeyDown ArrowRight; KeyDown Space] baseGame in
  tilePosition st = (1, -4) /\ spawnTimeouts st = [(true, true)] /\
  tilePosition (baseRun [SpawnTimeout] st) = (0, -4) /\
  spawnTimeouts (baseRun [SpawnTimeout] st) = [].
Proof. repeat split; vm_compute; reflexivity. Qed.

Example one_tile_game_numbers :
  let st := baseRun [KeyDown Space]
              (startGame zeroDraws (generateCatanBoard 2) oneTileCount 0) in
  showFinalBoard st = false /\ isPlaying st = true /\
  showFinalBoard (baseRun [FinalTimeout] st) = true /\
  isPlaying (baseRun [FinalTimeout] st) = false /\
  boardNumbers (baseRun [FinalTimeout] st) = [((0, 2), 2)] /\
  showFinalBoard (baseRun [FinalTimeout; ViewBoard] st) = false.
Proof. repeat split; vm_compute; reflexivity. Qed.

(** ** Handlers as sequences of state changes *)

Lemma reaches_one (R : GameState -> GameState -> Prop) (st st' : GameState) :
  R st st' -> reaches R st st'.
Proof. intros H. eapply reaches_step; [apply reaches_refl | exact H]. Qed.

Lemma reaches_trans (R : GameState -> GameState -> Prop)
  (st1 st2 st3 : GameState) :
  reaches R st1 st2 -> reaches R st2 st3 -> reaches R st1 st3.
Proof.
  intros H12 H23. induction H23 as [|st2 st3 st4 _ IH Hstep]; [exact H12|].
  eapply reaches_step; [apply IH, H12 | exact Hstep].
Qed.

Lemma reaches_mono (R R' : GameState -> GameState -> Prop)
  (st st' : GameState) :
  (forall s s', R s s' -> R' s s') -> reaches R st st' -> reaches R' st st'.
Proof.
  intros Hsub H. induction H as [|s1 s2 s3 _ IH Hstep]; [apply reaches_refl|].
  eapply reaches_step; [exact IH | apply Hsub, Hstep].
Qed.

(** A property kept by every state change holds all along a run. *)
Lemma reaches_ind_inv (R : GameState -> GameState -> Prop)
  (P : GameState -> Prop) (st st' : GameState) :
  (forall s s', P s -> R s s' -> P s') ->
  reaches R st st' -> P st -> P st'.
Proof.
  intros Hkeep Hreach Hst. induction Hreach as [|s1 s2 s3 _ IH Hstep]; [exact Hst|].
  eapply Hkeep; [apply IH, Hst | exact Hstep].
Qed.

Lemma getNextTile_cases (s : QueueState) :
  (hasMoreTiles s = false /\ getNextTile s = (None, s)) \/
  (hasMoreTiles s = true /\ exists t, fst (getNextTile s) = Some t).
Proof.
  unfold hasMoreTiles, getNextTile.
  destruct (Nat.leb_spec (length (tileQueue s)) 1) as [Hle|Hgt].
  - left. split; [|reflexivity]. apply Nat.ltb_ge. exact Hle.
  - right. split; [now apply Nat.ltb_lt|].
    destruct (lookup_lt_is_Some_2 (tileQueue s) 1%nat Hgt) as [t Ht].
    exists t. exact Ht.
Qed.

Lemma active_guard (st : GameState) :
  negb (hasTile st) || negb (isPlaying st) || showFinalBoard st = negb (active st).
Proof.
  unfold active. destruct (hasTile st), (isPlaying st), (showFinalBoard st);
    reflexivity.
Qed.

Lemma active_inv (st : GameState) :
  active st = true ->
  hasTile st = true /\ isPlaying st = true /\ showFinalBoard st = false.
Proof.
  unfold active. destruct (hasTile st), (isPlaying st), (showFinalBoard st);
    simpl; intros; try discriminate; auto.
Qed.

Section MicroFacts.

Variable rnd : nat -> nat.
Variable sortRandom : nat -> list Z -> list Z * nat.
Variable mapSize : Z.
Variable hexes : list Hex.t.

#[local] Abbreviation quiet := (reaches (micro rnd sortRandom mapSize hexes)).
#[local] Abbreviation reach := (reaches (change rnd sortRandom mapSize hexes)).

Lemma quiet_reach (st st' : GameState) : quiet st st' -> reach st st'.
Proof. apply reaches_mono. intros s s'. apply change_micro. Qed.

Lemma spawnClosure_reaches (playing more : bool) (st : GameState) :
  quiet st (spawnClosure rnd hexes playing more st).
Proof.
  unfold spawnClosure.
  destruct (negb playing || negb more); [apply reaches_refl|].
  destruct (Nat.ltb_spec 0 (length (getValidSpawnPositions hexes)));
    [|apply reaches_refl].
  destruct (lookup_lt_is_Some_2 (getValidSpawnPositions hexes) _
              (randomIndex_lt (rnd (cursor st)) _ H)) as [p Hp].
  rewrite Hp. apply reaches_one, micro_spawn.
  eapply lookup_In, Hp.
Qed.

Lemma spawnNewTile_reaches (more : bool) (st : GameState) :
  quiet st (spawnNewTile rnd hexes more st).
Proof. apply spawnClosure_reaches. Qed.

Lemma placeTile_reaches (targetR : Z) (st : GameState) :
  isPlaying st = true -> showFinalBoard st = false ->
  targetRow (board st) (columnHexes hexes (fst (tilePosition st))) = Some targetR ->
  quiet st (placeTile rnd sortRandom mapSize hexes (fst (tilePosition st)) targetR st).
Proof.
  intros Hplay Hfinal Htarget. unfold placeTile.
  destruct (currentTile (queue st)) as [tile|] eqn:Hcur; [|apply reaches_refl].
  destruct (isValidPosition hexes _ targetR) eqn:Hvalid; [|apply reaches_refl].
  cbn [negb].
  destruct (occupied (board st) _) eqn:Hocc; [apply spawnNewTile_reaches|].
  fold (boardWith st (fst (tilePosition st)) targetR tile).
  destruct (getNextTile_cases (queue st)) as [[Hmore Hget]|[Hmore [t Ht]]].
  - rewrite Hget. apply reaches_one.
    exact (micro_lastCommit rnd sortRandom mapSize hexes st tile targetR
             Hplay Hfinal Hcur Htarget Hvalid Hocc Hmore).
  - destruct (getNextTile (queue st)) as [next queue'] eqn:Hget.
    simpl in Ht. subst next.
    assert (Hcommit : micro rnd sortRandom mapSize hexes st
              (setSpawnTimeouts
                 (spawnTimeouts st ++ [(isPlaying st, hasMoreTiles (queue st))])
                 (setQueue queue'
                    (setBoard (boardWith st (fst (tilePosition st)) targetR tile)
                       st)))).
    { replace queue' with (snd (getNextTile (queue st))) by now rewrite Hget.
      now apply micro_commit. }
    eapply reaches_trans; [apply reaches_one, Hcommit|].
    destruct (bool_decide _); [apply reaches_refl | apply spawnNewTile_reaches].
Qed.

(** Every event but [Play] is a sequence of the state changes of
    [micro]. *)
Lemma step_quiet (e : Event) (st : GameState) :
  isPlay e = false ->
  quiet st (step rnd sortRandom mapSize hexes e st).
Proof.
  intros Hplay0.
  destruct e as [key|key| | |q r| | | | |]; cbn [step]; [..|discriminate].
  - unfold handleKeyDown. rewrite active_guard.
    destruct (active st) eqn:Hact; [|apply reaches_refl]. cbn [negb].
    destruct (active_inv st Hact) as (Htile & Hplay & Hfinal).
    destruct key.
    + unfold moveTile. destruct (canMoveTo _ _ _) eqn:Hmove; [|apply reaches_refl].
      now apply reaches_one, micro_move.
    + unfold moveTile. destruct (canMoveTo _ _ _) eqn:Hmove; [|apply reaches_refl].
      now apply reaches_one, micro_move.
    + now apply reaches_one, micro_softDrop.
    + unfold hardDrop. rewrite Htile, Hplay. cbn [negb orb].
      destruct (targetRow _ _) as [t|] eqn:Htarget; [|apply reaches_refl].
      now apply placeTile_reaches.
    + now apply reaches_one, micro_turn.
    + apply reaches_refl.
  - destruct key; try apply reaches_refl. apply reaches_one, micro_release.
  - unfold autoDropTile. rewrite active_guard.
    destruct (active st) eqn:Hact; [|apply reaches_refl]. cbn [negb].
    destruct (active_inv st Hact) as (Htile & Hplay & Hfinal).
    destruct (targetRow _ _) as [t|] eqn:Htarget; [|apply reaches_refl].
    destruct (Z.geb_spec (snd (tilePosition st) + 1) t) as [Hge|Hlt].
    + now apply placeTile_reaches.
    + apply reaches_one. eapply micro_fall; eauto.
  - unfold speedUp. destruct (isPlaying st) eqn:Hplay; [|apply reaches_refl].
    now apply reaches_one, micro_ramp.
  - unfold handleBoardClick. rewrite active_guard.
    destruct (active st) eqn:Hact; [|apply reaches_refl]. cbn [negb].
    destruct (isValidPosition hexes q r) eqn:Hvalid; [|apply reaches_refl].
    cbn [negb].
    destruct (occupied _ _) eqn:Hocc; [apply spawnNewTile_reaches|].
    now apply reaches_one, micro_click.
  - unfold fireSpawnTimeout.
    destruct (spawnTimeouts st) as [|[playing more] rest] eqn:Hpending;
      [apply reaches_refl|].
    eapply reaches_trans; [|apply spawnClosure_reaches].
    eapply reaches_one, micro_spawnTimeout, Hpending.
  - unfold fireFinalTimeout.
    destruct (finalTimeouts st) as [|newBoard rest] eqn:Hpending;
      [apply reaches_refl|].
    unfold finishBoard. cbn [cursor setFinalTimeouts].
    destruct (assignNumbers rnd sortRandom mapSize newBoard (cursor st))
      as [[newNumbers c]|] eqn:Hassign; apply reaches_one.
    + now apply (micro_finalTimeout rnd sortRandom mapSize hexes st newBoard).
    + now apply (micro_finalThrows rnd sortRandom mapSize hexes st newBoard).
  - unfold viewBoard. destruct (showFinalBoard st) eqn:Hshown;
      [|apply reaches_refl].
    now apply reaches_one, micro_view.
  - unfold pause. destruct (isPlaying st) eqn:Hplay; [|apply reaches_refl].
    now apply reaches_one, micro_pause.
Qed.

Lemma spawnClosure_setQueue (playing more : bool) (s : QueueState)
  (st : GameState) :
  setQueue s (spawnClosure rnd hexes playing more st) =
  spawnClosure rnd hexes playing more (setQueue s st).
Proof.
  unfold spawnClosure. cbn [cursor setQueue].
  destruct (negb playing || negb more); [reflexivity|].
  destruct (0 <? _)%nat; [|reflexivity].
  destruct (_ !! _); reflexivity.
Qed.

(** [Play] fills the queue again and spawns. *)
Lemma resume_from_refilled (st : GameState) :
  isPlaying st = false -> quiet (refilled rnd st) (resume rnd hexes st).
Proof.
  intros Hplay. unfold resume, refilled. rewrite Hplay.
  destruct (initQueue rnd (tileCount st) (queue st) (cursor st)) as [queue' c'].
  cbv zeta. cbn [fst snd].
  set (stA := setCursor c' (setIsPlaying true st)).
  assert (HA : quiet (setQueue queue' stA)
                 (setQueue queue'
                    (if hasTile stA
                     then spawnNewTile rnd hexes (hasMoreTiles (queue st)) stA
                     else stA))).
  { destruct (hasTile stA); [|apply reaches_refl].
    unfold spawnNewTile. rewrite spawnClosure_setQueue.
    apply spawnClosure_reaches. }
  destruct (bool_decide _); [exact HA|].
  destruct (hasTile (setQueue queue' _)); [|exact HA].
  eapply reaches_trans; [exact HA | apply spawnNewTile_reaches].
Qed.

Lemma resume_reaches (st : GameState) : reach st (resume rnd hexes st).
Proof.
  destruct (isPlaying st) eqn:Hplay.
  - unfold resume. rewrite Hplay. apply reaches_refl.
  - eapply reaches_trans; [apply reaches_one, change_refill, Hplay|].
    now apply quiet_reach, resume_from_refilled.
Qed.

(** Every event is a sequence of the state changes of [change]. *)
Lemma step_reaches (e : Event) (st : GameState) :
  reach st (step rnd sortRandom mapSize hexes e st).
Proof.
  destruct (isPlay e) eqn:Hplay.
  - destruct e; try discriminate. apply resume_reaches.
  - now apply quiet_reach, step_quiet.
Qed.

Lemma run_reaches (events : list Event) (st : GameState) :
  reach st (run rnd sortRandom mapSize hexes events st).
Proof.
  revert st. induction events as [|e events IH]; intros st; cbn [run fold_left].
  - apply reaches_refl.
  - eapply reaches_trans; [apply step_reaches | apply IH].
Qed.

Lemma run_quiet (events : list Event) (st : GameState) :
  forallb (fun e => negb (isPlay e)) events = true ->
  quiet st (run rnd sortRandom mapSize hexes events st).
Proof.
  revert st. induction events as [|e events IH]; intros st Hno;
    cbn [run fold_left].
  - apply reaches_refl.
  - cbn [forallb] in Hno. apply andb_true_iff in Hno as [He Hno].
    apply negb_true_iff in He.
    apply (reaches_trans _ _ (step rnd sortRandom mapSize hexes e st));
      [apply step_quiet, He | apply IH, Hno].
Qed.

End MicroFacts.

(** ** Board, queue and numbers along a session *)

Lemma jset_fresh {V : Type} (m : JMap V) (k : Cell) (v : V) :
  jget m k = None -> jset m k v = m ++ [(k, v)].
Proof.
  induction m as [|[k0 v0] m IH]; simpl; [reflexivity|].
  destruct (decide (k0 = k)) as [->|Hne]; [discriminate|].
  intros Hget. now rewrite IH.
Qed.

Lemma boardTerrains_app (b1 b2 : JMap Hex.t) :
  boardTerrains (b1 ++ b2) = boardTerrains b1 ++ boardTerrains b2.
Proof. unfold boardTerrains. apply flat_map_app. Qed.

Lemma TileCount_get_set (c : TileCount.t) (k k' : TerrainType) (n : nat) :
  TileCount.get (TileCount.set c k n) k' =
    if decide (k = k') then n else TileCount.get c k'.
Proof. destruct k, k'; reflexivity. Qed.

Lemma entryOk_terrain (hexes : list Hex.t) (b : JMap Hex.t) :
  List.Forall (entryOk hexes) b ->
  List.Forall (fun e : Cell * Hex.t => Hex.terrain (snd e) <> None) b.
Proof. apply Forall_impl. intros e He. apply He. Qed.

(** The cases of a state change, with the names of what each one brings. *)
Ltac micro_cases Hstep :=
  destruct Hstep as
    [st p Hp
    |st newQ Hact Hmove
    |st targetR Hact Htarget Hlt
    |st q r Hact Hvalid Hocc
    |st Hact
    |st Hact
    |st
    |st Hplay
    |st tile targetR Hplay Hshow Htile Htarget Hvalid Hocc Hmore
    |st tile targetR Hplay Hshow Htile Htarget Hvalid Hocc Hmore
    |st x rest Hpending
    |st newBoard rest newNumbers c Hpending Hassign
    |st newBoard rest Hpending Hassign
    |st Hshown
    |st Hplay].

Section SessionFacts.

Variable rnd : nat -> nat.
Variable sortRandom : nat -> list Z -> list Z * nat.
Variable mapSize : Z.
Variable hexes : list Hex.t.

#[local] Abbreviation inv := (sessionWf rnd sortRandom mapSize hexes).

Lemma boardWith_wf (st : GameState) (q r : Z) (tile : TerrainType) :
  boardWf hexes (board st) ->
  isValidPosition hexes q r = true ->
  boardWf hexes (boardWith st q r tile).
Proof.
  intros [Hnd Hall] Hvalid. split; [now apply jset_NoDup|].
  rewrite List.Forall_forall in *. intros e He.
  apply jset_In in He as [->|He]; [|auto].
  repeat split; [discriminate | exact Hvalid].
Qed.

Lemma boardWith_fresh (st : GameState) (q r : Z) (tile : TerrainType) :
  boardWf hexes (board st) ->
  occupied (board st) (q, r) = false ->
  boardWith st q r tile = board st ++ [((q, r), Hex.mk q r (Some tile) false)].
Proof.
  intros [_ Hall] Hocc. apply jset_fresh.
  apply free_cell_absent; [|exact Hocc]. now apply (entryOk_terrain hexes).
Qed.

Lemma boardWith_terrains (st : GameState) (q r : Z) (tile : TerrainType) :
  boardWf hexes (board st) ->
  occupied (board st) (q, r) = false ->
  boardTerrains (boardWith st q r tile) = boardTerrains (board st) ++ [tile].
Proof.
  intros Hwf Hocc. rewrite (boardWith_fresh _ _ _ _ Hwf Hocc).
  now rewrite boardTerrains_app.
Qed.

Lemma boardWith_size (st : GameState) (q r : Z) (tile : TerrainType) :
  boardWf hexes (board st) ->
  occupied (board st) (q, r) = false ->
  jsize (boardWith st q r tile) = S (jsize (board st)).
Proof.
  intros Hwf Hocc. rewrite (boardWith_fresh _ _ _ _ Hwf Hocc).
  unfold jsize. rewrite length_app. simpl. lia.
Qed.

(** A board of an earlier commit stays one when the board grows. *)
Lemma boardOfLastCommit_grow (st st' : GameState) (b : JMap Hex.t)
  (more : JMap Hex.t) :
  board st' = board st ++ more -> tileCount st' = tileCount st ->
  boardOfLastCommit st b -> boardOfLastCommit st' b.
Proof.
  intros Hb Ht [[rest Hrest] Hsize]. split.
  - exists (rest ++ more). now rewrite Hb, Hrest, <- app_assoc.
  - now rewrite Ht.
Qed.

Lemma numbersInStep_grow (st st' : GameState) (more : JMap Hex.t) :
  board st' = board st ++ more -> tileCount st' = tileCount st ->
  boardNumbers st' = boardNumbers st -> showFinalBoard st' = showFinalBoard st ->
  numbersInStep rnd sortRandom mapSize st ->
  numbersInStep rnd sortRandom mapSize st'.
Proof.
  intros Hb Ht Hn Hf [[Hnone Hshow]|(b & c0 & c1 & Hlast & Hassign)].
  - left. now rewrite Hn, Hf.
  - right. exists b, c0, c1. split.
    + now apply (boardOfLastCommit_grow st st' b more).
    + now rewrite Hn.
Qed.

Lemma commit_queueInStep (st : GameState) (b : JMap Hex.t)
  (l : list (bool * bool)) (tile : TerrainType) :
  queueInStep st ->
  currentTile (queue st) = Some tile ->
  hasMoreTiles (queue st) = true ->
  queueInStep
    (setSpawnTimeouts l (setQueue (snd (getNextTile (queue st))) (setBoard b st))).
Proof.
  intros (Hcur & Hnext & Hcount & Hlen) Htile Hmore.
  unfold hasMoreTiles in Hmore. apply Nat.ltb_lt in Hmore.
  unfold getNextTile.
  destruct (Nat.leb_spec (length (tileQueue (queue st))) 1) as [Hle|_]; [lia|].
  cbn [snd]. unfold queueInStep.
  cbn [queue setSpawnTimeouts setQueue setBoard tileCount tileQueue currentTile
         nextTile remainingTiles].
  rewrite Htile in *.
  destruct (tileQueue (queue st)) as [|t0 rest] eqn:Htq; [simpl in Hmore; lia|].
  simpl in Hcur. injection Hcur as <-.
  change (drop 1 (tile :: rest)) with rest.
  split; [reflexivity|]. split; [|split].
  - destruct (Nat.ltb_spec 1 (length rest)) as [_|Hshort]; [reflexivity|].
    symmetry. apply lookup_ge_None. exact Hshort.
  - intros t. rewrite TileCount_get_set, !Hcount.
    destruct (decide (tile = t)) as [->|Hne].
    + rewrite count_occ_cons_eq by reflexivity. reflexivity.
    + rewrite count_occ_cons_neq by exact Hne. reflexivity.
  - simpl in Hlen. lia.
Qed.

(** Every state change of [micro] keeps the session invariant. *)
Lemma micro_sessionWf (s s' : GameState) :
  inv s -> micro rnd sortRandom mapSize hexes s s' -> inv s'.
Proof.
  intros Hwf Hstep.
  micro_cases Hstep; try exact Hwf;
    destruct Hwf as (Hb & Hq & Hsum & Hfinals & Hn).
  - (* commit *)
    pose proof (boardWith_fresh st _ _ tile Hb Hocc) as Hfresh.
    pose proof (boardWith_size st _ _ tile Hb Hocc) as Hsize.
    split; [|split; [|split; [|split]]].
    + now apply boardWith_wf.
    + now apply (commit_queueInStep st _ _ tile).
    + cbn [board queue tileCount setSpawnTimeouts setQueue setBoard].
      rewrite Hsize. unfold getNextTile.
      unfold hasMoreTiles in Hmore. apply Nat.ltb_lt in Hmore.
      destruct (Nat.leb_spec (length (tileQueue (queue st))) 1); [lia|].
      cbn [snd tileQueue]. rewrite length_drop. lia.
    + eapply Forall_impl; [|exact Hfinals]. intros b0 Hb0.
      eapply boardOfLastCommit_grow; [exact Hfresh | reflexivity | exact Hb0].
    + eapply numbersInStep_grow;
        [exact Hfresh | reflexivity | reflexivity | reflexivity | exact Hn].
  - (* last commit *)
    pose proof (boardWith_fresh st _ _ tile Hb Hocc) as Hfresh.
    pose proof (boardWith_size st _ _ tile Hb Hocc) as Hsize.
    split; [|split; [|split; [|split]]].
    + now apply boardWith_wf.
    + exact Hq.
    + cbn [board queue tileCount setFinalTimeouts setBoard].
      rewrite Hsize. lia.
    + cbn [finalTimeouts setFinalTimeouts]. apply Forall_app. split.
      * eapply Forall_impl; [|exact Hfinals]. intros b0 Hb0.
        eapply boardOfLastCommit_grow; [exact Hfresh | reflexivity | exact Hb0].
      * constructor; [|constructor]. split.
        -- exists []. cbn [board setFinalTimeouts setBoard].
           now rewrite app_nil_r.
        -- cbn [tileCount setFinalTimeouts setBoard]. rewrite Hsize.
           unfold hasMoreTiles in Hmore. apply Nat.ltb_ge in Hmore. lia.
    + eapply numbersInStep_grow;
        [exact Hfresh | reflexivity | reflexivity | reflexivity | exact Hn].
  - (* a timeout for the final board fires *)
    rewrite Hpending in Hfinals.
    apply Forall_cons_iff in Hfinals as [Hlast Hrest].
    split; [exact Hb|]. split; [exact Hq|]. split; [exact Hsum|].
    split; [exact Hrest|].
    right. exists newBoard, (cursor st), c. split; [exact Hlast | exact Hassign].
  - (* it throws *)
    rewrite Hpending in Hfinals.
    apply Forall_cons_iff in Hfinals as [_ Hrest].
    split; [exact Hb|]. split; [exact Hq|]. split; [exact Hsum|].
    split; [exact Hrest | exact Hn].
  - (* View Board *)
    split; [exact Hb|]. split; [exact Hq|]. split; [exact Hsum|].
    split; [exact Hfinals|].
    destruct Hn as [[_ Hnot]|Hassigned]; [congruence|].
    right. exact Hassigned.
Qed.

(** The queue after the effect of [useTileQueue]. *)
Lemma refilled_queue (st : GameState) :
  currentTile (queue st) = tileQueue (queue st) !! 0%nat ->
  nextTile (queue st) = tileQueue (queue st) !! 1%nat ->
  (length (tileQueue (queue st)) <= TileCount.total (tileCount st))%nat ->
  queueInStep (refilled rnd st) /\
  length (tileQueue (queue (refilled rnd st))) = TileCount.total (tileCount st) /\
  tileQueue (queue (refilled rnd st)) =
    fst (generateTileBag rnd (tileCount st) (cursor st)).
Proof.
  intros Hcur Hnext Hlen.
  assert (Hperm : fst (generateTileBag rnd (tileCount st) (cursor st))
                    ≡ₚ orderedBag (tileCount st))
    by apply shuffleFrom_Permutation.
  pose proof (Permutation_length Hperm) as Hbag.
  rewrite orderedBag_length in Hbag.
  unfold refilled, initQueue.
  destruct (generateTileBag rnd (tileCount st) (cursor st)) as [bag c'].
  cbn [fst snd] in *. unfold queueInStep.
  cbn [queue setQueue setCursor setIsPlaying tileCount tileQueue currentTile
         nextTile remainingTiles].
  split; [|split; [exact Hbag | reflexivity]].
  destruct (Nat.ltb_spec 0 (length bag)) as [Hpos|Hzero].
  - split; [reflexivity|]. split; [|split; [|lia]].
    + destruct (Nat.ltb_spec 1 (length bag)) as [_|Hshort]; [reflexivity|].
      symmetry. apply lookup_ge_None. exact Hshort.
    + intros t.
      rewrite (proj1 (Permutation_count_occ TerrainType_eq_dec _ _) Hperm t).
      symmetry. apply orderedBag_count.
  - assert (Hempty : tileQueue (queue st) = [])
      by (destruct (tileQueue (queue st)); [reflexivity | simpl in Hlen; lia]).
    rewrite Hempty in Hcur, Hnext.
    destruct bag; [|simpl in Hzero; lia].
    split; [exact Hcur|]. split; [exact Hnext|]. split; [|lia].
    intros t.
    rewrite (proj1 (Permutation_count_occ TerrainType_eq_dec _ _) Hperm t).
    symmetry. apply orderedBag_count.
Qed.

Lemma change_sessionWf (s s' : GameState) :
  inv s -> change rnd sortRandom mapSize hexes s s' -> inv s'.
Proof.
  intros Hwf Hch. destruct Hch as [st st' Hstep|st Hplay];
    [exact (micro_sessionWf st st' Hwf Hstep)|].
  destruct Hwf as (Hb & (Hcur & Hnext & _ & Hlen) & _ & Hfinals & Hn).
  destruct (refilled_queue st Hcur Hnext Hlen) as (Hq & Hfull & _).
  split; [exact Hb|]. split; [exact Hq|]. split.
  - rewrite Hfull. cbn [tileCount refilled setQueue setCursor setIsPlaying]. lia.
  - split; [exact Hfinals | exact Hn].
Qed.

Lemma freshGame_reaches_start (tileCount : TileCount.t) (c : nat) :
  reaches (micro rnd sortRandom mapSize hexes)
    (freshGame rnd tileCount c) (startGame rnd hexes tileCount c).
Proof. now apply resume_from_refilled. Qed.

(** A run of a session is a sequence of state changes from the fresh
    game. *)
Lemma session_reaches (tileCount : TileCount.t) (c : nat) (events : list Event) :
  reaches (change rnd sortRandom mapSize hexes) (freshGame rnd tileCount c)
    (run rnd sortRandom mapSize hexes events (startGame rnd hexes tileCount c)).
Proof.
  eapply reaches_trans; [|apply run_reaches].
  apply (quiet_reach rnd sortRandom mapSize hexes), freshGame_reaches_start.
Qed.

(** With no [Play] among the events, the queue is never filled again. *)
Lemma session_quiet (tileCount : TileCount.t) (c : nat) (events : list Event) :
  forallb (fun e => negb (isPlay e)) events = true ->
  reaches (micro rnd sortRandom mapSize hexes) (freshGame rnd tileCount c)
    (run rnd sortRandom mapSize hexes events (startGame rnd hexes tileCount c)).
Proof.
  intros Hno.
  eapply reaches_trans; [apply freshGame_reaches_start | now apply run_quiet].
Qed.

Lemma freshGame_bag (tileCount : TileCount.t) (c : nat) :
  tileQueue (queue (freshGame rnd tileCount c)) =
    fst (generateTileBag rnd tileCount c).
Proof.
  unfold freshGame.
  now destruct (refilled_queue (mountState tileCount c) eq_refl eq_refl
                  (Nat.le_0_l _)) as (_ & _ & Hbag).
Qed.

Lemma freshGame_sessionWf (tileCount : TileCount.t) (c : nat) :
  inv (freshGame rnd tileCount c).
Proof.
  unfold freshGame.
  destruct (refilled_queue (mountState tileCount c) eq_refl eq_refl
              (Nat.le_0_l _)) as (Hq & Hfull & _).
  split; [split; constructor|]. split; [exact Hq|]. split.
  - rewrite Hfull. cbn. lia.
  - split; [constructor|]. left. split; reflexivity.
Qed.

Lemma session_sessionWf (tileCount : TileCount.t) (c : nat) (events : list Event) :
  inv (run rnd sortRandom mapSize hexes events (startGame rnd hexes tileCount c)).
Proof.
  eapply (reaches_ind_inv (change rnd sortRandom mapSize hexes) inv).
  - intros s s'. apply change_sessionWf.
  - apply session_reaches.
  - apply freshGame_sessionWf.
Qed.

(** The tile count is a prop: no change touches it. *)
Lemma change_tileCount (s s' : GameState) :
  change rnd sortRandom mapSize hexes s s' -> tileCount s' = tileCount s.
Proof.
  intros Hch. destruct Hch as [st st' Hstep|st Hplay]; [destruct Hstep|];
    reflexivity.
Qed.

Lemma session_tileCount (tileCount0 : TileCount.t) (c : nat)
  (events : list Event) :
  tileCount (run rnd sortRandom mapSize hexes events
               (startGame rnd hexes tileCount0 c)) = tileCount0.
Proof.
  apply (reaches_ind_inv (change rnd sortRandom mapSize hexes)
           (fun s => tileCount s = tileCount0) (freshGame rnd tileCount0 c)).
  - intros s s' Hs Hstep. now rewrite (change_tileCount s s' Hstep).
  - apply session_reaches.
  - reflexivity.
Qed.

End SessionFacts.

(** X1. All along a session the remaining counts count the queue: for every
    terrain kind, the remaining count is the number of tiles of that kind
    in the queue, the current tile included. *)
Theorem remaining_counts_count_the_queue
  (rnd : nat -> nat) (sortRandom : nat -> list Z -> list Z * nat)
  (mapSize : Z) (hexes : list Hex.t)
  (tileCount : TileCount.t) (c : nat) (events : list Event) (t : TerrainType) :
  let st := run rnd sortRandom mapSize hexes events
              (startGame rnd hexes tileCount c) in
  TileCount.get (remainingTiles (queue st)) t =
    count_occ TerrainType_eq_dec (tileQueue (queue st)) t.
Proof.
  intros st.
  destruct (session_sessionWf rnd sortRandom mapSize hexes tileCount c events)
    as (_ & (_ & _ & Hcount & _) & _).
  apply Hcount.
Qed.

(** X2. All along a session the current tile is the first tile of the
    queue and the next tile the second, absent when the queue is that
    short; more tiles are announced exactly when there is a next tile. *)
Theorem preview_is_the_queue_front
  (rnd : nat -> nat) (sortRandom : nat -> list Z -> list Z * nat)
  (mapSize : Z) (hexes : list Hex.t)
  (tileCount : TileCount.t) (c : nat) (events : list Event) :
  let st := run rnd sortRandom mapSize hexes events
              (startGame rnd hexes tileCount c) in
  currentTile (queue st) = tileQueue (queue st) !! 0%nat /\
  nextTile (queue st) = tileQueue (queue st) !! 1%nat /\
  hasMoreTiles (queue st) =
    match nextTile (queue st) with Some _ => true | None => false end.
Proof.
  intros st.
  destruct (session_sessionWf rnd sortRandom mapSize hexes tileCount c events)
    as (_ & (Hcur & Hnext & _) & _).
  fold st in Hcur, Hnext. split; [exact Hcur|]. split; [exact Hnext|].
  rewrite Hnext. unfold hasMoreTiles.
  destruct (Nat.ltb_spec 1 (length (tileQueue (queue st)))) as [Hlt|Hge].
  - destruct (lookup_lt_is_Some_2 _ _ Hlt) as [x ->]. reflexivity.
  - now rewrite (proj2 (lookup_ge_None _ _) Hge).
Qed.

(** ** The bag, in order *)

Lemma last_with_copies (bag : list TerrainType) (k : nat) (t : TerrainType) :
  list.last (bag ++ lastCopies bag k) = Some t -> list.last bag = Some t.
Proof.
  unfold lastCopies. destruct (list.last bag) as [x|] eqn:Hlast.
  - destruct k as [|k]; [now rewrite app_nil_r, Hlast|].
    cbn [repeat]. rewrite repeat_cons, app_assoc, last_snoc. auto.
  - now rewrite app_nil_r, Hlast.
Qed.

Lemma lastCopies_S (bag : list TerrainType) (k : nat) (t : TerrainType) :
  list.last bag = Some t ->
  lastCopies bag (S k) = lastCopies bag k ++ [t].
Proof. unfold lastCopies. intros ->. apply repeat_cons. Qed.

Section BagOrder.

Variable rnd : nat -> nat.
Variable sortRandom : nat -> list Z -> list Z * nat.
Variable mapSize : Z.
Variable hexes : list Hex.t.

(** While the queue is not filled again, board and queue keep the order of
    the bag. *)
Lemma micro_bagInOrder (bag : list TerrainType) (s s' : GameState) :
  boardWf hexes (board s) -> queueInStep s -> bagInOrder bag s ->
  micro rnd sortRandom mapSize hexes s s' -> bagInOrder bag s'.
Proof.
  intros Hb (Hcur & _) Hbag Hstep.
  micro_cases Hstep; try exact Hbag; destruct Hbag as (k & Heq & Hk).
  - (* commit *)
    unfold hasMoreTiles in Hmore. apply Nat.ltb_lt in Hmore.
    specialize (Hk Hmore). subst k. exists 0%nat.
    cbn [board queue setSpawnTimeouts setQueue setBoard].
    rewrite (boardWith_terrains hexes st _ _ tile Hb Hocc).
    unfold getNextTile.
    destruct (Nat.leb_spec (length (tileQueue (queue st))) 1); [lia|].
    cbn [snd tileQueue]. rewrite Htile in Hcur.
    destruct (tileQueue (queue st)) as [|t0 rest]; [discriminate|].
    injection Hcur as <-. change (drop 1 (tile :: rest)) with rest.
    split; [|reflexivity]. now rewrite <- app_assoc.
  - (* last commit *)
    unfold hasMoreTiles in Hmore. apply Nat.ltb_ge in Hmore.
    rewrite Htile in Hcur.
    destruct (tileQueue (queue st)) as [|t0 rest] eqn:Hqueue; [discriminate|].
    injection Hcur as <-. destruct rest; [|simpl in Hmore; lia].
    assert (Hlast : list.last bag = Some tile).
    { apply (last_with_copies bag k). rewrite <- Heq. apply last_snoc. }
    exists (S k).
    cbn [board queue setFinalTimeouts setBoard].
    rewrite (boardWith_terrains hexes st _ _ tile Hb Hocc), Hqueue.
    split; [|simpl; lia].
    rewrite (lastCopies_S bag k tile Hlast), app_assoc, <- Heq.
    reflexivity.
Qed.

Lemma session_bagInOrder (tileCount : TileCount.t) (c : nat)
  (events : list Event) :
  forallb (fun e => negb (isPlay e)) events = true ->
  bagInOrder (fst (generateTileBag rnd tileCount c))
    (run rnd sortRandom mapSize hexes events (startGame rnd hexes tileCount c)).
Proof.
  intros Hno.
  apply (reaches_ind_inv (micro rnd sortRandom mapSize hexes)
           (fun s => sessionWf rnd sortRandom mapSize hexes s /\
                     bagInOrder (fst (generateTileBag rnd tileCount c)) s)
           (freshGame rnd tileCount c)).
  - intros s s' [Hwf Hbag] Hstep. split.
    + exact (micro_sessionWf rnd sortRandom mapSize hexes s s' Hwf Hstep).
    + destruct Hwf as (Hb & Hq & _).
      exact (micro_bagInOrder _ s s' Hb Hq Hbag Hstep).
  - now apply session_quiet.
  - split; [apply freshGame_sessionWf|].
    exists 0%nat. rewrite freshGame_bag. split; [|reflexivity].
    unfold lastCopies. destruct (list.last _); now rewrite app_nil_r.
Qed.

End BagOrder.

(** X3. While play is not started again, the tiles come out of the bag in
    order and none is lost, and the last tile is never taken from the
    queue: the terrains on the board, in the order of placement, followed
    by the queue, are the shuffled bag followed by one copy of its last
    tile for each time the last tile was committed; no copy as long as the
    queue holds more than one tile. *)
Theorem board_then_queue_is_the_bag
  (rnd : nat -> nat) (sortRandom : nat -> list Z -> list Z * nat)
  (mapSize : Z) (hexes : list Hex.t)
  (tileCount : TileCount.t) (c : nat) (events : list Event) :
  forallb (fun e => negb (isPlay e)) events = true ->
  exists k,
    boardTerrains (board (run rnd sortRandom mapSize hexes events
                            (startGame rnd hexes tileCount c))) ++
    tileQueue (queue (run rnd sortRandom mapSize hexes events
                        (startGame rnd hexes tileCount c))) =
      fst (generateTileBag rnd tileCount c) ++
      lastCopies (fst (generateTileBag rnd tileCount c)) k /\
    ((1 < length (tileQueue (queue (run rnd sortRandom mapSize hexes events
                                      (startGame rnd hexes tileCount c)))))%nat ->
     k = 0%nat).
Proof. apply session_bagInOrder. Qed.

Lemma board_then_queue_is_the_bag_witness :
  forallb (fun e => negb (isPlay e))
    [KeyDown Space; KeyDown ArrowRight; KeyDown Space; FinalTimeout] = true /\
  exists k,
    boardTerrains (board (run zeroDraws keepOrder 2 (generateCatanBoard 2)
                            [KeyDown Space; KeyDown ArrowRight; KeyDown Space;
                             FinalTimeout]
                            (startGame zeroDraws (generateCatanBoard 2)
                               oneTileCount 0))) ++
    tileQueue (queue (run zeroDraws keepOrder 2 (generateCatanBoard 2)
                        [KeyDown Space; KeyDown ArrowRight; KeyDown Space;
                         FinalTimeout]
                        (startGame zeroDraws (generateCatanBoard 2)
                           oneTileCount 0))) =
      fst (generateTileBag zeroDraws oneTileCount 0) ++
      lastCopies (fst (generateTileBag zeroDraws oneTileCount 0)) k /\
    ((1 < length (tileQueue (queue (run zeroDraws keepOrder 2
                                      (generateCatanBoard 2)
                                      [KeyDown Space; KeyDown ArrowRight;
                                       KeyDown Space; FinalTimeout]
                                      (startGame zeroDraws (generateCatanBoard 2)
                                         oneTileCount 0)))))%nat ->
     k = 0%nat).
Proof.
  split; [reflexivity|].
  apply board_then_queue_is_the_bag. reflexivity.
Defined.

(** X4. All along a session the board is a well-formed map of placed
    tiles: one entry for a cell, each entry under the key of its own
    coordinates, with a terrain, and on a land cell of the layout. *)
Theorem board_entries_are_placed_tiles
  (rnd : nat -> nat) (sortRandom : nat -> list Z -> list Z * nat)
  (mapSize : Z) (hexes : list Hex.t)
  (tileCount : TileCount.t) (c : nat) (events : list Event) :
  boardWf hexes
    (board (run rnd sortRandom mapSize hexes events
              (startGame rnd hexes tileCount c))).
Proof.
  apply (session_sessionWf rnd sortRandom mapSize hexes tileCount c events).
Qed.

(** ** The numbers along a session *)



Lemma jkeys_app_NoDup {V : Type} (m rest : JMap V) :
  List.NoDup (jkeys (m ++ rest)) -> List.NoDup (jkeys m).
Proof.
  unfold jkeys. rewrite map_app. apply NoDup_app_remove_r.
Qed.

(** The numbers that are on display: none, or those of the board of a
    commit of the last tile, on its numbered tiles. *)
Lemma numbers_of_a_last_commit (rnd : nat -> nat)
  (sortRandom : nat -> list Z -> list Z * nat) (mapSize : Z)
  (hexes : list Hex.t) (st : GameState) :
  sessionWf rnd sortRandom mapSize hexes st ->
  (boardNumbers st = [] /\ showFinalBoard st = false) \/
  (exists b c0 c1,
     boardOfLastCommit st b /\ List.NoDup (jkeys b) /\
     assignNumbers rnd sortRandom mapSize b c0 = Some (boardNumbers st, c1) /\
     List.NoDup (jkeys (boardNumbers st)) /\
     (forall k, In k (jkeys (boardNumbers st)) <-> eligible b k)).
Proof.
  intros ((Hnd & _) & _ & _ & _ & [Hnone|(b & c0 & c1 & Hlast & Hassign)]);
    [now left|].
  right. exists b, c0, c1.
  assert (Hndb : List.NoDup (jkeys b)).
  { destruct Hlast as [[rest Hrest] _]. rewrite Hrest in Hnd.
    now apply jkeys_app_NoDup in Hnd. }
  destruct (assignNumbers_keys rnd sortRandom mapSize b c0)
    as (nums & c' & Heq & Hndn & Hkeys).
  rewrite Hassign in Heq. injection Heq as <- <-.
  split; [exact Hlast|]. split; [exact Hndb|]. split; [exact Hassign|].
  split; [exact Hndn|]. intros k.
  rewrite Hkeys. now apply numberTilesOf_keys.
Qed.



Section Permanence.

Variable rnd : nat -> nat.
Variable sortRandom : nat -> list Z -> list Z * nat.
Variable mapSize : Z.
Variable hexes : list Hex.t.

Lemma change_keeps_entry (k : Cell) (hex : Hex.t) (s s' : GameState) :
  boardWf hexes (board s) ->
  change rnd sortRandom mapSize hexes s s' ->
  jget (board s) k = Some hex -> jget (board s') k = Some hex.
Proof.
  intros [_ Hall] Hch Hget.
  assert (Hfree : forall q r tile, occupied (board s) (q, r) = false ->
            jget (boardWith s q r tile) k = Some hex).
  { intros q r tile Hocc. unfold boardWith. rewrite jget_jset.
    destruct (decide (@eq Cell (q, r) k)) as [<-|_]; [|exact Hget].
    rewrite (free_cell_absent _ _ (entryOk_terrain hexes _ Hall) Hocc) in Hget.
    discriminate. }
  destruct Hch as [st st' Hstep|st Hplay]; [|exact Hget].
  micro_cases Hstep; try exact Hget; now apply Hfree.
Qed.

Lemma reaches_keeps_entry (k : Cell) (hex : Hex.t) (s s' : GameState) :
  reaches (change rnd sortRandom mapSize hexes) s s' ->
  sessionWf rnd sortRandom mapSize hexes s ->
  jget (board s) k = Some hex -> jget (board s') k = Some hex.
Proof.
  intros Hreach Hwf Hget.
  apply (reaches_ind_inv (change rnd sortRandom mapSize hexes)
           (fun x => sessionWf rnd sortRandom mapSize hexes x /\
                     jget (board x) k = Some hex)
           s s'); [|exact Hreach|now split].
  intros x x' [Hx Hxget] Hstep. split.
  - eapply change_sessionWf; eauto.
  - eapply change_keeps_entry; eauto. apply Hx.
Qed.

End Permanence.

(** X6. A placed tile stays: a cell that holds a tile at some point of a
    session holds the same tile after any further events. *)
Theorem placed_tiles_stay
  (rnd : nat -> nat) (sortRandom : nat -> list Z -> list Z * nat)
  (mapSize : Z) (hexes : list Hex.t)
  (tileCount : TileCount.t) (c : nat) (events more : list Event)
  (k : Cell) (hex : Hex.t) :
  jget (board (run rnd sortRandom mapSize hexes events
                 (startGame rnd hexes tileCount c))) k = Some hex ->
  jget (board (run rnd sortRandom mapSize hexes (events ++ more)
                 (startGame rnd hexes tileCount c))) k = Some hex.
Proof.
  intros Hget. unfold run at 1. rewrite fold_left_app.
  fold (run rnd sortRandom mapSize hexes events (startGame rnd hexes tileCount c)).
  fold (run rnd sortRandom mapSize hexes more).
  eapply reaches_keeps_entry; [apply run_reaches | | exact Hget].
  apply session_sessionWf.
Qed.

Lemma placed_tiles_stay_witness :
  jget (board (run zeroDraws keepOrder 2 (generateCatanBoard 2) [KeyDown Space]
                 (startGame zeroDraws (generateCatanBoard 2) baseGameCount 0)))
    (0, 2) = Some (Hex.mk 0 2 (Some field) false) /\
  jget (board (run zeroDraws keepOrder 2 (generateCatanBoard 2)
                 ([KeyDown Space] ++ [KeyDown Space; DropTimer])
                 (startGame zeroDraws (generateCatanBoard 2) baseGameCount 0)))
    (0, 2) = Some (Hex.mk 0 2 (Some field) false).
Proof.
  assert (H : jget (board (run zeroDraws keepOrder 2 (generateCatanBoard 2)
                             [KeyDown Space]
                             (startGame zeroDraws (generateCatanBoard 2)
                                baseGameCount 0)))
                (0, 2) = Some (Hex.mk 0 2 (Some field) false))
    by (vm_compute; reflexivity).
  split; [exact H|].
  apply placed_tiles_stay. exact H.
Defined.

(** ** A game that is paused, finished or without a tile *)

Section Inactive.

Variable rnd : nat -> nat.
Variable sortRandom : nat -> list Z -> list Z * nat.
Variable mapSize : Z.
Variable hexes : list Hex.t.

Lemma step_inactive (e : Event) (st : GameState) :
  active st = false -> isInput e = true ->
  step rnd sortRandom mapSize hexes e st = st \/
  step rnd sortRandom mapSize hexes e st = setDropSpeed 1000 st \/
  (isPlaying st = true /\
   step rnd sortRandom mapSize hexes e st =
     setDropSpeed (Z.max 300 (dropSpeed st - 20)) st).
Proof.
  intros Hact Hinput.
  destruct e as [key|key| | |q r| | | | |]; try discriminate; cbn [step].
  - left. unfold handleKeyDown. now rewrite active_guard, Hact.
  - destruct key; auto.
  - left. unfold autoDropTile. now rewrite active_guard, Hact.
  - unfold speedUp. destruct (isPlaying st); auto.
  - left. unfold handleBoardClick. now rewrite active_guard, Hact.
Qed.

Lemma setDropSpeed_same (st : GameState) : setDropSpeed (dropSpeed st) st = st.
Proof. now destruct st. Qed.

Lemma run_inactive (events : list Event) (st : GameState) :
  active st = false ->
  forallb isInput events = true ->
  (exists s, run rnd sortRandom mapSize hexes events st = setDropSpeed s st) /\
  (isPlaying st = false ->
   run rnd sortRandom mapSize hexes events st = st \/
   run rnd sortRandom mapSize hexes events st = setDropSpeed 1000 st).
Proof.
  unfold run.
  revert st. induction events as [|e events IH]; intros st Hact Hinputs;
    cbn [fold_left].
  - split; [exists (dropSpeed st); now rewrite setDropSpeed_same | auto].
  - cbn [forallb] in Hinputs. apply andb_true_iff in Hinputs as [Hinput Hinputs].
    assert (Hspeed : forall s,
              active (setDropSpeed s st) = false /\
              (isPlaying st = false -> isPlaying (setDropSpeed s st) = false))
      by (intros s; split; [exact Hact | auto]).
    destruct (step_inactive e st Hact Hinput) as [->|[->|[Hplay ->]]].
    + now apply IH.
    + destruct (IH (setDropSpeed 1000 st) (proj1 (Hspeed 1000)) Hinputs)
        as [[s Hs] Hpaused].
      split; [exists s; rewrite Hs; reflexivity|].
      intros Hp. right. destruct (Hpaused Hp) as [->| ->]; reflexivity.
    + destruct (IH _ (proj1 (Hspeed (Z.max 300 (dropSpeed st - 20)))) Hinputs)
        as [[s Hs] _].
      split; [exists s; rewrite Hs; reflexivity|].
      intros Hp. congruence.
Qed.

End Inactive.

(** X7. While the game is paused, finished or without a current tile, the
    keys, the clicks and the ticks of the two interval timers change
    nothing but the drop interval: board, numbers, queue, position,
    rotation and pending timeouts stay as they are. While [isPlaying] is
    off the only change at all is the release of the soft drop key, which
    sets the interval to 1000. (A timeout that fires, the View Board
    button and the parent's play and pause are the events that do change
    such a game.) *)
Theorem inactive_game_changes_speed_only
  (rnd : nat -> nat) (sortRandom : nat -> list Z -> list Z * nat)
  (mapSize : Z) (hexes : list Hex.t) (events : list Event) (st : GameState) :
  active st = false ->
  forallb isInput events = true ->
  (exists s, run rnd sortRandom mapSize hexes events st = setDropSpeed s st) /\
  (isPlaying st = false ->
   run rnd sortRandom mapSize hexes events st = st \/
   run rnd sortRandom mapSize hexes events st = setDropSpeed 1000 st).
Proof. apply run_inactive. Qed.

Lemma inactive_game_changes_speed_only_witness :
  active (run zeroDraws keepOrder 2 (generateCatanBoard 2)
            [KeyDown Space; FinalTimeout]
            (startGame zeroDraws (generateCatanBoard 2) oneTileCount 0))
    = false /\
  forallb isInput
    [KeyDown Space; DropTimer; KeyDown ArrowLeft; KeyUp ArrowDown;
     BoardClick 0 0; SpeedTimer] = true /\
  (exists s,
     run zeroDraws keepOrder 2 (generateCatanBoard 2)
       [KeyDown Space; DropTimer; KeyDown ArrowLeft; KeyUp ArrowDown;
        BoardClick 0 0; SpeedTimer]
       (run zeroDraws keepOrder 2 (generateCatanBoard 2)
          [KeyDown Space; FinalTimeout]
          (startGame zeroDraws (generateCatanBoard 2) oneTileCount 0)) =
     setDropSpeed s
       (run zeroDraws keepOrder 2 (generateCatanBoard 2)
          [KeyDown Space; FinalTimeout]
          (startGame zeroDraws (generateCatanBoard 2) oneTileCount 0))).
Proof.
  assert (Hact : active (run zeroDraws keepOrder 2 (generateCatanBoard 2)
                           [KeyDown Space; FinalTimeout]
                           (startGame zeroDraws (generateCatanBoard 2)
                              oneTileCount 0)) = false)
    by (vm_compute; reflexivity).
  split; [exact Hact|]. split; [reflexivity|].
  apply inactive_game_changes_speed_only; [exact Hact | reflexivity].
Defined.

Lemma refilled_nothingInPlay (rnd : nat -> nat) (st : GameState) :
  TileCount.total (tileCount st) = 0%nat ->
  nothingInPlay st -> nothingInPlay (refilled rnd st).
Proof.
  intros Hzero (Hb & Hn & Hf & Hcur & Hq & Hnext & Hfinals).
  destruct (refilled_queue rnd st) as ((Hcur' & Hnext' & _) & Hlen & _).
  - now rewrite Hcur, Hq.
  - now rewrite Hnext, Hq.
  - rewrite Hq. simpl. lia.
  - rewrite Hzero in Hlen.
    assert (Hq' : tileQueue (queue (refilled rnd st)) = [])
      by now apply length_zero_iff_nil.
    rewrite Hq' in Hcur', Hnext'.
    repeat split; assumption.
Qed.

Lemma change_nothingInPlay (rnd : nat -> nat)
  (sortRandom : nat -> list Z -> list Z * nat) (mapSize : Z)
  (hexes : list Hex.t) (s s' : GameState) :
  TileCount.total (tileCount s) = 0%nat ->
  nothingInPlay s -> change rnd sortRandom mapSize hexes s s' ->
  nothingInPlay s'.
Proof.
  intros Hzero Hnone Hch.
  destruct Hch as [st st' Hstep|st Hplay];
    [|now apply refilled_nothingInPlay].
  micro_cases Hstep; try exact Hnone;
    destruct Hnone as (Hb & Hn & Hf & Hcur & Hq & Hnext & Hfinals);
    congruence.
Qed.

Lemma session_nothingInPlay (rnd : nat -> nat)
  (sortRandom : nat -> list Z -> list Z * nat) (mapSize : Z)
  (hexes : list Hex.t) (tileCount0 : TileCount.t) (c : nat)
  (events : list Event) :
  TileCount.total tileCount0 = 0%nat ->
  nothingInPlay (run rnd sortRandom mapSize hexes events
                   (startGame rnd hexes tileCount0 c)).
Proof.
  intros Hzero.
  apply (reaches_ind_inv (change rnd sortRandom mapSize hexes)
           (fun s => tileCount s = tileCount0 /\ nothingInPlay s)
           (freshGame rnd tileCount0 c)).
  - intros s s' [Hcount Hnone] Hstep. split.
    + now rewrite (change_tileCount rnd sortRandom mapSize hexes s s' Hstep).
    + apply (change_nothingInPlay rnd sortRandom mapSize hexes s s');
        [now rewrite Hcount | exact Hnone | exact Hstep].
  - apply session_reaches.
  - split; [reflexivity|]. apply refilled_nothingInPlay; [exact Hzero|].
    repeat split.
Qed.

(** X8. With an empty bag there is no current tile: whatever the events,
    nothing is placed, no number is assigned and the final board is never
    shown. *)
Theorem empty_bag_never_ends
  (rnd : nat -> nat) (sortRandom : nat -> list Z -> list Z * nat)
  (mapSize : Z) (hexes : list Hex.t)
  (tileCount : TileCount.t) (c : nat) (events : list Event) :
  TileCount.total tileCount = 0%nat ->
  let st := run rnd sortRandom mapSize hexes events
              (startGame rnd hexes tileCount c) in
  board st = [] /\ boardNumbers st = [] /\ showFinalBoard st = false /\
  currentTile (queue st) = None /\ tileQueue (queue st) = [].
Proof.
  intros Hzero st.
  destruct (session_nothingInPlay rnd sortRandom mapSize hexes tileCount c
              events Hzero) as (Hb & Hn & Hf & Hcur & Hq & _).
  repeat split; assumption.
Qed.

Lemma empty_bag_never_ends_witness :
  TileCount.total TileCount.zero = 0%nat /\
  board (run zeroDraws keepOrder 2 (generateCatanBoard 2)
           [KeyDown Space; DropTimer]
           (startGame zeroDraws (generateCatanBoard 2) TileCount.zero 0)) = [].
Proof.
  split; [reflexivity|].
  apply (empty_bag_never_ends zeroDraws keepOrder 2 (generateCatanBoard 2)
           TileCount.zero 0 [KeyDown Space; DropTimer]).
  reflexivity.
Defined.

(** ** The target of a drop *)

(** The target row is the row of a free cell of the column, or the row
    above its occupied top cell. *)
Lemma targetRow_cases (b : JMap Hex.t) (column : list Hex.t) (t : Z) :
  targetRow b column = Some t ->
  (exists a, In a column /\ occupied b (cellOf a) = false /\ t = Hex.r a) \/
  (exists top rest, column = top :: rest /\
     occupied b (cellOf top) = true /\ t = Hex.r top - 1).
Proof.
  unfold targetRow.
  destruct (column !! _) as [bottom|] eqn:Hlast; [|discriminate].
  intros [= <-].
  destruct (scanColumn_spec b column None (Hex.r bottom))
    as [[Hnone ->]|(pre & h & post & -> & Hpre & Hh & ->)].
  - left. exists bottom. split; [eapply lookup_In, Hlast|].
    split; [|reflexivity]. eapply Hnone, lookup_In, Hlast.
  - destruct (list.last pre) as [a|] eqn:Hla.
    + left. exists a. apply last_Some in Hla as [pre0 ->].
      assert (Ha : In a (pre0 ++ [a])) by (apply in_or_app; right; now left).
      split; [apply in_or_app; now left|]. split; [now apply Hpre | reflexivity].
    + right. apply last_None in Hla. subst pre. exists h, post. auto.
Qed.

Section Drops.

Variable rnd : nat -> nat.
Variable sortRandom : nat -> list Z -> list Z * nat.
Variable mapSize : Z.
Variable hexes : list Hex.t.

Lemma target_not_blocked (b : JMap Hex.t) (q t : Z) :
  targetRow b (columnHexes hexes q) = Some t ->
  isValidPosition hexes q t = true ->
  occupied b (q, t) = false.
Proof.
  intros Htarget Hvalid.
  destruct (targetRow_cases _ _ _ Htarget)
    as [(a & Ha & Hfree & ->)|(top & rest & Hcol & Hocc & ->)].
  - apply columnHexes_In in Ha as [_ Hq].
    unfold cellOf in Hfree. now rewrite Hq in Hfree.
  - destruct (full_column_target hexes b q top rest Hcol Hocc) as [_ Hinvalid].
    congruence.
Qed.

(** [placeTile] at the target of the column: nothing, or the commit of the
    current tile at a free land cell. *)
Lemma placeTile_at_target (st : GameState) (t : Z) :
  targetRow (board st) (columnHexes hexes (fst (tilePosition st))) = Some t ->
  placeTile rnd sortRandom mapSize hexes (fst (tilePosition st)) t st = st \/
  (exists tile,
     currentTile (queue st) = Some tile /\
     isValidPosition hexes (fst (tilePosition st)) t = true /\
     occupied (board st) (fst (tilePosition st), t) = false /\
     board (placeTile rnd sortRandom mapSize hexes (fst (tilePosition st)) t st) =
       boardWith st (fst (tilePosition st)) t tile).
Proof.
  intros Htarget. unfold placeTile.
  destruct (currentTile (queue st)) as [tile|] eqn:Hcur; [|now left].
  destruct (isValidPosition hexes (fst (tilePosition st)) t) eqn:Hvalid;
    [|now left].
  pose proof (target_not_blocked _ _ _ Htarget Hvalid) as Hfree.
  rewrite Hfree. cbn [negb]. right. exists tile.
  split; [reflexivity|]. split; [reflexivity|]. split; [reflexivity|].
  destruct (getNextTile (queue st)) as [[next|] queue']; [|reflexivity].
  destruct (bool_decide _); [reflexivity|].
  now rewrite (proj1 (spawnNewTile_frame _ _ _ _)).
Qed.

End Drops.

(** X9. A drop never re-spawns the tile and never overwrites: a hard drop
    returns the state as it is, or commits the current tile at the target
    row of its column, which is then a free land cell; a tick of the drop
    timer does the same or moves the tile one row down, short of the
    target. *)
Theorem drop_commits_or_changes_nothing
  (rnd : nat -> nat) (sortRandom : nat -> list Z -> list Z * nat)
  (mapSize : Z) (hexes : list Hex.t) (st : GameState) :
  let q := fst (tilePosition st) in
  let committed (st' : GameState) : Prop :=
    exists tile t,
      currentTile (queue st) = Some tile /\
      targetRow (board st) (columnHexes hexes q) = Some t /\
      isValidPosition hexes q t = true /\
      occupied (board st) (q, t) = false /\
      board st' = boardWith st q t tile in
  (hardDrop rnd sortRandom mapSize hexes st = st \/
   committed (hardDrop rnd sortRandom mapSize hexes st)) /\
  (autoDropTile rnd sortRandom mapSize hexes st = st \/
   committed (autoDropTile rnd sortRandom mapSize hexes st) \/
   exists t, targetRow (board st) (columnHexes hexes q) = Some t /\
             snd (tilePosition st) + 1 < t /\
             autoDropTile rnd sortRandom mapSize hexes st =
               setTilePosition (q, snd (tilePosition st) + 1) st).
Proof.
  intros q committed. split.
  - unfold hardDrop.
    destruct (negb (hasTile st) || negb (isPlaying st)); [now left|].
    destruct (targetRow _ _) as [t|] eqn:Htarget; [|now left].
    destruct (placeTile_at_target rnd sortRandom mapSize hexes st t Htarget)
      as [->|(tile & H1 & H2 & H3 & H4)]; [now left|].
    right. exists tile, t. auto.
  - unfold autoDropTile.
    destruct (negb (hasTile st) || negb (isPlaying st) || showFinalBoard st);
      [now left|].
    destruct (targetRow _ _) as [t|] eqn:Htarget; [|now left].
    destruct (Z.geb_spec (snd (tilePosition st) + 1) t) as [Hge|Hlt].
    + destruct (placeTile_at_target rnd sortRandom mapSize hexes st t Htarget)
        as [->|(tile & H1 & H2 & H3 & H4)]; [now left|].
      right. left. exists tile, t. auto.
    + right. right. exists t. auto.
Qed.

(** X10. On a board whose columns are stacks, the target row of a column is
    its lowest free land cell: the cell is a free land cell and every land
    cell under it is occupied; when no land cell of the column is free, the
    target is the row above the column, which is no land cell. *)
Theorem target_is_lowest_free_cell
  (hexes : list Hex.t) (b : JMap Hex.t) (q t : Z) :
  stacked hexes b ->
  targetRow b (columnHexes hexes q) = Some t ->
  (landCell hexes q t /\ occupied b (q, t) = false /\
   forall r', landCell hexes q r' -> t < r' -> occupied b (q, r') = true) \/
  (~ landCell hexes q t /\
   forall r', landCell hexes q r' -> occupied b (q, r') = true).
Proof.
  intros Hst Htarget.
  destruct (targetRow_cases _ _ _ Htarget)
    as [(a & Ha & Hfree & ->)|(top & rest & Hcol & Hocc & ->)].
  - left. pose proof Ha as Ha'. apply columnHexes_In in Ha' as [Hland Hq].
    assert (Hcell : cellOf a = (q, Hex.r a)) by (unfold cellOf; now rewrite Hq).
    split; [exists a; auto|]. split; [now rewrite <- Hcell|].
    now apply targetRow_below_occupied.
  - right. split.
    + intros (x & Hland & Hcell).
      assert (Hx : In x (columnHexes hexes q)).
      { apply columnHexes_In. split; [exact Hland | now inversion Hcell]. }
      pose proof (columnHexes_sorted hexes q) as Hs.
      rewrite Hcol in Hs, Hx.
      apply StronglySorted_inv in Hs as [_ Hall].
      rewrite List.Forall_forall in Hall.
      assert (Hex.r x = Hex.r top - 1) by now inversion Hcell.
      destruct Hx as [<-|Hx]; [lia|].
      specialize (Hall x Hx). unfold rowLe in Hall. lia.
    + intros r' (x & Hland & Hcell).
      assert (Hx : In x (columnHexes hexes q)).
      { apply columnHexes_In. split; [exact Hland | now inversion Hcell]. }
      rewrite <- Hcell.
      apply (stacked_below hexes b q top x Hst); try assumption.
      * rewrite Hcol. now left.
      * pose proof (columnHexes_sorted hexes q) as Hs.
        rewrite Hcol in Hs, Hx.
        apply StronglySorted_inv in Hs as [_ Hall].
        rewrite List.Forall_forall in Hall.
        destruct Hx as [<-|Hx]; [unfold rowLe; lia | auto].
Qed.

Lemma target_is_lowest_free_cell_witness :
  stacked (generateCatanBoard 2) [] /\
  targetRow [] (columnHexes (generateCatanBoard 2) 2) = Some 0 /\
  ((landCell (generateCatanBoard 2) 2 0 /\ occupied [] (2, 0) = false /\
    forall r', landCell (generateCatanBoard 2) 2 r' -> 0 < r' ->
               occupied [] (2, r') = true) \/
   (~ landCell (generateCatanBoard 2) 2 0 /\
    forall r', landCell (generateCatanBoard 2) 2 r' -> occupied [] (2, r') = true)).
Proof.
  assert (Hst : stacked (generateCatanBoard 2) [])
    by (split; intros; discriminate).
  assert (Ht : targetRow [] (columnHexes (generateCatanBoard 2) 2) = Some 0)
    by (vm_compute; reflexivity).
  split; [exact Hst|]. split; [exact Ht|].
  exact (target_is_lowest_free_cell (generateCatanBoard 2) [] 2 0 Hst Ht).
Defined.

(** ** Spawn positions and the column of the tile *)

Lemma setOrder_In (x : Z) (seen xs : list Z) :
  In x (setOrder seen xs) <-> In x xs /\ ~ In x seen.
Proof.
  revert seen. induction xs as [|y xs IH]; intros seen; cbn [setOrder].
  - simpl. tauto.
  - destruct (bool_decide (y ∈ seen)) eqn:Hd.
    + apply bool_decide_eq_true in Hd. apply list_elem_of_In in Hd.
      rewrite IH. simpl. split; [tauto|].
      intros [[<-|Hx] Hn]; tauto.
    + apply bool_decide_eq_false in Hd. rewrite list_elem_of_In in Hd.
      simpl. rewrite IH. simpl. split.
      * intros [<-|[Hx Hn]]; [tauto|]. split; [tauto|]. intros Hs. apply Hn. auto.
      * intros [[<-|Hx] Hn]; [tauto|].
        destruct (Z.eq_dec y x) as [->|Hne]; [tauto|].
        right. split; [exact Hx|]. intros [Heq|Hs]; [congruence | tauto].
Qed.

Lemma setOrder_NoDup (seen xs : list Z) : List.NoDup (setOrder seen xs).
Proof.
  revert seen. induction xs as [|y xs IH]; intros seen; cbn [setOrder].
  - constructor.
  - destruct (bool_decide (y ∈ seen)); [apply IH|].
    constructor; [|apply IH]. rewrite setOrder_In. simpl. tauto.
Qed.

Lemma topRow_Some_land (hexes : list Hex.t) (h : Hex.t) :
  isLand hexes h -> exists top, topRow hexes = Some top /\ top <= Hex.r h.
Proof.
  intros Hland. apply in_landHexes in Hland. unfold topRow.
  destruct (minOf (map Hex.r (landHexes hexes))) as [top|] eqn:Hmin.
  - exists top. split; [reflexivity|].
    apply minOf_spec in Hmin as [_ Hle]. apply Hle. now apply in_map.
  - destruct (landHexes hexes); [destruct Hland | discriminate].
Qed.

Lemma spawnPositions_In (hexes : list Hex.t) (q r : Z) :
  In (q, r) (getValidSpawnPositions hexes) <->
  landColumn hexes q /\ topRow hexes = Some (r + 2).
Proof.
  unfold getValidSpawnPositions, landColumn.
  destruct (topRow hexes) as [top|] eqn:Htop.
  - rewrite in_map_iff. split.
    + intros (q' & [= <- <-] & Hq). apply setOrder_In in Hq as [Hq _].
      apply in_map_iff in Hq as (h & Hhq & Hh). apply in_landHexes in Hh.
      split; [exists h; auto | f_equal; lia].
    + intros [(h & Hland & Hq) [= ->]]. exists q. split; [f_equal; lia|].
      apply setOrder_In. split; [|simpl; tauto].
      apply in_map_iff. exists h. split; [exact Hq | now apply in_landHexes].
  - split; [intros []|]. intros [_ H]. discriminate.
Qed.

(** X11. There is one spawn position for each column of the layout that has
    a land cell, each once, two rows above the top row of the board, and
    none when the layout has no land cell; so a spawned tile is above
    every land cell. *)
Theorem spawn_positions_one_per_land_column (hexes : list Hex.t) :
  List.NoDup (getValidSpawnPositions hexes) /\
  (forall q r, In (q, r) (getValidSpawnPositions hexes) <->
               landColumn hexes q /\ topRow hexes = Some (r + 2)) /\
  (forall q r h, In (q, r) (getValidSpawnPositions hexes) ->
                 isLand hexes h -> r + 2 <= Hex.r h).
Proof.
  split; [|split].
  - unfold getValidSpawnPositions. destruct (topRow hexes); [|constructor].
    apply Finite.Injective_map_NoDup; [|apply setOrder_NoDup].
    intros x y [= ->]. reflexivity.
  - apply spawnPositions_In.
  - intros q r h Hin Hland. apply spawnPositions_In in Hin as [_ Htop].
    destruct (topRow_Some_land hexes h Hland) as (top & Htop' & Hle).
    rewrite Htop in Htop'. injection Htop' as <-. exact Hle.
Qed.

Section TileColumn.

Variable rnd : nat -> nat.
Variable sortRandom : nat -> list Z -> list Z * nat.
Variable mapSize : Z.
Variable hexes : list Hex.t.

Lemma change_landColumn (s s' : GameState) :
  landColumn hexes (fst (tilePosition s)) ->
  change rnd sortRandom mapSize hexes s s' ->
  landColumn hexes (fst (tilePosition s')).
Proof.
  intros Hcol Hch. destruct Hch as [st st' Hstep|st Hplay]; [|exact Hcol].
  micro_cases Hstep; try exact Hcol;
    cbn [tilePosition setCursor setTileRotation setTilePosition fst].
  - destruct p as [q r]. now apply spawnPositions_In in Hp as [Hq _].
  - apply canMoveTo_spec in Hmove as [[_ Hq]|[_ [Hvalid _]]]; [exact Hq|].
    apply isValidPosition_landCell in Hvalid as (h & Hland & Hcell).
    exists h. split; [exact Hland | now inversion Hcell].
  - apply isValidPosition_landCell in Hvalid as (h & Hland & Hcell).
    exists h. split; [exact Hland | now inversion Hcell].
Qed.

Lemma landColumn_target (b : JMap Hex.t) (q : Z) :
  landColumn hexes q ->
  exists t, targetRow b (columnHexes hexes q) = Some t.
Proof.
  intros (h & Hland & Hq).
  assert (Hin : In h (columnHexes hexes q)) by now apply columnHexes_In.
  unfold targetRow.
  destruct (columnHexes hexes q !! _) as [bottom|] eqn:Hlast; [eauto|].
  apply lookup_ge_None in Hlast.
  destruct (columnHexes hexes q); [destruct Hin | simpl in Hlast; lia].
Qed.

End TileColumn.

(** X12. On a layout whose column 0 has a land cell (every generated
    board of size 0 or more), the falling tile is over a column of the
    board all along a session, so a drop always finds a target row. *)
Theorem tile_stays_over_a_land_column
  (rnd : nat -> nat) (sortRandom : nat -> list Z -> list Z * nat)
  (mapSize : Z) (hexes : list Hex.t)
  (tileCount : TileCount.t) (c : nat) (events : list Event) :
  landColumn hexes 0 ->
  let st := run rnd sortRandom mapSize hexes events
              (startGame rnd hexes tileCount c) in
  landColumn hexes (fst (tilePosition st)) /\
  exists t, targetRow (board st)
              (columnHexes hexes (fst (tilePosition st))) = Some t.
Proof.
  intros Hzero st.
  assert (Hcol : landColumn hexes (fst (tilePosition st))).
  { apply (reaches_ind_inv (change rnd sortRandom mapSize hexes)
             (fun s => landColumn hexes (fst (tilePosition s)))
             (freshGame rnd tileCount c) st).
    - intros s s'. apply change_landColumn.
    - apply session_reaches.
    - exact Hzero. }
  split; [exact Hcol | now apply landColumn_target].
Qed.

Lemma tile_stays_over_a_land_column_witness :
  landColumn (generateCatanBoard 2) 0 /\
  landColumn (generateCatanBoard 2)
    (fst (tilePosition
            (run zeroDraws keepOrder 2 (generateCatanBoard 2)
               [KeyDown ArrowRight; KeyDown Space; BoardClick 1 1]
               (startGame zeroDraws (generateCatanBoard 2) baseGameCount 0)))).
Proof.
  assert (H0 : landColumn (generateCatanBoard 2) 0).
  { exists (landHex 0 0). split; [|reflexivity].
    split; [|reflexivity]. vm_compute. auto. }
  split; [exact H0|].
  apply (tile_stays_over_a_land_column zeroDraws keepOrder 2
           (generateCatanBoard 2) baseGameCount 0
           [KeyDown ArrowRight; KeyDown Space; BoardClick 1 1] H0).
Defined.

(** ** The drop interval along a session *)

Lemma change_speed_bounds (rnd : nat -> nat)
  (sortRandom : nat -> list Z -> list Z * nat) (mapSize : Z)
  (hexes : list Hex.t) (s s' : GameState) :
  100 <= dropSpeed s <= 1000 ->
  change rnd sortRandom mapSize hexes s s' ->
  100 <= dropSpeed s' <= 1000.
Proof.
  intros Hb Hch. destruct Hch as [st st' Hstep|st Hplay]; [|exact Hb].
  destruct Hstep; try exact Hb; cbn [dropSpeed setDropSpeed]; lia.
Qed.

Lemma ramp_closed_form (rnd : nat -> nat)
  (sortRandom : nat -> list Z -> list Z * nat) (mapSize : Z)
  (hexes : list Hex.t) (n : nat) (st : GameState) :
  isPlaying st = true -> 300 <= dropSpeed st ->
  dropSpeed (run rnd sortRandom mapSize hexes (repeat SpeedTimer n) st) =
    Z.max 300 (dropSpeed st - 20 * Z.of_nat n).
Proof.
  unfold run. revert st. induction n as [|n IH]; intros st Hplay Hge.
  - cbn [repeat fold_left]. lia.
  - cbn [repeat fold_left step].
    assert (Hup : speedUp st = setDropSpeed (Z.max 300 (dropSpeed st - 20)) st)
      by (unfold speedUp; now rewrite Hplay).
    rewrite Hup.
    rewrite IH; cbn [isPlaying dropSpeed setDropSpeed]; [lia | exact Hplay | lia].
Qed.

(** X13. All along a session the drop interval is between 100 and 1000; and
    from the start of a game, with no soft drop, [n] ticks of the speed
    timer leave the interval at [max 300 (1000 - 20 n)]: it goes down by
    20 a tick and stays at 300 from the 35th tick on. *)
Theorem drop_interval_bounds_and_ramp
  (rnd : nat -> nat) (sortRandom : nat -> list Z -> list Z * nat)
  (mapSize : Z) (hexes : list Hex.t)
  (tileCount : TileCount.t) (c : nat) (events : list Event) (n : nat) :
  100 <= dropSpeed (run rnd sortRandom mapSize hexes events
                      (startGame rnd hexes tileCount c)) <= 1000 /\
  dropSpeed (run rnd sortRandom mapSize hexes (repeat SpeedTimer n)
               (startGame rnd hexes tileCount c)) =
    Z.max 300 (1000 - 20 * Z.of_nat n).
Proof.
  assert (Hstart : dropSpeed (startGame rnd hexes tileCount c) = 1000 /\
                   isPlaying (startGame rnd hexes tileCount c) = true).
  { unfold startGame. split.
    - now rewrite resume_speed.
    - apply resume_playing. }
  split.
  - apply (reaches_ind_inv (change rnd sortRandom mapSize hexes)
             (fun s => 100 <= dropSpeed s <= 1000)
             (freshGame rnd tileCount c)).
    + intros s s'. apply change_speed_bounds.
    + apply session_reaches.
    + cbn. lia.
  - rewrite ramp_closed_form; [|apply Hstart|rewrite (proj1 Hstart); lia].
    now rewrite (proj1 Hstart).
Qed.

(** ** The cells of a generated board *)

Lemma forZ_In (lo hi x : Z) : In x (forZ lo hi) <-> lo <= x <= hi.
Proof.
  unfold forZ. rewrite <- list_elem_of_In, elem_of_seqZ. lia.
Qed.

Lemma forZ_NoDup (lo hi : Z) : List.NoDup (forZ lo hi).
Proof. apply NoDup_ListNoDup, NoDup_seqZ. Qed.

Lemma hexagonLoop_In (n : Z) (keep : Z -> Z -> bool) (h : Hex.t) :
  In h (hexagonLoop n keep) <->
  exists q r, h = landHex q r /\ - n <= q <= n /\
    Z.max (- n) (- q - n) <= r <= Z.min n (- q + n) /\ keep q r = true.
Proof.
  unfold hexagonLoop. rewrite in_flat_map. split.
  - intros (q & Hq & Hin). apply in_flat_map in Hin as (r & Hr & Hin).
    apply forZ_In in Hq, Hr.
    destruct (keep q r) eqn:Hkeep; [|destruct Hin].
    destruct Hin as [<-|[]]. exists q, r. auto.
  - intros (q & r & -> & Hq & Hr & Hkeep). exists q.
    split; [now apply forZ_In|]. apply in_flat_map. exists r.
    split; [now apply forZ_In|]. rewrite Hkeep. now left.
Qed.

Lemma flat_map_NoDup {A B : Type} (f : A -> list B) (l : list A) :
  List.NoDup l -> (forall x, List.NoDup (f x)) ->
  (forall x y z, In z (f x) -> In z (f y) -> x = y) ->
  List.NoDup (flat_map f l).
Proof.
  intros Hl Hf Hdisj. induction l as [|x l IH]; cbn [flat_map]; [constructor|].
  apply NoDup_cons_iff in Hl as [Hx Hl].
  apply List.NoDup_app; [apply Hf | now apply IH|].
  intros z Hz Hin. apply in_flat_map in Hin as (y & Hy & Hzy).
  rewrite (Hdisj x y z Hz Hzy) in Hx. contradiction.
Qed.

Lemma hexagonLoop_NoDup (n : Z) (keep : Z -> Z -> bool) :
  List.NoDup (hexagonLoop n keep).
Proof.
  unfold hexagonLoop. apply flat_map_NoDup; [apply forZ_NoDup| |].
  - intros q. apply flat_map_NoDup; [apply forZ_NoDup| |].
    + intros r. destruct (keep q r); repeat constructor. simpl. tauto.
    + intros r r' z Hz Hz'.
      destruct (keep q r); [|destruct Hz]. destruct (keep q r'); [|destruct Hz'].
      destruct Hz as [<-|[]]. destruct Hz' as [[=]|[]]. congruence.
  - intros q q' z Hz Hz'.
    apply in_flat_map in Hz as (r & _ & Hz), Hz' as (r' & _ & Hz').
    destruct (keep q r); [|destruct Hz]. destruct (keep q' r'); [|destruct Hz'].
    destruct Hz as [<-|[]]. destruct Hz' as [[=]|[]]. congruence.
Qed.

Lemma generateCatanBoard_land (size : Z) (h : Hex.t) :
  In h (generateCatanBoard size) -> h = landHex (Hex.q h) (Hex.r h).
Proof.
  unfold generateCatanBoard.
  destruct (size =? 2).
  { cbn [In]. intros H.
    repeat (destruct H as [<-|H]; [reflexivity|]). destruct H. }
  destruct (size =? 3); [|destruct (size =? 4)];
    intros H; apply hexagonLoop_In in H as (q & r & -> & _); reflexivity.
Qed.

Lemma size2_cells (q r : Z) :
  In (landHex q r) (generateCatanBoard 2) <-> hexDistance q r <= 2.
Proof.
  unfold hexDistance. split.
  - cbn [generateCatanBoard Z.eqb Pos.eqb In]. intros H.
    repeat (destruct H as [[= <- <-]|H]; [cbn; lia|]). destruct H.
  - intros Hd.
    assert (Hq : q = -2 \/ q = -1 \/ q = 0 \/ q = 1 \/ q = 2) by lia.
    assert (Hr : r = -2 \/ r = -1 \/ r = 0 \/ r = 1 \/ r = 2) by lia.
    destruct Hq as [->|[->|[->|[->| ->]]]];
      destruct Hr as [->|[->|[->|[->| ->]]]];
      try (exfalso; cbn in Hd; lia);
      cbn [generateCatanBoard Z.eqb Pos.eqb In]; tauto.
Qed.

Lemma generateCatanBoard_In (size q r : Z) :
  In (landHex q r) (generateCatanBoard size) <-> hexDistance q r <= size.
Proof.
  destruct (Z.eqb_spec size 2) as [->|H2]; [apply size2_cells|].
  unfold generateCatanBoard.
  rewrite (proj2 (Z.eqb_neq size 2) H2).
  unfold hexDistance.
  destruct (Z.eqb_spec size 3) as [->|H3]; [|destruct (Z.eqb_spec size 4) as [->|H4]];
    rewrite hexagonLoop_In; (split;
      [ intros (q' & r' & [= <- <-] & Hq & Hr & Hkeep); lia
      | intros Hd; exists q, r; split; [reflexivity|];
        split; [lia|]; split; [lia|];
        rewrite ?andb_true_iff, ?Z.leb_le; lia ]).
Qed.

(** X14. For every size, the generated board holds exactly the cells at
    distance at most [size] from the centre (none when the size is
    negative), each once, all of them land cells without terrain; so a
    position is valid exactly when it is within that distance. *)
Theorem generateCatanBoard_is_the_hexagon (size : Z) :
  (forall q r, In (q, r) (map cellOf (generateCatanBoard size)) <->
               hexDistance q r <= size) /\
  List.NoDup (map cellOf (generateCatanBoard size)) /\
  (forall h, In h (generateCatanBoard size) ->
             Hex.terrain h = None /\ Hex.isWater h = false) /\
  (forall q r, isValidPosition (generateCatanBoard size) q r = true <->
               hexDistance q r <= size).
Proof.
  assert (Hcells : forall q r, In (q, r) (map cellOf (generateCatanBoard size)) <->
                               hexDistance q r <= size).
  { intros q r. rewrite <- generateCatanBoard_In, in_map_iff. split.
    - intros (h & Hc & Hh). pose proof (generateCatanBoard_land size h Hh) as Heq.
      destruct h as [hq hr ht hw]. cbn in Heq, Hc.
      injection Heq as -> ->. injection Hc as <- <-. exact Hh.
    - intros Hh. exists (landHex q r). auto. }
  split; [exact Hcells|]. split; [|split].
  - assert (Hnd : List.NoDup (generateCatanBoard size)).
    { unfold generateCatanBoard.
      destruct (size =? 2).
      - apply NoDup_ListNoDup.
        apply (NoDup_fmap_1 cellOf).
        match goal with |- NoDup ?l => apply (bool_decide_unpack (NoDup l)) end.
        vm_compute. exact I.
      - destruct (size =? 3); [|destruct (size =? 4)]; apply hexagonLoop_NoDup. }
    apply Finite.Injective_map_NoDup_in; [|exact Hnd].
    intros x y Hx Hy Hc.
    pose proof (generateCatanBoard_land size x Hx) as Hxe.
    pose proof (generateCatanBoard_land size y Hy) as Hye.
    destruct x as [xq xr xt xw], y as [yq yr yt yw]. cbn in Hxe, Hye, Hc.
    injection Hxe as -> ->. injection Hye as -> ->. injection Hc as -> ->.
    reflexivity.
  - intros h Hh. pose proof (generateCatanBoard_land size h Hh) as Heq.
    destruct h as [hq hr ht hw]. cbn in Heq. injection Heq as -> ->. now split.
  - intros q r. rewrite <- Hcells. unfold isValidPosition.
    destruct (List.find _ _) as [hex|] eqn:Hfind.
    + apply find_some in Hfind as [Hin Heq].
      apply andb_true_iff in Heq as [Hq Hr]. apply Z.eqb_eq in Hq, Hr.
      pose proof (generateCatanBoard_land size hex Hin) as Heq.
      assert (Hw : Hex.isWater hex = false) by (rewrite Heq; reflexivity).
      rewrite Hw. cbn [negb].
      split; [intros _|reflexivity].
      apply in_map_iff. exists hex. split; [|exact Hin].
      unfold cellOf. now rewrite Hq, Hr.
    + split; [discriminate|]. intros Hin. exfalso.
      apply in_map_iff in Hin as (h & Hc & Hh).
      pose proof (find_none _ _ Hfind h Hh) as Hno. cbn beta in Hno.
      unfold cellOf in Hc. injection Hc as Hq Hr.
      rewrite Hq, Hr, !Z.eqb_refl in Hno. discriminate.
Qed.

(** ** The number of cells *)

Lemma sum_linear (a : Z) (k : nat) (u v : Z) (f : Z -> nat) :
  (forall x, a <= x < a + Z.of_nat k -> Z.of_nat (f x) = u + v * x) ->
  2 * Z.of_nat (list_sum (map f (seqZ a (Z.of_nat k)))) =
    2 * Z.of_nat k * u + v * (2 * Z.of_nat k * a + Z.of_nat k * (Z.of_nat k - 1)).
Proof.
  induction k as [|k IH]; intros Hf.
  - change (Z.of_nat 0) with 0. rewrite seqZ_nil by lia.
    change (Z.of_nat (list_sum (map f []))) with 0. ring.
  - rewrite seqZ_S, map_app, list_sum_app. cbn [map list_sum fold_right].
    rewrite Nat2Z.inj_add, Nat2Z.inj_add, Nat2Z.inj_0.
    rewrite (Hf (a + Z.of_nat k)) by lia.
    assert (IH' : 2 * Z.of_nat (list_sum (map f (seqZ a (Z.of_nat k)))) =
                  2 * Z.of_nat k * u +
                  v * (2 * Z.of_nat k * a + Z.of_nat k * (Z.of_nat k - 1)))
      by (apply IH; intros x Hx; apply Hf; lia).
    rewrite Nat2Z.inj_succ.
    rewrite Z.mul_add_distr_l, IH'. ring.
Qed.

Lemma row_length (n q : Z) (keep : Z -> Z -> bool) :
  (forall r, Z.max (- n) (- q - n) <= r <= Z.min n (- q + n) -> keep q r = true) ->
  length (flat_map (fun r => if keep q r then [landHex q r] else [])
            (forZ (Z.max (- n) (- q - n)) (Z.min n (- q + n)))) =
    Z.to_nat (Z.min n (- q + n) - Z.max (- n) (- q - n) + 1).
Proof.
  intros Hkeep. rewrite length_flat_map.
  rewrite <- (length_seqZ (Z.max (- n) (- q - n))).
  fold (forZ (Z.max (- n) (- q - n)) (Z.min n (- q + n))).
  assert (Hall : forall r, In r (forZ (Z.max (- n) (- q - n)) (Z.min n (- q + n))) ->
                           keep q r = true)
    by (intros r Hr; apply Hkeep, forZ_In, Hr).
  induction (forZ (Z.max (- n) (- q - n)) (Z.min n (- q + n))) as [|r rs IH];
    [reflexivity|].
  cbn [map list_sum fold_right length]. rewrite (Hall r (or_introl eq_refl)).
  cbn [length Nat.add]. fold (list_sum (map
    (fun x => length (if keep q x then [landHex q x] else [])) rs)).
  rewrite IH; [reflexivity|]. intros r' Hr'. apply Hall. now right.
Qed.

Lemma hexagonLoop_length (n : Z) (keep : Z -> Z -> bool) :
  (forall q r, - n <= q <= n ->
     Z.max (- n) (- q - n) <= r <= Z.min n (- q + n) -> keep q r = true) ->
  Z.of_nat (length (hexagonLoop n keep)) =
    if n <? 0 then 0 else 3 * n * n + 3 * n + 1.
Proof.
  intros Hkeep. unfold hexagonLoop. rewrite length_flat_map.
  destruct (Z.ltb_spec n 0) as [Hneg|Hpos].
  { unfold forZ. rewrite seqZ_nil by lia. reflexivity. }
  set (f := fun q => length
         (flat_map (fun r => if keep q r then [landHex q r] else [])
            (forZ (Z.max (- n) (- q - n)) (Z.min n (- q + n))))).
  assert (Hf : forall q, - n <= q <= n ->
             Z.of_nat (f q) = 2 * n + 1 - Z.abs q).
  { intros q Hq. unfold f. rewrite row_length by (intros r; now apply Hkeep). lia. }
  unfold forZ.
  replace (n - - n + 1) with (Z.of_nat (Z.to_nat n) + Z.of_nat (S (Z.to_nat n)))
    by lia.
  rewrite seqZ_app by lia. rewrite map_app, list_sum_app, Nat2Z.inj_add.
  pose proof (sum_linear (- n) (Z.to_nat n) (2 * n + 1) 1 f) as H1.
  pose proof (sum_linear (- n + Z.of_nat (Z.to_nat n)) (S (Z.to_nat n))
                (2 * n + 1) (-1) f) as H2.
  assert (Hn : Z.of_nat (Z.to_nat n) = n) by lia.
  rewrite Hn in *.
  assert (H1' : forall x, - n <= x < - n + n -> Z.of_nat (f x) = 2 * n + 1 + 1 * x)
    by (intros x Hx; rewrite Hf by lia; lia).
  assert (H2' : forall x, - n + n <= x < - n + n + Z.of_nat (S (Z.to_nat n)) ->
                          Z.of_nat (f x) = 2 * n + 1 + -1 * x)
    by (intros x Hx; rewrite Hf by lia; lia).
  specialize (H1 H1'). specialize (H2 H2').
  rewrite Nat2Z.inj_succ, Hn in H2.
  assert (Hgoal : 2 * (Z.of_nat (list_sum (map f (seqZ (- n) n))) +
                       Z.of_nat (list_sum (map f (seqZ (- n + n) (Z.succ n))))) =
                  2 * (3 * n * n + 3 * n + 1))
    by (rewrite Z.mul_add_distr_l, H1, H2; ring).
  rewrite Nat2Z.inj_succ, Hn. lia.
Qed.

(** The number of cells of a generated board. *)
Lemma generateCatanBoard_length (size : Z) :
  Z.of_nat (length (generateCatanBoard size)) =
    if size <? 0 then 0 else 3 * size * size + 3 * size + 1.
Proof.
  unfold generateCatanBoard.
  destruct (Z.eqb_spec size 2) as [->|_]; [reflexivity|].
  destruct (Z.eqb_spec size 3) as [->|_];
    [|destruct (Z.eqb_spec size 4) as [->|_]];
    rewrite hexagonLoop_length; try reflexivity;
    intros q r Hq Hr; rewrite ?andb_true_iff, ?Z.leb_le; lia.
Qed.

(** X15. A generated board of size [n] has [3 n^2 + 3 n + 1] cells when [n]
    is 0 or more, and none when [n] is negative. *)
Theorem generateCatanBoard_cell_count (size : Z) :
  Z.of_nat (length (generateCatanBoard size)) =
    if size <? 0 then 0 else 3 * size * size + 3 * size + 1.
Proof. apply generateCatanBoard_length. Qed.

Lemma count_loop_length (keep : Z -> bool) (rs : list Z) (x : Z -> Hex.t)
  (count : Z) :
  fold_left (fun count r => if keep r then count + 1 else count) rs count =
    count + Z.of_nat (length (flat_map (fun r => if keep r then [x r] else []) rs)).
Proof.
  revert count. induction rs as [|r rs IH]; intros count; cbn [fold_left flat_map].
  - cbn. lia.
  - rewrite IH, length_app. destruct (keep r); cbn [length]; lia.
Qed.

(** The counting loops count the cells of the board. *)
Lemma calculateHexCount_length (mapSize : Z) :
  calculateHexCount mapSize = Z.of_nat (length (generateCatanBoard mapSize)).
Proof.
  rewrite generateCatanBoard_length. unfold calculateHexCount.
  destruct (Z.eqb_spec mapSize 2) as [->|_]; [reflexivity|].
  destruct (Z.eqb_spec mapSize 3) as [->|_]; [reflexivity|].
  destruct (Z.eqb_spec mapSize 4) as [->|_]; [reflexivity|].
  rewrite <- (hexagonLoop_length mapSize (fun q r =>
    (Z.abs q <=? mapSize) && (Z.abs r <=? mapSize)
    && (Z.abs (- q - r) <=? mapSize))).
  - unfold hexagonLoop.
    assert (Hgen : forall qs count,
      fold_left (fun count q =>
        fold_left (fun count r =>
          if (Z.abs q <=? mapSize) && (Z.abs r <=? mapSize)
             && (Z.abs (- q - r) <=? mapSize)
          then count + 1 else count)
          (forZ (Z.max (- mapSize) (- q - mapSize)) (Z.min mapSize (- q + mapSize)))
          count) qs count =
      count + Z.of_nat (length (flat_map (fun q =>
        flat_map (fun r =>
          if (Z.abs q <=? mapSize) && (Z.abs r <=? mapSize)
             && (Z.abs (- q - r) <=? mapSize)
          then [landHex q r] else [])
          (forZ (Z.max (- mapSize) (- q - mapSize)) (Z.min mapSize (- q + mapSize))))
        qs))).
    { induction qs as [|q qs IH]; intros count; cbn [fold_left flat_map].
      - cbn. lia.
      - rewrite IH, length_app.
        rewrite (count_loop_length
                   (fun r => (Z.abs q <=? mapSize) && (Z.abs r <=? mapSize)
                             && (Z.abs (- q - r) <=? mapSize)) _ (landHex q)).
        lia. }
    rewrite Hgen. lia.
  - intros q r Hq Hr. rewrite !andb_true_iff, !Z.leb_le. lia.
Qed.

(** X16. For every size the expected number of hexes of the mode selector
    is the number of cells that the board generator returns. *)
Theorem calculateHexCount_is_board_size (mapSize : Z) :
  calculateHexCount mapSize = Z.of_nat (length (generateCatanBoard mapSize)).
Proof. apply calculateHexCount_length. Qed.

(** ** Neighbours and number tokens *)

(** X17. The six adjacent cells of a cell are exactly the cells at distance
    1 from it, each once; adjacency is symmetric and no cell is adjacent to
    itself. *)
Theorem adjacent_hexes_are_the_neighbours (q r : Z) :
  (forall q' r', In (q', r') (getAdjacentHexes q r) <->
                 hexDistance (q' - q) (r' - r) = 1) /\
  List.NoDup (getAdjacentHexes q r) /\
  (forall q' r', In (q', r') (getAdjacentHexes q r) <->
                 In (q, r) (getAdjacentHexes q' r')) /\
  ~ In (q, r) (getAdjacentHexes q r).
Proof.
  assert (Hdist : forall a b a' b', In (a', b') (getAdjacentHexes a b) <->
                                    hexDistance (a' - a) (b' - b) = 1).
  { intros a b a' b'. unfold getAdjacentHexes, hexDistance. cbn [In]. split.
    - intros H. repeat (destruct H as [[= <- <-]|H]; [lia|]). destruct H.
    - intros Hd.
      assert (Ha : a' = a - 1 \/ a' = a \/ a' = a + 1) by lia.
      assert (Hb : b' = b - 1 \/ b' = b \/ b' = b + 1) by lia.
      destruct Ha as [->|[->| ->]]; destruct Hb as [->|[->| ->]];
        try (exfalso; lia); auto 10. }
  split; [apply Hdist|]. split; [|split].
  - unfold getAdjacentHexes.
    repeat (apply NoDup_cons_iff; split;
      [cbn [In]; intros H;
       repeat (destruct H as [H|H]; [inversion H; lia|]); exact H|]).
    apply List.NoDup_nil.
  - intros q' r'. rewrite !Hdist. unfold hexDistance. lia.
  - rewrite Hdist. unfold hexDistance. lia.
Qed.

Lemma pushWhileShort_Forall (P : Z -> Prop) (numbersNeeded : nat)
  (nums dist : list Z) :
  List.Forall P dist -> List.Forall P nums ->
  List.Forall P (pushWhileShort numbersNeeded dist nums).
Proof.
  unfold pushWhileShort. revert dist.
  induction nums as [|num nums IH]; intros dist Hd Hn; cbn [fold_left]; [exact Hd|].
  apply Forall_cons_iff in Hn as [Hnum Hn].
  apply IH; [|exact Hn].
  destruct (length dist <? numbersNeeded)%nat; [|exact Hd].
  apply Forall_app. split; [exact Hd | now constructor].
Qed.

Lemma extendDistribution_Forall (P : Z -> Prop) (fuel numbersNeeded : nat)
  (dist : list Z) :
  List.Forall P dist -> List.Forall P additionalNumbers ->
  List.Forall P (extendDistribution fuel numbersNeeded dist).
Proof.
  revert dist. induction fuel as [|fuel IH]; intros dist Hd Ha;
    cbn [extendDistribution]; [exact Hd|].
  destruct (length dist <? numbersNeeded)%nat; [|exact Hd].
  apply IH; [|exact Ha]. now apply pushWhileShort_Forall.
Qed.

Lemma tokens_Forall (l : list Z) :
  forallb isToken l = true -> List.Forall (fun n => isToken n = true) l.
Proof. intros H. apply List.Forall_forall. now apply forallb_forall. Qed.

Lemma numberDistributionFor_tokens (mapSize : Z) (numbersNeeded : nat) :
  List.Forall (fun n => isToken n = true)
    (numberDistributionFor mapSize numbersNeeded).
Proof.
  unfold numberDistributionFor. apply Forall_take.
  destruct (mapSize =? 2); [now apply tokens_Forall|].
  apply extendDistribution_Forall; now apply tokens_Forall.
Qed.

Lemma numberDistributionFor_length (mapSize : Z) (numbersNeeded : nat) :
  length (numberDistributionFor mapSize numbersNeeded) =
    if mapSize =? 2 then Nat.min numbersNeeded 18 else numbersNeeded.
Proof.
  unfold numberDistributionFor. rewrite length_take.
  destruct (mapSize =? 2); [reflexivity|].
  pose proof (extendDistribution_fuel numbersNeeded). lia.
Qed.

(** X18. The distribution built for [numbersNeeded] tiles holds number
    tokens only (2 to 12 without 7). On the size 2 board it is the first
    [numbersNeeded] of the 18 classic tokens, so it is short when more than
    18 tiles take a number; on every other board it has exactly
    [numbersNeeded] tokens, the 23 base tokens first. *)
Theorem number_distribution_fits
  (mapSize : Z) (numbersNeeded : nat) :
  List.Forall (fun n => isToken n = true)
    (numberDistributionFor mapSize numbersNeeded) /\
  length (numberDistributionFor mapSize numbersNeeded) =
    (if mapSize =? 2 then Nat.min numbersNeeded 18 else numbersNeeded) /\
  (if mapSize =? 2
   then numberDistributionFor mapSize numbersNeeded = take numbersNeeded classicNumbers
   else take 23 (numberDistributionFor mapSize numbersNeeded)
        = take numbersNeeded baseNumbers).
Proof.
  split; [apply numberDistributionFor_tokens|].
  split; [apply numberDistributionFor_length|].
  unfold numberDistributionFor.
  destruct (mapSize =? 2); [reflexivity|].
  assert (Hprefix : forall fuel dist,
            exists more, extendDistribution fuel numbersNeeded dist = dist ++ more).
  { assert (Hpush : forall nums dist,
              exists more, pushWhileShort numbersNeeded dist nums = dist ++ more).
    { unfold pushWhileShort. induction nums as [|num nums IH]; intros dist;
        cbn [fold_left]; [exists []; now rewrite app_nil_r|].
      destruct (length dist <? numbersNeeded)%nat; [|apply IH].
      destruct (IH (dist ++ [num])) as [more ->].
      exists ([num] ++ more). now rewrite app_assoc. }
    induction fuel as [|fuel IH]; intros dist; cbn [extendDistribution];
      [exists []; now rewrite app_nil_r|].
    destruct (length dist <? numbersNeeded)%nat; [|exists []; now rewrite app_nil_r].
    destruct (Hpush additionalNumbers dist) as [more1 ->].
    destruct (IH (dist ++ more1)) as [more2 ->].
    exists (more1 ++ more2). now rewrite app_assoc. }
  destruct (Hprefix numbersNeeded baseNumbers) as [more ->].
  rewrite take_take.
  destruct (Nat.le_ge_cases numbersNeeded 23) as [Hle|Hge].
  - rewrite Nat.min_r by lia.
    rewrite take_app_le by (simpl; lia). reflexivity.
  - rewrite Nat.min_l by lia.
    rewrite (take_app_le baseNumbers more 23) by (simpl; lia).
    rewrite (take_ge baseNumbers numbersNeeded) by (simpl; lia).
    reflexivity.
Qed.

(** ** The numbers that are assigned *)

Lemma delete_In {A : Type} (l : list A) (i : nat) (x : A) :
  In x (delete i l) -> In x l.
Proof.
  intros H. apply list_elem_of_In. eapply list_elem_of_delete_inv.
  apply list_elem_of_In, H.
Qed.

Lemma delete_map {A B : Type} (f : A -> B) (l : list A) (i : nat) :
  map f (delete i l) = delete i (map f l).
Proof.
  revert i. induction l as [|x l IH]; intros [|i]; cbn; try reflexivity.
  now rewrite IH.
Qed.

Lemma delete_NoDup {A : Type} (l : list A) (i : nat) :
  List.NoDup l -> List.NoDup (delete i l).
Proof.
  revert i. induction l as [|x l IH]; intros [|i] Hnd; cbn; try exact Hnd.
  - now apply NoDup_cons_iff in Hnd.
  - apply NoDup_cons_iff in Hnd as [Hx Hnd].
    constructor; [|now apply IH]. intros Hin. apply Hx. eapply delete_In, Hin.
Qed.

Lemma delete_not_In {A : Type} (l : list A) (i : nat) (x : A) :
  List.NoDup l -> l !! i = Some x -> ~ In x (delete i l).
Proof.
  revert i. induction l as [|y l IH]; intros [|i] Hnd Hi; cbn in *;
    try discriminate.
  - injection Hi as ->. now apply NoDup_cons_iff in Hnd.
  - apply NoDup_cons_iff in Hnd as [Hy Hnd]. intros [->|Hin].
    + apply Hy. eapply lookup_In, Hi.
    + now apply (IH i Hnd Hi).
Qed.

Lemma delete_In_or {A : Type} (l : list A) (i : nat) (x t : A) :
  l !! i = Some x -> In t l -> t = x \/ In t (delete i l).
Proof.
  revert i. induction l as [|y l IH]; intros [|i] Hi Ht; cbn in *;
    try discriminate.
  - injection Hi as ->. destruct Ht as [->|Ht]; auto.
  - destruct Ht as [->|Ht]; [right; now left|].
    destruct (IH i Hi Ht); auto.
Qed.

Lemma lookup_map_Some {A B : Type} (f : A -> B) (l : list A) (i : nat) (x : A) :
  l !! i = Some x -> map f l !! i = Some (f x).
Proof.
  revert i. induction l as [|y l IH]; intros [|i] Hi; cbn in *;
    try discriminate.
  - now injection Hi as ->.
  - now apply IH.
Qed.

Lemma jvalues_jset_fresh {V : Type} (m : JMap V) (k : Cell) (v : V) :
  ~ In k (jkeys m) ->
  jvalues (jset m k v) = jvalues m ++ [v] /\ jkeys (jset m k v) = jkeys m ++ [k].
Proof.
  intros Hk. apply jget_None_keys in Hk. rewrite (jset_fresh m k v Hk).
  unfold jvalues, jkeys. now rewrite !map_app.
Qed.

Lemma filter_partition_Permutation {A : Type} (f : A -> bool) (l : list A) :
  List.filter f l ++ List.filter (fun x => negb (f x)) l ≡ₚ l.
Proof.
  induction l as [|x l IH]; cbn [List.filter]; [reflexivity|].
  destruct (f x); cbn [negb app].
  - now rewrite IH.
  - rewrite <- Permutation_middle. now rewrite IH.
Qed.

Section AssignedNumbers.

Variable rnd : nat -> nat.
Variable tiles : list NumberTile.t.

(** A trial loop either gives up or puts the number on an available
    tile. *)
Lemma tryPlace_spec (attempts : nat) (number : Z)
  (nums : JMap Z) (avail : list NumberTile.t) (c : nat) :
  avail <> [] ->
  exists placed c',
    (placed = false /\
     tryPlace rnd tiles attempts number (nums, avail, c) =
       Some (false, (nums, avail, c'))) \/
    (placed = true /\ exists idx tile,
       avail !! idx = Some tile /\
       tryPlace rnd tiles attempts number (nums, avail, c) =
         Some (true, (jset nums (NumberTile.key tile) number,
                      delete idx avail, c'))).
Proof.
  intros Hne. revert c. induction attempts as [|attempts IH]; intros c.
  - exists false, c. now left.
  - cbn [tryPlace].
    assert (Hlt : (randomIndex (rnd c) (length avail) < length avail)%nat).
    { apply randomIndex_lt. destruct avail; [congruence | simpl; lia]. }
    destruct (lookup_lt_is_Some_2 _ _ Hlt) as [tile Htile]. rewrite Htile.
    destruct (isValidPlacement _ _ _ _); [|apply IH].
    exists true, (S c). right. split; [reflexivity|]. eauto.
Qed.

(** One hot number always lands on an available tile. *)
Lemma placeHot_spec (number : Z)
  (nums : JMap Z) (avail : list NumberTile.t) (c : nat) :
  avail <> [] ->
  exists idx tile c',
    avail !! idx = Some tile /\
    placeHot rnd tiles number (nums, avail, c) =
      Some (jset nums (NumberTile.key tile) number, delete idx avail, c').
Proof.
  intros Hne. unfold placeHot.
  destruct (tryPlace_spec 100 number nums avail c Hne)
    as (placed & c' & [[-> ->]|[-> (idx & tile & Htile & ->)]]).
  - cbn [negb andb]. destruct avail as [|tile rest]; [congruence|].
    cbn [length Nat.ltb Nat.leb]. exists 0%nat, tile, c'. split; reflexivity.
  - cbn [negb andb]. exists idx, tile, c'. split; [exact Htile | reflexivity].
Qed.

Lemma placeHot_inv (number : Z) (placed : list Z)
  (nums : JMap Z) (avail : list NumberTile.t) (c : nat) :
  placingInv tiles placed nums avail -> avail <> [] ->
  exists nums' avail' c',
    placeHot rnd tiles number (nums, avail, c) = Some (nums', avail', c') /\
    placingInv tiles (placed ++ [number]) nums' avail'.
Proof.
  intros (Hvals & Hnd & Hdisj & Hall & Hlen) Hne.
  destruct (placeHot_spec number nums avail c Hne)
    as (idx & tile & c' & Htile & ->).
  exists (jset nums (NumberTile.key tile) number), (delete idx avail), c'.
  split; [reflexivity|].
  assert (Hkey : keysOf avail !! idx = Some (NumberTile.key tile))
    by (unfold keysOf; now apply lookup_map_Some).
  assert (Hfresh : ~ In (NumberTile.key tile) (jkeys nums)).
  { intros Hin. apply (Hdisj _ Hin). eapply lookup_In, Hkey. }
  destruct (jvalues_jset_fresh nums _ number Hfresh) as [Hv Hk].
  unfold placingInv. rewrite Hv, Hk. unfold keysOf in *. rewrite delete_map.
  split; [now rewrite Hvals|]. split; [now apply delete_NoDup|].
  split; [|split].
  - intros k Hin Hdel. apply in_app_or in Hin as [Hin|[<-|[]]].
    + apply (Hdisj k Hin). eapply delete_In, Hdel.
    + now apply (delete_not_In _ _ _ Hnd Hkey).
  - intros t Ht. destruct (Hall t Ht) as [Hin|Hin].
    + left. apply in_or_app. now left.
    + destruct (delete_In_or _ _ _ _ Htile Hin) as [->|Hd]; [|now right].
      left. apply in_or_app. right. now left.
  - rewrite length_delete by eauto. rewrite length_app. simpl.
    apply lookup_lt_Some in Htile. lia.
Qed.

Lemma placeHots_inv (numbers placed : list Z)
  (nums : JMap Z) (avail : list NumberTile.t) (c : nat) :
  placingInv tiles placed nums avail ->
  (length numbers <= length avail)%nat ->
  exists nums' avail' c',
    placeHots rnd tiles numbers (nums, avail, c) = Some (nums', avail', c') /\
    placingInv tiles (placed ++ numbers) nums' avail'.
Proof.
  revert placed nums avail c.
  induction numbers as [|number numbers IH]; intros placed nums avail c Hinv Hlen.
  - exists nums, avail, c. rewrite app_nil_r. now split.
  - cbn [placeHots]. simpl in Hlen.
    assert (Hne : avail <> []) by (destruct avail; [simpl in Hlen; lia | congruence]).
    destruct (placeHot_inv number placed nums avail c Hinv Hne)
      as (nums' & avail' & c' & -> & Hinv').
    destruct (IH (placed ++ [number]) nums' avail' c' Hinv') as (n2 & a2 & c2 & Heq & Hinv2).
    { destruct Hinv as (_ & _ & _ & _ & H1), Hinv' as (_ & _ & _ & _ & H2).
      rewrite length_app in H2. simpl in H2. lia. }
    exists n2, a2, c2. split; [exact Heq|]. now rewrite <- app_assoc in Hinv2.
Qed.

(** The other numbers go to the available tiles in order. *)
Lemma placeOthers_spec (avail : list NumberTile.t) (shuffled : list Z)
  (nums : JMap Z) :
  List.NoDup (keysOf avail) ->
  (forall k, In k (jkeys nums) -> ~ In k (keysOf avail)) ->
  length avail = length shuffled ->
  jvalues (placeOthers avail shuffled nums) = jvalues nums ++ shuffled /\
  jkeys (placeOthers avail shuffled nums) = jkeys nums ++ keysOf avail.
Proof.
  revert shuffled nums.
  induction avail as [|tile avail IH]; intros [|number numbers] nums Hnd Hdisj Hlen;
    try discriminate.
  - cbn. now rewrite !app_nil_r.
  - cbn [placeOthers]. cbn [keysOf map] in Hnd, Hdisj.
    apply NoDup_cons_iff in Hnd as [Hkey Hnd].
    assert (Hfresh : ~ In (NumberTile.key tile) (jkeys nums)).
    { intros Hin. apply (Hdisj _ Hin). now left. }
    destruct (jvalues_jset_fresh nums _ number Hfresh) as [Hv Hk].
    destruct (IH numbers (jset nums (NumberTile.key tile) number) Hnd) as [Hv' Hk'].
    + intros k Hin Hav. rewrite Hk in Hin.
      apply in_app_or in Hin as [Hin|[<-|[]]]; [|contradiction].
      apply (Hdisj k Hin). now right.
    + simpl in Hlen. lia.
    + rewrite Hv', Hk', Hv, Hk. cbn [keysOf map].
      now rewrite <- !app_assoc.
Qed.

(** The safety pass changes nothing when every tile has a number. *)
Lemma safetyPass_noop (dist : list Z) (l : list NumberTile.t)
  (nums : JMap Z) (c : nat) :
  (forall t, In t l -> In (NumberTile.key t) (jkeys nums)) ->
  fold_left (safetyStep rnd dist) l (nums, c) = (nums, c).
Proof.
  induction l as [|tile l IH]; intros Hall; cbn [fold_left]; [reflexivity|].
  assert (Hstep : safetyStep rnd dist (nums, c) tile = (nums, c)).
  { unfold safetyStep, jhas.
    destruct (proj2 (jget_Some_keys nums (NumberTile.key tile))
                (Hall tile (or_introl eq_refl))) as [v ->]. reflexivity. }
  rewrite Hstep. apply IH. intros t Ht. apply Hall. now right.
Qed.

End AssignedNumbers.

Lemma numberTilesOf_NoDup (b : JMap Hex.t) :
  List.NoDup (jkeys b) -> List.NoDup (keysOf (numberTilesOf b)).
Proof.
  unfold keysOf, numberTilesOf, jkeys.
  induction b as [|[k hex] b IH]; intros Hnd; cbn [flat_map map]; [constructor|].
  cbn [map fst] in Hnd. apply NoDup_cons_iff in Hnd as [Hk Hnd].
  rewrite map_app.
  assert (Hsub : forall x,
            In x (map NumberTile.key
                    (flat_map (fun entry : Cell * Hex.t =>
                       let '(hexKey, hex0) := entry in
                       match Hex.terrain hex0 with
                       | Some t =>
                           if bool_decide (t ≠ desert) && bool_decide (t ≠ water)
                           then [NumberTile.mk hexKey (Hex.q hex0) (Hex.r hex0)]
                           else []
                       | None => []
                       end) b)) -> In x (map fst b)).
  { intros x Hx. apply in_map_iff in Hx as (nt & <- & Hnt).
    apply in_flat_map in Hnt as ([k' hex'] & Hin & Hnt).
    destruct (Hex.terrain hex'); [|destruct Hnt].
    destruct (_ && _); [|destruct Hnt]. destruct Hnt as [<-|[]].
    apply in_map_iff. exists (k', hex'). auto. }
  destruct (Hex.terrain hex) as [t|]; [|now apply IH].
  destruct (_ && _); [|now apply IH].
  cbn [map app NumberTile.key]. constructor; [|now apply IH].
  intros Hin. apply Hk, Hsub, Hin.
Qed.

(** The assignment when the distribution fits the tiles. *)
Lemma assignNumbers_fit_values
  (rnd : nat -> nat) (sortRandom : nat -> list Z -> list Z * nat)
  (mapSize : Z) (newBoard : JMap Hex.t) (c : nat) :
  (forall c' l, fst (sortRandom c' l) ≡ₚ l) ->
  List.NoDup (jkeys newBoard) ->
  mapSize <> 2 \/ (length (numberTilesOf newBoard) <= 18)%nat ->
  exists nums c',
    assignNumbers rnd sortRandom mapSize newBoard c = Some (nums, c') /\
    jvalues nums ≡ₚ
      numberDistributionFor mapSize (length (numberTilesOf newBoard)).
Proof.
  intros Hsort Hnd Hfit. unfold assignNumbers. cbv zeta.
  set (tiles := numberTilesOf newBoard) in *.
  set (dist := numberDistributionFor mapSize (length tiles)).
  assert (Hdist : length dist = length tiles).
  { unfold dist. rewrite numberDistributionFor_length.
    destruct (Z.eqb_spec mapSize 2) as [Heq|_]; [|reflexivity].
    destruct Hfit as [Hne|Hle]; [contradiction | lia]. }
  pose proof (filter_partition_Permutation isHot dist) as Hpart.
  pose proof (Permutation_length Hpart) as Hplen. rewrite length_app in Hplen.
  assert (Hinit : placingInv tiles [] [] tiles).
  { split; [reflexivity|]. split; [now apply numberTilesOf_NoDup|].
    split; [intros k []|]. split; [auto | simpl; lia]. }
  destruct (placeHots_inv rnd tiles (List.filter isHot dist) [] [] tiles c Hinit)
    as (nums & avail & c1 & Hhot & (Hvals & Hnd1 & Hdisj & Hall & Hlen)); [lia|].
  destruct (placeHots rnd tiles _ _) as [p|]; [|discriminate].
  injection Hhot as ->.
  cbn [app] in Hvals, Hlen.
  specialize (Hsort c1 (List.filter (fun n => negb (isHot n)) dist)).
  destruct (sortRandom c1 _) as [shuffled c2]. cbn [fst] in Hsort.
  pose proof (Permutation_length Hsort) as Hslen.
  destruct (placeOthers_spec avail shuffled nums Hnd1 Hdisj) as [Hv Hk]; [lia|].
  rewrite safetyPass_noop.
  - exists (placeOthers avail shuffled nums), c2. split; [reflexivity|].
    rewrite Hv, Hvals, Hsort. exact Hpart.
  - intros t Ht. rewrite Hk. apply in_or_app.
    destruct (Hall t Ht) as [Hin|Hin]; [now left|].
    right. unfold keysOf. now apply in_map.
Qed.

(** X19. When the distribution has a token for every tile that takes a
    number (any board but size 2, or at most 18 such tiles on size 2), the
    numbers assigned are the tokens of the distribution, each used once,
    whatever the draws are; the safety pass adds nothing. The random sort
    is taken to return a permutation of its input. *)
Theorem assigned_numbers_are_the_distribution
  (rnd : nat -> nat) (sortRandom : nat -> list Z -> list Z * nat)
  (mapSize : Z) (newBoard : JMap Hex.t) (c : nat) :
  (forall c' l, fst (sortRandom c' l) ≡ₚ l) ->
  List.NoDup (jkeys newBoard) ->
  mapSize <> 2 \/ (length (numberTilesOf newBoard) <= 18)%nat ->
  exists nums c',
    assignNumbers rnd sortRandom mapSize newBoard c = Some (nums, c') /\
    jvalues nums ≡ₚ
      numberDistributionFor mapSize (length (numberTilesOf newBoard)).
Proof. apply assignNumbers_fit_values. Qed.

Lemma assigned_numbers_are_the_distribution_witness :
  let b : JMap Hex.t :=
    [ ((0, 0), Hex.mk 0 0 (Some gold) false);
      ((0, 1), Hex.mk 0 1 (Some desert) false);
      ((1, 0), Hex.mk 1 0 (Some forest) false);
      ((1, 1), Hex.mk 1 1 (Some hill) false) ] in
  (forall c' l, fst (keepOrder c' l) ≡ₚ l) /\
  List.NoDup (jkeys b) /\
  (2 <> 2 \/ (length (numberTilesOf b) <= 18)%nat) /\
  exists nums c',
    assignNumbers zeroDraws keepOrder 2 b 0 = Some (nums, c') /\
    jvalues nums ≡ₚ numberDistributionFor 2 (length (numberTilesOf b)).
Proof.
  intros b.
  assert (Hsort : forall c' l, fst (keepOrder c' l) ≡ₚ l) by reflexivity.
  assert (Hnd : List.NoDup (jkeys b)).
  { apply NoDup_ListNoDup, (bool_decide_unpack (NoDup (jkeys b))).
    vm_compute. exact I. }
  assert (Hfit : 2 <> 2 \/ (length (numberTilesOf b) <= 18)%nat)
    by (right; vm_compute; lia).
  split; [exact Hsort|]. split; [exact Hnd|]. split; [exact Hfit|].
  exact (assigned_numbers_are_the_distribution zeroDraws keepOrder 2 b 0
           Hsort Hnd Hfit).
Defined.

Lemma jvalues_jset_In {V : Type} (m : JMap V) (k : Cell) (v x : V) :
  In x (jvalues (jset m k v)) -> x = v \/ In x (jvalues m).
Proof.
  unfold jvalues. intros Hin. apply in_map_iff in Hin as ([k' v'] & <- & Hin).
  apply jset_In in Hin as [[= _ ->]|Hin]; [now left|].
  right. apply in_map_iff. exists (k', v'). auto.
Qed.

Lemma placeOthers_values_In (avail : list NumberTile.t) (shuffled : list Z)
  (nums : JMap Z) (x : Z) :
  In x (jvalues (placeOthers avail shuffled nums)) ->
  In x (jvalues nums) \/ In x shuffled.
Proof.
  revert shuffled nums. induction avail as [|tile avail IH];
    intros [|number numbers] nums; cbn [placeOthers]; auto.
  intros Hin. destruct (IH _ _ Hin) as [Hv|Hs]; [|right; now right].
  apply jvalues_jset_In in Hv as [->|Hv]; [right; now left | now left].
Qed.

Lemma safetyPass_values_In (rnd : nat -> nat) (dist : list Z)
  (l : list NumberTile.t) (acc : JMap Z * nat) (x : Z) :
  In x (jvalues (fst (fold_left (safetyStep rnd dist) l acc))) ->
  In x (jvalues (fst acc)) \/ In x dist \/ In x fallbackNumbers.
Proof.
  revert acc. induction l as [|tile l IH]; intros acc; cbn [fold_left]; [auto|].
  intros Hin. destruct (IH _ Hin) as [Hv|Hrest]; [|auto].
  destruct acc as [nums c]. unfold safetyStep in Hv.
  destruct (jhas nums (NumberTile.key tile)); [auto|].
  set (remaining := List.filter _ dist) in Hv.
  destruct (0 <? length remaining)%nat.
  - destruct (remaining !! _) as [n|] eqn:Hn; [|auto].
    cbn [fst] in Hv. apply jvalues_jset_In in Hv as [->|Hv]; [|auto].
    right. left. apply lookup_In in Hn. unfold remaining in Hn.
    now apply filter_In in Hn.
  - destruct (fallbackNumbers !! _) as [n|] eqn:Hn; [|auto].
    cbn [fst] in Hv. apply jvalues_jset_In in Hv as [->|Hv]; [|auto].
    right. right. eapply lookup_In, Hn.
Qed.

(** X20. Whatever the board and the draws, every number assigned is a
    number token: 2 to 12, never 7, also when the distribution is short
    and the safety pass fills in. The random sort is taken to return a
    permutation of its input. *)
Theorem assigned_numbers_are_tokens
  (rnd : nat -> nat) (sortRandom : nat -> list Z -> list Z * nat)
  (mapSize : Z) (newBoard : JMap Hex.t) (c : nat) :
  (forall c' l, fst (sortRandom c' l) ≡ₚ l) ->
  List.NoDup (jkeys newBoard) ->
  exists nums c',
    assignNumbers rnd sortRandom mapSize newBoard c = Some (nums, c') /\
    List.Forall (fun n => isToken n = true) (jvalues nums).
Proof.
  intros Hsort Hnd. unfold assignNumbers. cbv zeta.
  set (tiles := numberTilesOf newBoard) in *.
  set (dist := numberDistributionFor mapSize (length tiles)).
  pose proof (numberDistributionFor_tokens mapSize (length tiles)) as Htok.
  fold dist in Htok. rewrite List.Forall_forall in Htok.
  assert (Hhotlen : (length (List.filter isHot dist) <= length tiles)%nat).
  { etransitivity; [apply filter_length_bound|].
    unfold dist. rewrite numberDistributionFor_length.
    destruct (mapSize =? 2); lia. }
  assert (Hinit : placingInv tiles [] [] tiles).
  { split; [reflexivity|]. split; [now apply numberTilesOf_NoDup|].
    split; [intros k []|]. split; [auto | simpl; lia]. }
  destruct (placeHots_inv rnd tiles (List.filter isHot dist) [] [] tiles c Hinit
              Hhotlen)
    as (nums & avail & c1 & Hhot & (Hvals & _)).
  destruct (placeHots rnd tiles _ _) as [p|]; [|discriminate].
  injection Hhot as ->. cbn [app] in Hvals.
  specialize (Hsort c1 (List.filter (fun n => negb (isHot n)) dist)).
  destruct (sortRandom c1 _) as [shuffled c2]. cbn [fst] in Hsort.
  destruct (fold_left _ _ _) as [final c3] eqn:Hfold.
  exists final, c3. split; [reflexivity|].
  apply List.Forall_forall. intros x Hx.
  assert (Hx' : In x (jvalues (fst (fold_left (safetyStep rnd dist) tiles
                   (placeOthers avail shuffled nums, c2)))))
    by now rewrite Hfold.
  apply safetyPass_values_In in Hx' as [Hv|[Hd|Hf]].
  - cbn [fst] in Hv. apply placeOthers_values_In in Hv as [Hv|Hs].
    + apply Htok. apply (Permutation_in _ Hvals) in Hv.
      now apply filter_In in Hv.
    + apply Htok. apply (Permutation_in _ Hsort) in Hs.
      now apply filter_In in Hs.
  - now apply Htok.
  - clear Hx. revert x Hf. apply List.Forall_forall. now apply tokens_Forall.
Qed.

Lemma assigned_numbers_are_tokens_witness :
  let b : JMap Hex.t :=
    [ ((0, 0), Hex.mk 0 0 (Some gold) false);
      ((0, 1), Hex.mk 0 1 (Some desert) false);
      ((1, 0), Hex.mk 1 0 (Some forest) false) ] in
  (forall c' l, fst (keepOrder c' l) ≡ₚ l) /\
  List.NoDup (jkeys b) /\
  exists nums c',
    assignNumbers zeroDraws keepOrder 3 b 0 = Some (nums, c') /\
    List.Forall (fun n => isToken n = true) (jvalues nums).
Proof.
  intros b.
  assert (Hsort : forall c' l, fst (keepOrder c' l) ≡ₚ l) by reflexivity.
  assert (Hnd : List.NoDup (jkeys b)).
  { apply NoDup_ListNoDup, (bool_decide_unpack (NoDup (jkeys b))).
    vm_compute. exact I. }
  split; [exact Hsort|]. split; [exact Hnd|].
  exact (assigned_numbers_are_tokens zeroDraws keepOrder 3 b 0 Hsort Hnd).
Defined.

(** ** The numbers at the end of a session *)

Lemma numberTilesOf_length (b : JMap Hex.t) :
  length (numberTilesOf b) = length (List.filter takesNumber (boardTerrains b)).
Proof.
  unfold numberTilesOf, boardTerrains.
  induction b as [|[k hex] b IH]; [reflexivity|].
  cbn [flat_map]. rewrite !length_app, List.filter_app, length_app, IH. f_equal.
  cbn [snd]. destruct (Hex.terrain hex) as [t|]; [|reflexivity].
  cbn [List.filter]. unfold takesNumber.
  now destruct (bool_decide (t ≠ desert) && bool_decide (t ≠ water)).
Qed.

Lemma filter_repeat_length (f : TerrainType -> bool) (t : TerrainType) (n : nat) :
  length (List.filter f (repeat t n)) = if f t then n else 0%nat.
Proof.
  induction n as [|n IH]; cbn [repeat List.filter]; [now destruct (f t)|].
  destruct (f t); cbn [length]; [now rewrite IH | exact IH].
Qed.

Lemma filter_keeps_Permutation {A : Type} (f : A -> bool) (l l' : list A) :
  l ≡ₚ l' -> List.filter f l ≡ₚ List.filter f l'.
Proof.
  induction 1 as [|x l l' _ IH|x y l|l l' l'' _ IH1 _ IH2]; cbn [List.filter].
  - reflexivity.
  - destruct (f x); [now constructor | exact IH].
  - destruct (f x), (f y); try reflexivity. apply perm_swap.
  - now transitivity (List.filter f l').
Qed.

Lemma orderedBag_numbered (counts : TileCount.t) :
  length (List.filter takesNumber (orderedBag counts)) = numberedTiles counts.
Proof.
  unfold orderedBag, numberedTiles.
  rewrite !List.filter_app, !length_app, !filter_repeat_length.
  change (takesNumber field) with true. change (takesNumber forest) with true.
  change (takesNumber pasture) with true. change (takesNumber hill) with true.
  change (takesNumber mountain) with true. change (takesNumber gold) with true.
  change (takesNumber desert) with false. change (takesNumber water) with false.
  cbv beta iota. lia.
Qed.



Lemma boardWf_terrains_length (hexes : list Hex.t) (b : JMap Hex.t) :
  boardWf hexes b -> length (boardTerrains b) = jsize b.
Proof.
  intros [_ Hall]. unfold boardTerrains, jsize.
  induction Hall as [|e b (_ & Ht & _) _ IH]; [reflexivity|].
  cbn [flat_map]. rewrite length_app, IH.
  destruct (Hex.terrain (snd e)); [reflexivity | contradiction].
Qed.

Lemma same_keys_same_size (nums : JMap Z) (tiles : list NumberTile.t) :
  List.NoDup (jkeys nums) -> List.NoDup (keysOf tiles) ->
  (forall k, In k (jkeys nums) <-> In k (keysOf tiles)) ->
  jsize nums = length tiles.
Proof.
  intros Hnd Hnd' Hkeys. unfold jsize.
  rewrite <- (length_map fst nums), <- (length_map NumberTile.key tiles).
  apply Permutation_length, Permutation.NoDup_Permutation; assumption.
Qed.

Section FinalNumbers.

Variable rnd : nat -> nat.
Variable sortRandom : nat -> list Z -> list Z * nat.
Variable mapSize : Z.
Variable hexes : list Hex.t.

Hypothesis sort_permutes : forall c' l, fst (sortRandom c' l) ≡ₚ l.

(** The numbers on display are a distribution as long as they are. *)
Lemma numbers_are_a_distribution (st : GameState) :
  sessionWf rnd sortRandom mapSize hexes st ->
  mapSize <> 2 \/ (jsize (boardNumbers st) <= 18)%nat ->
  jvalues (boardNumbers st) ≡ₚ
    numberDistributionFor mapSize (jsize (boardNumbers st)).
Proof.
  intros Hwf Hfit.
  destruct (numbers_of_a_last_commit rnd sortRandom mapSize hexes st Hwf)
    as [[-> _]|(b & c0 & c1 & _ & Hndb & Hassign & Hnd & Hkeys)];
    [reflexivity|].
  assert (Hsize : jsize (boardNumbers st) = length (numberTilesOf b)).
  { apply same_keys_same_size; [exact Hnd | now apply numberTilesOf_NoDup |].
    intros k. rewrite Hkeys. symmetry. now apply numberTilesOf_keys. }
  destruct (assignNumbers_fit_values rnd sortRandom mapSize b c0
              sort_permutes Hndb) as (nums & c' & Heq & Hperm).
  { now rewrite <- Hsize. }
  rewrite Hassign in Heq. injection Heq as <- <-.
  now rewrite Hsize.
Qed.

End FinalNumbers.

(** The final board is shown only over the board of a commit of the last
    tile. *)
Lemma shown_over_a_last_commit (rnd : nat -> nat)
  (sortRandom : nat -> list Z -> list Z * nat) (mapSize : Z)
  (hexes : list Hex.t) (st : GameState) :
  sessionWf rnd sortRandom mapSize hexes st ->
  showFinalBoard st = true ->
  exists b, boardOfLastCommit st b /\
            jsize (boardNumbers st) = length (numberTilesOf b).
Proof.
  intros Hwf Hshown.
  destruct (numbers_of_a_last_commit rnd sortRandom mapSize hexes st Hwf)
    as [[_ Hnot]|(b & c0 & c1 & Hlast & Hndb & _ & Hnd & Hkeys)];
    [congruence|].
  exists b. split; [exact Hlast|].
  apply same_keys_same_size; [exact Hnd | now apply numberTilesOf_NoDup |].
  intros k. rewrite Hkeys. symmetry. now apply numberTilesOf_keys.
Qed.

(** In a game played through once, the numbered tiles of the final board
    are those of the tile count. *)
Lemma played_once_numbered (rnd : nat -> nat)
  (sortRandom : nat -> list Z -> list Z * nat) (mapSize : Z)
  (hexes : list Hex.t) (tileCount0 : TileCount.t) (c : nat)
  (events : list Event) :
  forallb (fun e => negb (isPlay e)) events = true ->
  showFinalBoard (run rnd sortRandom mapSize hexes events
                    (startGame rnd hexes tileCount0 c)) = true ->
  jsize (board (run rnd sortRandom mapSize hexes events
                  (startGame rnd hexes tileCount0 c)))
    = TileCount.total tileCount0 ->
  jsize (boardNumbers (run rnd sortRandom mapSize hexes events
                         (startGame rnd hexes tileCount0 c)))
    = numberedTiles tileCount0.
Proof.
  intros Hquiet Hshown Hfull.
  set (st := run rnd sortRandom mapSize hexes events
               (startGame rnd hexes tileCount0 c)) in *.
  pose proof (session_sessionWf rnd sortRandom mapSize hexes tileCount0 c events)
    as Hwf.
  pose proof (session_tileCount rnd sortRandom mapSize hexes tileCount0 c events)
    as Hcount.
  pose proof (session_bagInOrder rnd sortRandom mapSize hexes tileCount0 c
                events Hquiet) as (k & Hbag & _).
  fold st in Hwf, Hcount, Hbag.
  destruct (shown_over_a_last_commit rnd sortRandom mapSize hexes st Hwf Hshown)
    as (b & [[rest Hrest] Hsize] & Hnums).
  rewrite Hcount in Hsize.
  assert (Hb : b = board st).
  { assert (Hlen : length rest = 0%nat).
    { apply (f_equal (@length _)) in Hrest. rewrite length_app in Hrest.
      unfold jsize in *. lia. }
    apply length_zero_iff_nil in Hlen. subst rest.
    now rewrite app_nil_r in Hrest. }
  subst b. rewrite Hnums, numberTilesOf_length.
  assert (Hperm : fst (generateTileBag rnd tileCount0 c) ≡ₚ orderedBag tileCount0)
    by apply shuffleFrom_Permutation.
  assert (Hterrains : boardTerrains (board st) =
                      fst (generateTileBag rnd tileCount0 c)).
  { apply app_inj_1 in Hbag; [apply Hbag|].
    rewrite (boardWf_terrains_length hexes) by apply Hwf.
    rewrite Hfull, (Permutation_length Hperm). symmetry.
    apply orderedBag_length. }
  rewrite Hterrains, <- orderedBag_numbered.
  now apply Permutation_length, filter_keeps_Permutation.
Qed.

(** X21. The numbers on display are always a whole distribution: all
    along a session, whatever the timeouts and the restarts, when the
    distribution has a token for every number on display (any size but 2,
    or at most 18 numbers) the numbers are the tokens of the distribution
    for as many tiles, each used once. In a game played through once (play
    is not started again and the board holds as many tiles as the bag
    had), the final board shows the distribution for the fields, forests,
    pastures, hills, mountains and gold tiles of the tile count. The
    random sort is taken to return a permutation of its input. *)
Theorem final_numbers_are_the_distribution
  (rnd : nat -> nat) (sortRandom : nat -> list Z -> list Z * nat)
  (mapSize : Z) (hexes : list Hex.t)
  (tileCount : TileCount.t) (c : nat) (events : list Event) :
  (forall c' l, fst (sortRandom c' l) ≡ₚ l) ->
  (mapSize <> 2 \/
   (jsize (boardNumbers (run rnd sortRandom mapSize hexes events
                           (startGame rnd hexes tileCount c))) <= 18)%nat ->
   jvalues (boardNumbers (run rnd sortRandom mapSize hexes events
                            (startGame rnd hexes tileCount c))) ≡ₚ
     numberDistributionFor mapSize
       (jsize (boardNumbers (run rnd sortRandom mapSize hexes events
                               (startGame rnd hexes tileCount c))))) /\
  (forallb (fun e => negb (isPlay e)) events = true ->
   showFinalBoard (run rnd sortRandom mapSize hexes events
                     (startGame rnd hexes tileCount c)) = true ->
   jsize (board (run rnd sortRandom mapSize hexes events
                   (startGame rnd hexes tileCount c)))
     = TileCount.total tileCount ->
   mapSize <> 2 \/ (numberedTiles tileCount <= 18)%nat ->
   jvalues (boardNumbers (run rnd sortRandom mapSize hexes events
                            (startGame rnd hexes tileCount c))) ≡ₚ
     numberDistributionFor mapSize (numberedTiles tileCount)).
Proof.
  intros Hsort.
  pose proof (session_sessionWf rnd sortRandom mapSize hexes tileCount c events)
    as Hwf.
  split.
  - now apply (numbers_are_a_distribution rnd sortRandom mapSize hexes).
  - intros Hquiet Hshown Hfull Hfit.
    pose proof (played_once_numbered rnd sortRandom mapSize hexes tileCount c
                  events Hquiet Hshown Hfull) as Hsize.
    rewrite <- Hsize.
    apply (numbers_are_a_distribution rnd sortRandom mapSize hexes);
      [exact Hsort | exact Hwf | now rewrite Hsize].
Qed.

Lemma final_numbers_are_the_distribution_witness :
  (forall c' l, fst (keepOrder c' l) ≡ₚ l) /\
  forallb (fun e => negb (isPlay e))
    [KeyDown Space; SpawnTimeout; KeyDown Space; SpawnTimeout; KeyDown Space;
     FinalTimeout] = true /\
  showFinalBoard
    (run zeroDraws keepOrder 2 (generateCatanBoard 2)
       [KeyDown Space; SpawnTimeout; KeyDown Space; SpawnTimeout; KeyDown Space;
        FinalTimeout]
       (startGame zeroDraws (generateCatanBoard 2)
          (TileCount.mk 1 1 0 0 0 1 0 0) 0)) = true /\
  jsize (board
    (run zeroDraws keepOrder 2 (generateCatanBoard 2)
       [KeyDown Space; SpawnTimeout; KeyDown Space; SpawnTimeout; KeyDown Space;
        FinalTimeout]
       (startGame zeroDraws (generateCatanBoard 2)
          (TileCount.mk 1 1 0 0 0 1 0 0) 0)))
    = TileCount.total (TileCount.mk 1 1 0 0 0 1 0 0) /\
  (2 <> 2 \/ (numberedTiles (TileCount.mk 1 1 0 0 0 1 0 0) <= 18)%nat) /\
  jvalues (boardNumbers
    (run zeroDraws keepOrder 2 (generateCatanBoard 2)
       [KeyDown Space; SpawnTimeout; KeyDown Space; SpawnTimeout; KeyDown Space;
        FinalTimeout]
       (startGame zeroDraws (generateCatanBoard 2)
          (TileCount.mk 1 1 0 0 0 1 0 0) 0))) ≡ₚ
    numberDistributionFor 2 (numberedTiles (TileCount.mk 1 1 0 0 0 1 0 0)).
Proof.
  assert (Hsort : forall c' l, fst (keepOrder c' l) ≡ₚ l) by reflexivity.
  assert (Hfit : 2 <> 2 \/
            (numberedTiles (TileCount.mk 1 1 0 0 0 1 0 0) <= 18)%nat)
    by (right; vm_compute; lia).
  assert (Hshown : showFinalBoard
    (run zeroDraws keepOrder 2 (generateCatanBoard 2)
       [KeyDown Space; SpawnTimeout; KeyDown Space; SpawnTimeout; KeyDown Space;
        FinalTimeout]
       (startGame zeroDraws (generateCatanBoard 2)
          (TileCount.mk 1 1 0 0 0 1 0 0) 0)) = true)
    by (vm_compute; reflexivity).
  assert (Hfull : jsize (board
    (run zeroDraws keepOrder 2 (generateCatanBoard 2)
       [KeyDown Space; SpawnTimeout; KeyDown Space; SpawnTimeout; KeyDown Space;
        FinalTimeout]
       (startGame zeroDraws (generateCatanBoard 2)
          (TileCount.mk 1 1 0 0 0 1 0 0) 0)))
    = TileCount.total (TileCount.mk 1 1 0 0 0 1 0 0))
    by (vm_compute; reflexivity).
  split; [exact Hsort|]. split; [reflexivity|]. split; [exact Hshown|].
  split; [exact Hfull|]. split; [exact Hfit|].
  exact (proj2 (final_numbers_are_the_distribution zeroDraws keepOrder 2
                  (generateCatanBoard 2) (TileCount.mk 1 1 0 0 0 1 0 0) 0
                  [KeyDown Space; SpawnTimeout; KeyDown Space; SpawnTimeout;
                   KeyDown Space; FinalTimeout] Hsort)
           eq_refl Hshown Hfull Hfit).
Defined.

(** ** The tiles of a game and the cells of its board *)


